(** * The retrieval pipeline of [news_project/RAG_test]: chunking, candidate
    fetch, MMR re-selection, BM25 mixing and cross-encoder reranking.

    The development embeds [ingest.py] ([token_chunk]) and [rag.py]
    ([retrieve], [bm25_mix], [rerank_cross_encoder]) as Rocq functions and
    proves properties of them.

    Conventions of the embedding:
    - Python [int] is [Z]; list lengths are [nat] and are injected with
      [Z.of_nat] where the source compares them with an [int].
    - A finite Python or numpy float is the rational [Q] it denotes, and
      two floats compare as their rationals do.  Floating-point arithmetic
      rounds: an operation of Python's [float] or of a numpy float64 array
      returns the exact result rounded to binary64 ([Fl]); a float literal
      is the binary64 number nearest to the decimal written.  Infinities
      and NaN are outside the embedding.
    - What numpy leaves to its version and build (the order [argsort] gives
      equal elements, the order in which [np.dot] adds, the type an
      operation of a Python float with a float32 scalar is carried out in)
      is a parameter, the record [Np.Numpy].
    - Hit records are never recomputed, so statements about hits use [=].
    - A Python exception is a [Raise e] result; a loop that the source may run
      forever takes a fuel argument counting loop-body executions and yields
      [OutOfFuel] when it is used up.
    - Third-party capabilities (tiktoken, chromadb, sentence-transformers,
      rank_bm25) are parameters: functions that may raise. *)

From Stdlib Require Import String.
From Stdlib Require Import List ZArith QArith Bool Lia Permutation Sorted.
From Stdlib Require DecimalString.
Import ListNotations.

Set Implicit Arguments.

(* ===================================================================== *)
(** * Part I: the embedding *)
(* ===================================================================== *)

(** ** Exceptions and results *)

Inductive exn : Type :=
| IndexError
| ValueError
| Raised (name : string).   (* an exception coming out of a capability *)

Inductive result (A : Type) : Type :=
| Ok (a : A)
| Raise (e : exn)
| OutOfFuel.

Arguments Ok {A} a.
Arguments Raise {A} e.
Arguments OutOfFuel {A}.

Definition rbind {A B : Type} (r : result A) (f : A -> result B) : result B :=
  match r with
  | Ok a => f a
  | Raise e => Raise e
  | OutOfFuel => OutOfFuel
  end.

Definition rmap {A B : Type} (f : A -> B) (r : result A) : result B :=
  rbind r (fun a => Ok (f a)).

Declare Scope result_scope.
Delimit Scope result_scope with result.
Notation "x <- c ;; k" := (rbind c (fun x => k))
  (at level 61, c at next level, right associativity) : result_scope.

Fixpoint mapM {A B : Type} (f : A -> result B) (l : list A) : result (list B) :=
  match l with
  | [] => Ok []
  | x :: l' =>
      (y <- f x ;;
       ys <- mapM f l' ;;
       Ok (y :: ys))%result
  end.

(* ===================================================================== *)
(** ** Python and numpy built-ins used by the two scripts *)
(* ===================================================================== *)

Module Py.

(** [l[i]] for a non-negative index. *)
Definition item_at {A : Type} (l : list A) (i : nat) : result A :=
  match nth_error l i with
  | Some a => Ok a
  | None => Raise IndexError
  end.

(** A slice bound [i] of a sequence of length [len]: negative bounds count
    from the end, and every bound is clipped to [0 .. len]. *)
Definition clamp_index (len i : Z) : Z :=
  if (i <? 0)%Z then Z.max 0 (i + len) else Z.min i len.

(** [l[i:j]] *)
Definition slice {A : Type} (l : list A) (i j : Z) : list A :=
  let len := Z.of_nat (length l) in
  let a := clamp_index len i in
  let b := clamp_index len j in
  firstn (Z.to_nat (b - a)) (skipn (Z.to_nat a) l).

(** [l[:k]] *)
Definition take {A : Type} (k : Z) (l : list A) : list A :=
  firstn (Z.to_nat (clamp_index (Z.of_nat (length l)) k)) l.

(** *** Sorting

    [sorted] is stable: elements that compare equal keep their relative
    order.  It is modelled by insertion from the right, each element being
    put in front of the first element it is not greater than. *)
Section Sort.
Variable A : Type.
Variable leb : A -> A -> bool.

Fixpoint insert (x : A) (l : list A) : list A :=
  match l with
  | [] => [x]
  | y :: l' => if leb x y then x :: y :: l' else y :: insert x l'
  end.

Fixpoint sort_by (l : list A) : list A :=
  match l with
  | [] => []
  | x :: l' => insert x (sort_by l')
  end.

(** The order a stable sort produces when its input is ordered by [T]:
    ascending for [leb], and by [T] among elements that tie. *)
Definition stable_rel (T : A -> A -> Prop) (a b : A) : Prop :=
  leb a b = true /\ (leb b a = true -> T a b).
End Sort.

(** [sorted(l, key=key)] *)
Definition sorted {A : Type} (key : A -> Q) (l : list A) : list A :=
  sort_by (fun a b => Qle_bool (key a) (key b)) l.

(** [sorted(l, key=key, reverse=True)]: descending, and still stable. *)
Definition sorted_reverse {A : Type} (key : A -> Q) (l : list A) : list A :=
  sort_by (fun a b => Qle_bool (key b) (key a)) l.

(** *** [min] and [max]

    Both scan the iterable once, from the first element, and replace the
    current best only by a strictly better one: the first extremal element
    wins.  An empty iterable raises [ValueError]; an exception of the key
    function propagates. *)
Section Extremum.
Variable A : Type.
Variable better : Q -> Q -> bool.   (* [better new best] *)
Variable key : A -> result Q.

Fixpoint scan (best : A) (kbest : Q) (l : list A) : result A :=
  match l with
  | [] => Ok best
  | x :: l' =>
      (kx <- key x ;;
       if better kx kbest then scan x kx l' else scan best kbest l')%result
  end.

Definition extremum (l : list A) : result A :=
  match l with
  | [] => Raise ValueError
  | x :: l' => (kx <- key x ;; scan x kx l')%result
  end.
End Extremum.

Definition Qlt_bool (x y : Q) : bool := negb (Qle_bool y x).

Definition min_key {A : Type} (key : A -> result Q) (l : list A) : result A :=
  extremum (fun new best => Qlt_bool new best) key l.

Definition max_key {A : Type} (key : A -> result Q) (l : list A) : result A :=
  extremum (fun new best => Qlt_bool best new) key l.

(** [max(xs)] and [a.max()] on numbers. *)
Definition max_of (l : list Q) : result Q := max_key (fun x => Ok x) l.

(** Elementwise binary operation on two one-dimensional arrays, with
    numpy's broadcasting of a length-one operand. *)
Definition broadcast2 (f : Q -> Q -> Q) (a b : list Q) : result (list Q) :=
  if Nat.eqb (length a) (length b) then Ok (map (fun p => f (fst p) (snd p)) (combine a b))
  else match a, b with
       | [x], _ => Ok (map (f x) b)
       | _, [y] => Ok (map (fun x => f x y) a)
       | _, _ => Raise ValueError
       end.

(** The iteration order of [set(range(n))] and of what is left of it after
    [remove]: CPython stores a small non-negative int in the slot equal to
    its value (the table is always longer than [n]) and iterates over the
    slots upwards, so the elements come in increasing order.  The set is
    therefore represented by the increasing list of its elements. *)
Definition set_range (n : nat) : list nat := seq 0 n.

Definition set_remove (x : nat) (s : list nat) : list nat :=
  remove Nat.eq_dec x s.

End Py.

(* ===================================================================== *)
(** ** Floating-point arithmetic *)
(* ===================================================================== *)

Module Fl.

(** [2^e] *)
Definition pow2 (e : Z) : Q :=
  if (0 <=? e)%Z then inject_Z (2 ^ e) else 1 # Z.to_pos (2 ^ (- e)).

(** The binary exponent of a positive rational [x]: the [e] with
    [2^e <= x < 2^(e+1)]. *)
Definition exponent (x : Q) : Z :=
  let e := (Z.log2 (Qnum x) - Z.log2 (Zpos (Qden x)))%Z in
  if Qle_bool (pow2 e) x then e else (e - 1)%Z.

(** The integer nearest to a non-negative rational; of two equally near,
    the even one. *)
Definition nearest_even (x : Q) : Z :=
  let n := (Qnum x / Zpos (Qden x))%Z in
  match Qcompare (x - inject_Z n) (1 # 2) with
  | Lt => n
  | Gt => (n + 1)%Z
  | Eq => if Z.even n then n else (n + 1)%Z
  end.

(** A positive rational rounded to the nearest number with [prec]
    significant bits; below [2^emin] the numbers of the format are evenly
    spaced (subnormal). *)
Definition round_abs (prec emin : Z) (a : Q) : Q :=
  let e := Z.max (exponent a) emin in
  let ulp := pow2 (e - prec + 1) in
  Qred (inject_Z (nearest_even (a / ulp)) * ulp).

(** Round to nearest, ties to even, in the binary format with [prec]
    significant bits and least normal exponent [emin].  A result beyond the
    largest finite number of the format (an infinity in IEEE 754) is
    outside the embedding. *)
Definition round_to (prec emin : Z) (x : Q) : Q :=
  let x := Qred x in
  match Qnum x with
  | Z0 => 0
  | Zpos _ => round_abs prec emin x
  | Zneg _ => - round_abs prec emin (- x)
  end.

Arguments round_to prec emin x : simpl never.

(** binary64: Python's [float], numpy's float64. *)
Definition round64 : Q -> Q := round_to 53 (-1022).

(** binary32: numpy's float32. *)
Definition round32 : Q -> Q := round_to 24 (-126).

(** The operations of Python floats and of float64 arrays.  Division by
    zero (an exception in Python, an infinity or NaN in numpy) is outside
    the embedding. *)
Definition add (x y : Q) : Q := round64 (x + y).
Definition sub (x y : Q) : Q := round64 (x - y).
Definition mul (x y : Q) : Q := round64 (x * y).
Definition div (x y : Q) : Q := round64 (x / y).

(** A float literal. *)
Definition lit (q : Q) : Q := round64 q.

(** A rational that is a binary64 number. *)
Definition is_float (q : Q) : Prop := round64 q == q.

End Fl.

(* ===================================================================== *)
(** ** numpy *)
(* ===================================================================== *)

Module Np.

(** What the scripts use of numpy and numpy does not fix:
    - [argsort a] is [a.argsort()] with the default kind, which is not
      stable;
    - [dot u v] is [np.dot(u, v)] of two rows of a float32 matrix, a
      float32 scalar; the order of the additions is the BLAS library's;
    - [scalar_mul x s] is [x * s] and [scalar_sub x s] is [x - s] for a
      Python float [x] and a numpy scalar [s]; whether the operation is
      carried out in float32 or in float64 depends on the promotion rules
      of the numpy version. *)
Record Numpy : Type := {
  argsort : list Q -> list nat;
  dot : list Q -> list Q -> Q;
  scalar_mul : Q -> Q -> Q;
  scalar_sub : Q -> Q -> Q
}.

(** What numpy documents of [argsort]: the indices of [a], in an order in
    which the elements of [a] ascend.  Nothing is said of the order of the
    indices of equal elements. *)
Definition sorts (argsort : list Q -> list nat) : Prop :=
  forall a : list Q,
    Permutation (argsort a) (seq 0 (length a)) /\
    StronglySorted (fun i j => nth i a 0 <= nth j a 0) (argsort a).

(** Two argsorts.  The first leaves the indices of equal elements in
    ascending order, as the insertion sort does that numpy's default kind
    uses on short arrays where no vectorized kernel is dispatched; the
    second leaves them in descending order. *)
Definition argsort_ties_up (a : list Q) : list nat :=
  map snd (Py.sorted fst (combine a (seq 0 (length a)))).

Definition argsort_ties_down (a : list Q) : list nat :=
  rev (map snd (Py.sorted_reverse fst (combine a (seq 0 (length a))))).

(** A dot product in float32 that adds the products from left to right. *)
Definition dot32 (u v : list Q) : Q :=
  fold_left (fun acc p => Fl.round32 (acc + Fl.round32 (fst p * snd p)))
            (combine u v) 0.

End Np.

(* ===================================================================== *)
(** ** ingest.py *)
(* ===================================================================== *)

Module Ingest.

Definition CHUNK_TOKENS : Z := 400.
Definition CHUNK_OVERLAP : Z := 80.

Section Chunker.
(** The tiktoken encoding: [enc.encode] and [enc.decode]. *)
Variable Tok : Type.
Variable encode : string -> list Tok.
Variable decode : list Tok -> string.

(** The [while] loop of [token_chunk]; [fuel] bounds the number of times
    its body runs. *)
Fixpoint token_chunk_loop (fuel : nat) (toks : list Tok)
         (max_tokens overlap : Z) (start : Z) (chunks : list string)
         {struct fuel} : result (list string) :=
  if (start <? Z.of_nat (length toks))%Z then
    match fuel with
    | O => OutOfFuel
    | S fuel' =>
        let end_ := Z.min (start + max_tokens) (Z.of_nat (length toks)) in
        let chunk := decode (Py.slice toks start end_) in
        let chunks := chunks ++ [chunk] in
        if (end_ =? Z.of_nat (length toks))%Z then Ok chunks
        else token_chunk_loop fuel' toks max_tokens overlap
                              (Z.max 0 (end_ - overlap)) chunks
    end
  else Ok chunks.

Definition token_chunk (fuel : nat) (text : string)
           (max_tokens overlap : Z) : result (list string) :=
  let toks := encode text in
  token_chunk_loop fuel toks max_tokens overlap 0 [].

(** The same loop, recording the window [(start, end)] of each chunk it
    appends instead of the decoded text. *)
Fixpoint token_windows_loop (fuel : nat) (len : Z)
         (max_tokens overlap : Z) (start : Z) (windows : list (Z * Z))
         {struct fuel} : result (list (Z * Z)) :=
  if (start <? len)%Z then
    match fuel with
    | O => OutOfFuel
    | S fuel' =>
        let end_ := Z.min (start + max_tokens) len in
        let windows := windows ++ [(start, end_)] in
        if (end_ =? len)%Z then Ok windows
        else token_windows_loop fuel' len max_tokens overlap
                                (Z.max 0 (end_ - overlap)) windows
    end
  else Ok windows.

Definition token_windows (fuel : nat) (text : string)
           (max_tokens overlap : Z) : result (list (Z * Z)) :=
  token_windows_loop fuel (Z.of_nat (length (encode text)))
                     max_tokens overlap 0 [].

(** The chunk decoded from a window. *)
Definition chunk_of (toks : list Tok) (w : Z * Z) : string :=
  decode (Py.slice toks (fst w) (snd w)).
End Chunker.

(** [ceil(a / b)] for a positive [b]. *)
Definition ceil_div (a b : Z) : Z := (a + b - 1) / b.

(** Does the window end at the end of a token sequence of length [len]? *)
Definition ends_at (len : Z) (w : Z * Z) : bool := (snd w =? len)%Z.

End Ingest.

(* ===================================================================== *)
(** ** rag.py *)
(* ===================================================================== *)

Module Rag.

Definition Vec : Type := list Q.

(** The metadata written at ingestion: [{"source": path, "chunk_idx": i}]. *)
Record Meta : Type := { source : string; chunk_idx : Z }.

(** A hit: [{"doc": d, "meta": m, "dist": dist}]. *)
Record Hit : Type := { doc : string; meta : Meta; dist : Q }.

(** The answer of [col.query]: one inner list per query embedding.  The
    [distances] field may be missing. *)
Record QueryResult : Type := {
  documents : list (list string);
  metadatas : list (list Meta);
  distances : option (list (list Q))
}.

(** The capabilities [retrieve] uses.  [encode] is
    [embedder.encode(texts, normalize_embeddings=True)], one row per text;
    [col_query] is [col.query(query_embeddings=..., n_results=...)];
    [numpy] is the numpy the script imports. *)
Record Embedder : Type := { encode : list string -> result (list Vec) }.
Record Collection : Type := { col_query : list Vec -> Z -> result QueryResult }.
Record World : Type := {
  get_collection : result Collection;
  get_embedder : result Embedder;
  numpy : Np.Numpy
}.

(** Calls made to the capabilities, in the order they are made. *)
Inductive call : Type :=
| CallGetCollection
| CallGetEmbedder
| CallEncode (texts : list string)
| CallQuery (query_embeddings : list Vec) (n_results : Z).

(** Computations that call capabilities: the call log is threaded through. *)
Definition M (A : Type) : Type := list call -> list call * result A.

Definition ret {A : Type} (a : A) : M A := fun log => (log, Ok a).

Definition bind {A B : Type} (m : M A) (f : A -> M B) : M B :=
  fun log =>
    match m log with
    | (log', Ok a) => f a log'
    | (log', Raise e) => (log', Raise e)
    | (log', OutOfFuel) => (log', OutOfFuel)
    end.

Definition lift {A : Type} (r : result A) : M A := fun log => (log, r).

(** Make the call [c], whose outcome is [r]. *)
Definition perform {A : Type} (c : call) (r : result A) : M A :=
  fun log => (log ++ [c], r).

Definition run {A : Type} (m : M A) : list call * result A := m [].

Declare Scope io_scope.
Delimit Scope io_scope with io.
Notation "x <- c ;; k" := (bind c (fun x => k))
  (at level 61, c at next level, right associativity) : io_scope.

Definition is_call_encode (c : call) : bool :=
  match c with CallEncode _ => true | _ => false end.

Definition is_call_query (c : call) : bool :=
  match c with CallQuery _ _ => true | _ => false end.

(** [zip(docs, metas, dists)], turned into hits. *)
Fixpoint zip_hits (docs : list string) (metas : list Meta) (dists : list Q)
  : list Hit :=
  match docs, metas, dists with
  | d :: docs', m :: metas', x :: dists' =>
      {| doc := d; meta := m; dist := x |} :: zip_hits docs' metas' dists'
  | _, _, _ => []
  end.

(** [items[i]["dist"]] as a total function of the index, for statements. *)
Definition dist_at (items : list Hit) (i : nat) : Q :=
  match nth_error items i with
  | Some h => dist h
  | None => 0
  end.

(** The local function [mmr_score] of [retrieve].  [qsim], [lam*qsim] and
    [1-lam] are operations of Python floats; [diversity] is a float32
    scalar, so the product with it and the final difference are numpy's. *)
Definition mmr_score (np : Np.Numpy) (items : list Hit) (emb_chunks : list Vec)
           (selected : list nat) (i : nat) : result Q :=
  (it <- Py.item_at items i ;;
   let qsim := Fl.sub 1 (dist it) in
   sims <- mapM (fun j =>
                   ei <- Py.item_at emb_chunks i ;;
                   ej <- Py.item_at emb_chunks j ;;
                   Ok (Np.dot np ei ej)) selected ;;
   diversity <- Py.max_of sims ;;
   let lam := Fl.lit (75 # 100) in
   Ok (Np.scalar_sub np (Fl.mul lam qsim)
                     (Np.scalar_mul np (Fl.sub 1 lam) diversity)))%result.

(** The greedy [while] loop of the MMR branch.  Each pass moves one index
    from [cand_idx] to [selected]; [fuel] bounds the number of passes. *)
Fixpoint mmr_loop (np : Np.Numpy) (fuel : nat) (items : list Hit)
         (emb_chunks : list Vec)
         (k : Z) (selected : list nat) (cand_idx : list nat)
         {struct fuel} : result (list nat) :=
  if negb (Nat.eqb (length cand_idx) 0)
     && (Z.of_nat (length selected) <? k)%Z then
    match fuel with
    | O => OutOfFuel
    | S fuel' =>
        match selected with
        | [] =>
            (best <- Py.min_key (fun i => it <- Py.item_at items i ;; Ok (dist it))
                                cand_idx ;;
             mmr_loop np fuel' items emb_chunks k
                      (selected ++ [best]) (Py.set_remove best cand_idx))%result
        | _ :: _ =>
            (best <- Py.max_key (mmr_score np items emb_chunks selected) cand_idx ;;
             mmr_loop np fuel' items emb_chunks k
                      (selected ++ [best]) (Py.set_remove best cand_idx))%result
        end
    end
  else Ok selected.

(** The MMR branch of [retrieve], from [selected = []] to the list
    comprehension.  The loop runs at most once per candidate. *)
Definition mmr_select (np : Np.Numpy) (items : list Hit) (emb_chunks : list Vec)
           (k : Z) : result (list nat) :=
  mmr_loop np (length items) items emb_chunks k [] (Py.set_range (length items)).

(** [n_results] of the index query. *)
Definition candidate_count (k : Z) (mmr : bool) : Z :=
  Z.max (if mmr then k * 3 else k) k.

(** Lines 42 to 46 of [retrieve]: the hits of the (single) query, with
    distance 0.0 for each when the answer has no [distances]. *)
Definition items_of (res : QueryResult) : result (list Hit) :=
  (docs <- Py.item_at (documents res) 0 ;;
   metas <- Py.item_at (metadatas res) 0 ;;
   dists <- match distances res with
            | Some d => Py.item_at d 0
            | None => Ok (repeat 0 (length docs))
            end ;;
   Ok (zip_hits docs metas dists))%result.

(** The hits of [docs] and [metas] paired up, each at distance 0.0, for
    statements. *)
Definition hits_at_zero (docs : list string) (metas : list Meta) : list Hit :=
  map (fun p => {| doc := fst p; meta := snd p; dist := 0 |}) (combine docs metas).

Definition retrieve (W : World) (query : string) (k : Z) (mmr : bool)
  : M (list Hit) :=
  (col <- perform CallGetCollection (get_collection W) ;;
   embedder <- perform CallGetEmbedder (get_embedder W) ;;
   q_embs <- perform (CallEncode [query]) (encode embedder [query]) ;;
   q_emb <- lift (Py.item_at q_embs 0) ;;
   res <- perform (CallQuery [q_emb] (candidate_count k mmr))
                  (col_query col [q_emb] (candidate_count k mmr)) ;;
   items <- lift (items_of res) ;;
   if mmr then
     emb_chunks <- perform (CallEncode (map doc items))
                           (encode embedder (map doc items)) ;;
     selected <- lift (mmr_select (numpy W) items emb_chunks k) ;;
     lift (mapM (Py.item_at items) selected)
   else
     ret (Py.take k (Py.sorted dist items)))%io.

(** The capabilities answer the Stage-0 calls of [retrieve]: the collection
    and the embedder are there, the query is embedded, and the index answers
    [res]. *)
Definition stage0 (W : World) (query : string) (k : Z) (mmr : bool)
           (embedder : Embedder) (q_emb : Vec) (res : QueryResult) : Prop :=
  exists col rest,
    get_collection W = Ok col /\
    get_embedder W = Ok embedder /\
    encode embedder [query] = Ok (q_emb :: rest) /\
    col_query col [q_emb] (candidate_count k mmr) = Ok res.

(** The calls of Stage 0, in order. *)
Definition stage0_calls (query : string) (q_emb : Vec) (n_results : Z) : list call :=
  [CallGetCollection; CallGetEmbedder; CallEncode [query];
   CallQuery [q_emb] n_results].

(** An embedder that returns one row per text. *)
Definition one_row_per_text (embedder : Embedder) : Prop :=
  forall texts, exists rows,
    encode embedder texts = Ok rows /\ length rows = length texts.

(** *** The optional stages *)

Section Stages.
(** The numpy imported, [BM25Okapi([c.split() for c in corpus])
    .get_scores(query.split())] of rank_bm25 (a float64 array), and
    [CrossEncoder(model_name).predict(pairs)]. *)
Variable np : Np.Numpy.
Variable bm25_get_scores : list string -> string -> result (list Q).
Variable ce_predict : string -> list (string * string) -> result (list Q).

(** The literal [1e-9]. *)
Definition eps : Q := Fl.lit (1 # 1000000000).

(** [sim = 1 - (dist / (dist.max() + 1e-9))], elementwise on float64. *)
Definition sim_of (dmax : Q) (d : Q) : Q := Fl.sub 1 (Fl.div d (Fl.add dmax eps)).

(** [mixed = alpha*bm_scores + (1-alpha)*sim], elementwise on float64. *)
Definition mixed_of (alpha : Q) (bm_scores sim : list Q) : result (list Q) :=
  Py.broadcast2 Fl.add (map (Fl.mul alpha) bm_scores)
                (map (Fl.mul (Fl.sub 1 alpha)) sim).

(** Lines 80 to 87 of [bm25_mix]: the mixed scores of the hits. *)
Definition mixed_scores (query : string) (hits : list Hit) (alpha : Q)
  : result (list Q) :=
  (let corpus := map doc hits in
   bm_scores <- bm25_get_scores corpus query ;;
   let dist_ := map dist hits in
   dmax <- Py.max_of dist_ ;;
   let sim := map (sim_of dmax) dist_ in
   mixed_of alpha bm_scores sim)%result.

Definition bm25_mix (query : string) (hits : list Hit) (alpha : Q)
  : result (list Hit) :=
  (mixed <- mixed_scores query hits alpha ;;
   let order := rev (Np.argsort np mixed) in
   mapM (Py.item_at hits) order)%result.

(** The default [alpha = 0.2]. *)
Definition default_alpha : Q := Fl.lit (2 # 10).

Definition default_model_name : string := "BAAI/bge-reranker-v2-m3".

Definition rerank_cross_encoder (query : string) (hits : list Hit)
           (model_name : string) : result (list Hit) :=
  (let pairs := map (fun h => (query, doc h)) hits in
   scores <- ce_predict model_name pairs ;;
   let ranked := Py.sorted_reverse snd (combine hits scores) in
   Ok (map fst ranked))%result.

End Stages.

(** The mixed score of a hit, written out from its BM25 score [fst p] and
    the largest distance [dmax] among the hits, for statements. *)
Definition mixed_at (alpha : Q) (dmax : Q) (p : Q * Hit) : Q :=
  Fl.add (Fl.mul alpha (fst p))
         (Fl.mul (Fl.sub 1 alpha)
                 (Fl.sub 1 (Fl.div (dist (snd p))
                                   (Fl.add dmax (Fl.lit (1 # 1000000000)))))).

(** The order the specification asks of the fusion stage, for comparison:
    hits by descending score, hits of equal score in the order they came. *)
Definition spec_fusion_order (scores : list Q) (hits : list Hit) : list Hit :=
  map fst (Py.sorted_reverse snd (combine hits scores)).

End Rag.

(* ===================================================================== *)
(** ** Stub capabilities, as a test suite would inject them *)
(* ===================================================================== *)

Module Stub.
Import Rag.

(** A tokenizer with one token per character. *)
Definition char_encode (s : string) : list Ascii.ascii := list_ascii_of_string s.
Definition char_decode (l : list Ascii.ascii) : string := string_of_list_ascii l.

(** An embedder that maps every text to the same unit vector. *)
Definition embedder : Embedder :=
  {| encode := fun texts => Ok (map (fun _ => [1]) texts) |}.

(** A numpy whose [argsort] leaves equal elements in index order and that
    multiplies and subtracts scalars in float64. *)
Definition numpy : Np.Numpy :=
  {| Np.argsort := Np.argsort_ties_up;
     Np.dot := Np.dot32;
     Np.scalar_mul := Fl.mul;
     Np.scalar_sub := Fl.sub |}.

(** An index over [corpus] whose hits already carry their distance to the
    query: it answers with the [n_results] nearest, and, like chromadb,
    refuses [n_results <= 0]. *)
Definition answer (with_distances : bool) (corpus : list Hit) (n_results : Z)
  : QueryResult :=
  let hits := firstn (Z.to_nat n_results) (Py.sorted dist corpus) in
  {| documents := [map doc hits];
     metadatas := [map meta hits];
     distances := if with_distances then Some [map dist hits] else None |}.

Definition collection (with_distances : bool) (corpus : list Hit) : Collection :=
  {| col_query := fun _ n_results =>
       if (n_results <=? 0)%Z then Raise (Raised "ValueError")
       else Ok (answer with_distances corpus n_results) |}.

Definition world (with_distances : bool) (corpus : list Hit) : World :=
  {| get_collection := Ok (collection with_distances corpus);
     get_embedder := Ok embedder;
     Rag.numpy := numpy |}.

(** A hit of [news.txt] at the distance written [x] as a float literal. *)
Definition hit (d : string) (i : Z) (x : Q) : Hit :=
  {| doc := d; meta := {| source := "news.txt"; chunk_idx := i |};
     dist := Fl.lit x |}.

(** The corpus of the end-to-end scenarios: distances 0.1, 0.2 and 0.9. *)
Definition corpus3 : list Hit :=
  [hit "alpha" 0 (1 # 10); hit "beta" 1 (2 # 10); hit "gamma" 2 (9 # 10)].

(** Two hits at the same distance. *)
Definition tied : list Hit :=
  [hit "first" 0 (1 # 2); hit "second" 1 (1 # 2)].

(** BM25 scores of a query that shares no term with any hit: all zero. *)
Definition bm25_no_match (corpus : list string) (query : string) : result (list Q) :=
  Ok (map (fun _ => 0) corpus).

(** A cross-encoder that scores a pair by the length of its text. *)
Definition ce_length (model_name : string) (pairs : list (string * string))
  : result (list Q) :=
  Ok (map (fun p => inject_Z (Z.of_nat (String.length (snd p)))) pairs).

End Stub.

(* ===================================================================== *)
(** ** Shapes used to describe what the chunker emits *)
(* ===================================================================== *)

Module Windows.

(** The windows a run of the chunker loop emits from [start] on: every
    window but the last takes [max_tokens] tokens and the next one starts
    [overlap] tokens before its end; the last one stops at [len]. *)
Inductive window_chain (len max_tokens overlap : Z) : Z -> list (Z * Z) -> Prop :=
| chain_last (start : Z) :
    (start < len)%Z -> (len <= start + max_tokens)%Z ->
    window_chain len max_tokens overlap start [(start, len)]
| chain_next (start : Z) (rest : list (Z * Z)) :
    (start + max_tokens < len)%Z ->
    window_chain len max_tokens overlap (start + max_tokens - overlap) rest ->
    window_chain len max_tokens overlap start ((start, (start + max_tokens)%Z) :: rest).

(** The tokens a window adds to those of the window before it. *)
Definition fresh_tokens {Tok : Type} (toks : list Tok) (overlap : Z) (w : Z * Z)
  : list Tok :=
  Py.slice toks (fst w + overlap) (snd w).

End Windows.

(* ===================================================================== *)
(** ** The two [main] functions *)
(* ===================================================================== *)

(** Computations that leave a trace of events and may raise. *)
Module Trace.

Section T.
Variable E : Type.

Definition T (A : Type) : Type := list E -> list E * result A.

Definition ret {A : Type} (a : A) : T A := fun log => (log, Ok a).

Definition bind {A B : Type} (m : T A) (f : A -> T B) : T B :=
  fun log =>
    match m log with
    | (log', Ok a) => f a log'
    | (log', Raise e) => (log', Raise e)
    | (log', OutOfFuel) => (log', OutOfFuel)
    end.

Definition lift {A : Type} (r : result A) : T A := fun log => (log, r).

(** The event [e] happens and has the outcome [r]. *)
Definition event {A : Type} (e : E) (r : result A) : T A :=
  fun log => (log ++ [e], r).

(** A [for] loop over [l]. *)
Fixpoint for_each {A : Type} (l : list A) (f : A -> T unit) : T unit :=
  match l with
  | [] => ret tt
  | x :: l' => bind (f x) (fun _ => for_each l' f)
  end.

Definition run {A : Type} (m : T A) : list E * result A := m [].
End T.

End Trace.

Declare Scope trace_scope.
Delimit Scope trace_scope with trace.
Notation "x <- c ;; k" := (Trace.bind c (fun x => k))
  (at level 61, c at next level, right associativity) : trace_scope.

(** Built-ins of the two [main] functions. *)
Module PyText.

(** A line feed. *)
Definition nl : string := String (Ascii.ascii_of_nat 10) EmptyString.

(** [str(n)] of an [int]. *)
Definition str_of_int (z : Z) : string :=
  DecimalString.NilZero.string_of_int (Z.to_int z).

(** [enumerate(l, start)], with the index as an [int]. *)
Definition enumerate {A : Type} (l : list A) (start : Z) : list (Z * A) :=
  combine (map (fun i => (start + Z.of_nat i)%Z) (seq 0 (length l))) l.

End PyText.

(** *** rag.py: [build_prompt], [generate_answer], [main] *)
Module RagMain.
Import Rag PyText.

(** A chat message: [{"role": ..., "content": ...}]. *)
Record Message : Type := { role : string; content : string }.

(** One entry of [context_block]:
    [f"[{i+1}] SOURCE: {source} (chunk {chunk_idx})\n{doc}"]. *)
Definition context_entry (p : Z * Hit) : string :=
  let (i, c) := p in
  ("[" ++ str_of_int (i + 1) ++ "] SOURCE: " ++ source (meta c)
       ++ " (chunk " ++ str_of_int (chunk_idx (meta c)) ++ ")" ++ nl ++ doc c)%string.

Definition system_prompt : string :=
  ("당신은 정확한 RAG 비서입니다. 제공된 '컨텍스트'만 근거로 한국어로 답하세요. "
   ++ "모르면 모른다고 말하세요. 반드시 근거가 된 출처를 인덱스 번호로 함께 표기하세요.")%string.

Definition build_prompt (query : string) (contexts : list Hit) : list Message :=
  let context_block :=
    String.concat (nl ++ nl) (map context_entry (enumerate contexts 0)) in
  let system := system_prompt in
  let user :=
    ("질문:" ++ nl ++ query ++ nl ++ nl
     ++ "컨텍스트(참조용):" ++ nl ++ context_block ++ nl ++ nl
     ++ "요구사항:" ++ nl ++ "- 컨텍스트 범위를 벗어난 추측 금지" ++ nl
     ++ "- 핵심 요약 → 근거 표기 [1], [2]..." ++ nl)%string in
  [ {| role := "system"; content := system |};
    {| role := "user"; content := user |} ].

(** What [main] does to the outside: the calls of [retrieve], the chat
    completion request, and what it prints. *)
Inductive event : Type :=
| Capability (c : call)
| Chat (model : string) (messages : list Message) (temperature : Q)
| Print (text : string).

(** One line of the source list: [f"[{i}] {src} (chunk {idx})"]. *)
Definition source_line (p : Z * Hit) : string :=
  let (i, h) := p in
  ("[" ++ str_of_int i ++ "] " ++ source (meta h)
       ++ " (chunk " ++ str_of_int (chunk_idx (meta h)) ++ ")")%string.

Section Main.
(** The environment ([MMR], [RERANK], [OPENAI_MODEL]), the capabilities of
    the optional stages, the chat completion of the OpenAI client (the
    content of its first choice), and [str.strip]. *)
Variable USE_MMR USE_RERANK : bool.
Variable OPENAI_MODEL : string.
Variable W : World.
Variable bm25_get_scores : list string -> string -> result (list Q).
Variable ce_predict : string -> list (string * string) -> result (list Q).
Variable chat_completion : string -> list Message -> Q -> result string.
Variable str_strip : string -> string.

Definition print (text : string) : Trace.T event unit :=
  Trace.event (Print text) (Ok tt).

(** [retrieve], with its calls put on the trace. *)
Definition retrieve_traced (query : string) (k : Z) (mmr : bool)
  : Trace.T event (list Hit) :=
  fun log =>
    let (calls, r) := run (retrieve W query k mmr) in
    (log ++ map Capability calls, r).

(** [temperature=0.2] is handed to the client as written. *)
Definition generate_answer (query : string) (contexts : list Hit)
  : Trace.T event string :=
  let messages := build_prompt query contexts in
  Trace.event (Chat OPENAI_MODEL messages (2 # 10))
              (chat_completion OPENAI_MODEL messages (2 # 10)).

(** [main], from the parsed arguments [--q], [--k], [--lexical], [--rerank]. *)
Definition main (q : string) (k : Z) (lexical rerank : bool) : Trace.T event unit :=
  (hits <- retrieve_traced q k USE_MMR ;;
   hits <- (if lexical
            then Trace.lift (bm25_mix (numpy W) bm25_get_scores q hits default_alpha)
            else Trace.ret hits) ;;
   hits <- (if rerank || USE_RERANK
            then Trace.lift (rerank_cross_encoder ce_predict q hits default_model_name)
            else Trace.ret hits) ;;
   answer <- generate_answer q (Py.take k hits) ;;
   _ <- print (nl ++ "=== ANSWER ===" ++ nl) ;;
   _ <- print (str_strip answer) ;;
   _ <- print (nl ++ "=== SOURCES ===") ;;
   Trace.for_each (enumerate (Py.take k hits) 1)
                  (fun p => print (source_line p)))%trace.

(** The hits [main] holds when it asks for the answer: what [retrieve] and
    then the requested stages return.  For statements. *)
Definition staged_hits (q : string) (k : Z) (lexical rerank : bool)
  : result (list Hit) :=
  (hits <- snd (run (retrieve W q k USE_MMR)) ;;
   hits <- (if lexical
            then bm25_mix (numpy W) bm25_get_scores q hits default_alpha
            else Ok hits) ;;
   if rerank || USE_RERANK
   then rerank_cross_encoder ce_predict q hits default_model_name
   else Ok hits)%result.

End Main.

Definition is_chat (e : event) : bool :=
  match e with Chat _ _ _ => true | _ => false end.

Definition is_print (e : event) : bool :=
  match e with Print _ => true | _ => false end.

End RagMain.

(** *** ingest.py: [main] *)
Module IngestMain.
Import Rag PyText.

Definition DATA_DIR : string := "data".
Definition DB_DIR : string := "vectordb".
Definition COLLECTION_NAME : string := "rag_collection".

(** What [main] does to the outside. *)
Inductive event : Type :=
| MakeDirs (path : string)
| OpenClient (path : string)
| ListCollections
| GetCollection (name : string)
| CreateCollection (name : string) (space : string)
| GetEmbedder
| LoadDocuments (data_dir : string)
| Encode (texts : list string)
| Upsert (ids : list string) (embeddings : list Vec) (metadatas : list Meta)
         (documents : list string)
| Print (text : string).

(** The three lists [main] fills: [ids], [texts], [metadatas]. *)
Record Batch : Type := {
  ids : list string;
  texts : list string;
  metadatas : list Meta
}.

Definition empty_batch : Batch := {| ids := []; texts := []; metadatas := [] |}.

(** The metadata of the [n] chunks of the document at [path], for statements. *)
Definition doc_metas (path : string) (n : nat) : list Meta :=
  map (fun i => {| source := path; chunk_idx := Z.of_nat i |}) (seq 0 n).

Section Main.
(** The tokenizer, the environment ([EMBEDDING_MODEL]), the capabilities
    (file system, chromadb client, embedding model, [load_documents]) and
    the identifiers [uuid.uuid4()] draws, the n-th draw being [uuid4 n]. *)
Variable Tok : Type.
Variable encode_tokens : string -> list Tok.
Variable decode_tokens : list Tok -> string.
Variable EMBEDDING_MODEL : string.
Variable makedirs : result unit.
Variable open_client : result unit.
Variable list_collections : result (list string).
Variable get_collection : result unit.
Variable create_collection : result unit.
Variable get_embedder : result Embedder.
Variable load_documents : result (list (string * string)).
Variable uuid4 : nat -> string.
Variable upsert : list string -> list Vec -> list Meta -> list string -> result unit.

(** [token_chunk(full_text)], with the default [max_tokens] and [overlap].
    The fuel is what the loop needs at most with these. *)
Definition token_chunk_default (full_text : string) : result (list string) :=
  Ingest.token_chunk
    encode_tokens decode_tokens
    (Z.to_nat (Ingest.ceil_div (Z.of_nat (length (encode_tokens full_text)))
                               (Ingest.CHUNK_TOKENS - Ingest.CHUNK_OVERLAP)))
    full_text Ingest.CHUNK_TOKENS Ingest.CHUNK_OVERLAP.

(** The inner loop: [for i, ch in enumerate(chunks)]. *)
Fixpoint add_chunks (path : string) (chunks : list (Z * string)) (b : Batch) : Batch :=
  match chunks with
  | [] => b
  | (i, ch) :: rest =>
      add_chunks path rest
                 {| ids := ids b ++ [uuid4 (length (ids b))];
                    texts := texts b ++ [ch];
                    metadatas := metadatas b ++ [{| source := path; chunk_idx := i |}] |}
  end.

(** The outer loop: [for path, full_text in docs]. *)
Fixpoint add_docs (docs : list (string * string)) (b : Batch) : result Batch :=
  match docs with
  | [] => Ok b
  | (path, full_text) :: rest =>
      (chunks <- token_chunk_default full_text ;;
       add_docs rest (add_chunks path (enumerate chunks 0) b))%result
  end.

Definition print (text : string) : Trace.T event unit :=
  Trace.event (Print text) (Ok tt).

Definition main : Trace.T event unit :=
  (_ <- Trace.event (MakeDirs DB_DIR) makedirs ;;
   _ <- Trace.event (OpenClient DB_DIR) open_client ;;
   colls <- Trace.event ListCollections list_collections ;;
   _ <- (if existsb (String.eqb COLLECTION_NAME) colls
         then Trace.event (GetCollection COLLECTION_NAME) get_collection
         else Trace.event (CreateCollection COLLECTION_NAME "cosine") create_collection) ;;
   embedder <- Trace.event GetEmbedder get_embedder ;;
   docs <- Trace.event (LoadDocuments DATA_DIR) load_documents ;;
   match docs with
   | [] =>
       print ("[INGEST] No documents found in ./" ++ DATA_DIR
              ++ ". Add files and rerun.")
   | _ :: _ =>
       b <- Trace.lift (add_docs docs empty_batch) ;;
       _ <- print ("[INGEST] Embedding "
                   ++ str_of_int (Z.of_nat (length (texts b)))
                   ++ " chunks with " ++ EMBEDDING_MODEL ++ " ...") ;;
       embs <- Trace.event (Encode (texts b)) (encode embedder (texts b)) ;;
       _ <- print ("[INGEST] Upserting to Chroma (" ++ COLLECTION_NAME ++ ") ...") ;;
       _ <- Trace.event (Upsert (ids b) embs (metadatas b) (texts b))
                        (upsert (ids b) embs (metadatas b) (texts b)) ;;
       print ("[DONE] " ++ str_of_int (Z.of_nat (length docs)) ++ " files, "
              ++ str_of_int (Z.of_nat (length (texts b)))
              ++ " chunks indexed at " ++ DB_DIR ++ "/")
   end)%trace.

End Main.

Definition is_encode (e : event) : bool :=
  match e with Encode _ => true | _ => false end.

Definition is_upsert (e : event) : bool :=
  match e with Upsert _ _ _ _ => true | _ => false end.

End IngestMain.

(* ===================================================================== *)
(** ** More stubs *)
(* ===================================================================== *)

Module Fixture.
Import Rag.

(** A world whose embedding model cannot be loaded. *)
Definition no_embedder_world : World :=
  {| get_collection := Ok (Stub.collection true Stub.corpus3);
     get_embedder := Raise (Raised "OSError");
     numpy := Stub.numpy |}.

(** A numpy whose [argsort] leaves equal elements in descending index
    order and that multiplies and subtracts scalars in float32, the Python
    float converted first. *)
Definition numpy_ties_down : Np.Numpy :=
  {| Np.argsort := Np.argsort_ties_down;
     Np.dot := Np.dot32;
     Np.scalar_mul := fun x s => Fl.round32 (Fl.round32 x * s);
     Np.scalar_sub := fun x s => Fl.round32 (Fl.round32 x - s) |}.

(** Four hits at the same distance. *)
Definition tied4 : list Hit :=
  [Stub.hit "a" 0 (1 # 2); Stub.hit "b" 1 (1 # 2);
   Stub.hit "c" 2 (1 # 2); Stub.hit "d" 3 (1 # 2)].

(** Two hits at one distance, then two at another. *)
Definition two_ties : list Hit :=
  [Stub.hit "a" 0 (1 # 4); Stub.hit "b" 1 (1 # 4);
   Stub.hit "c" 2 (1 # 2); Stub.hit "d" 3 (1 # 2)].

(** Three hits; the distances of the first two differ by less than
    rounding keeps apart. *)
Definition near_tie : list Hit :=
  [Stub.hit "a" 0 0; Stub.hit "b" 1 (1 # 2 ^ 60); Stub.hit "c" 2 1].

(** Three hits; the distances of the last two are both rounded away when
    subtracted from 1. *)
Definition near_one : list Hit :=
  [Stub.hit "a" 0 0; Stub.hit "b" 1 (1 # 2 ^ 60); Stub.hit "c" 2 (1 # 2 ^ 70)].

(** Three hits, the second a near copy of the first, the third unlike both. *)
Definition spread : list Hit :=
  [Stub.hit "alpha" 0 (1 # 10); Stub.hit "alpha again" 1 (2 # 10);
   Stub.hit "gamma" 2 (3 # 10)].

Definition spread_rows : list Vec := [[1; 0]; [1; 0]; [0; 1]].

(** The score [Stub.ce_length] gives a pair. *)
Definition length_score (p : string * string) : Q :=
  inject_Z (Z.of_nat (String.length (snd p))).

(** A chat model that answers with a fixed text. *)
Definition chat_fixed (model : string) (messages : list RagMain.Message)
           (temperature : Q) : result string :=
  Ok " The answer [1]. "%string.

(** A chat model that is out of reach. *)
Definition chat_down (model : string) (messages : list RagMain.Message)
           (temperature : Q) : result string :=
  Raise (Raised "APIConnectionError").

Definition strip_id (s : string) : string := s.

(** Two documents, and identifiers numbered by draw. *)
Definition two_docs : list (string * string) :=
  [("data/a.txt", "abcdefg"); ("data/b.md", "xyz")]%string.

Definition uuid_numbered (n : nat) : string :=
  ("id-" ++ PyText.str_of_int (Z.of_nat n))%string.

(** A cross-encoder that returns a single score, whatever it is given. *)
Definition ce_one_score (model_name : string) (pairs : list (string * string))
  : result (list Q) :=
  Ok [1].

(** An answer of the index with three documents but two distances. *)
Definition ragged_answer : QueryResult :=
  {| documents := [["alpha"; "beta"; "gamma"]%string];
     metadatas := [map meta Stub.corpus3];
     distances := Some [[1 # 10; 2 # 10]] |}.

Definition upsert_ok (ids : list string) (embeddings : list Vec)
           (metadatas : list Meta) (documents : list string) : result unit :=
  Ok tt.

End Fixture.

(* ===================================================================== *)
(** * Part II: properties *)
(* ===================================================================== *)

(** ** Facts about the built-ins *)

Module PyFacts.
Import Py.

Lemma rbind_ok {A B : Type} (r : result A) (f : A -> result B) (b : B) :
  rbind r f = Ok b -> exists a, r = Ok a /\ f a = Ok b.
Proof.
  destruct r as [a | e |]; simpl; intros H; try discriminate.
  exists a; split; [reflexivity | exact H].
Qed.

Lemma item_at_lt {A : Type} (l : list A) (i : nat) :
  (i < length l)%nat -> exists a, item_at l i = Ok a /\ nth_error l i = Some a.
Proof.
  intros Hi. unfold item_at.
  destruct (nth_error l i) as [a |] eqn:E.
  - exists a; split; reflexivity.
  - apply nth_error_None in E. lia.
Qed.

(** *** Slices *)

Lemma clamp_index_range (len i : Z) :
  (0 <= len -> 0 <= i -> clamp_index len i = Z.min i len)%Z.
Proof.
  intros _ Hi. unfold clamp_index.
  destruct (Z.ltb_spec i 0); [lia | reflexivity].
Qed.

Lemma slice_all {A : Type} (l : list A) :
  slice l 0 (Z.of_nat (length l)) = l.
Proof.
  unfold slice. rewrite !clamp_index_range by lia.
  rewrite Z.min_id, (Z.min_l 0) by lia.
  rewrite Z.sub_0_r, Nat2Z.id. simpl. apply firstn_all.
Qed.

Lemma take_nonneg {A : Type} (k : Z) (l : list A) :
  (0 <= k)%Z -> take k l = firstn (Z.to_nat k) l.
Proof.
  intros Hk. unfold take. rewrite clamp_index_range by lia.
  destruct (Z.le_ge_cases k (Z.of_nat (length l))).
  - rewrite Z.min_l by lia. reflexivity.
  - rewrite Z.min_r by lia. rewrite Nat2Z.id.
    rewrite firstn_all. symmetry. apply firstn_all2. lia.
Qed.

(** *** The stable sort *)

Section SortFacts.
Variable A : Type.
Variable leb : A -> A -> bool.
Hypothesis leb_total : forall a b, leb a b = true \/ leb b a = true.
Hypothesis leb_trans : forall a b c, leb a b = true -> leb b c = true -> leb a c = true.

Lemma insert_perm (x : A) (l : list A) : Permutation (insert leb x l) (x :: l).
Proof.
  induction l as [| y l IH]; simpl.
  - apply Permutation_refl.
  - destruct (leb x y).
    + apply Permutation_refl.
    + apply perm_trans with (y :: x :: l).
      * apply perm_skip. exact IH.
      * apply perm_swap.
Qed.

Lemma sort_by_perm (l : list A) : Permutation (sort_by leb l) l.
Proof.
  induction l as [| x l IH]; simpl.
  - apply perm_nil.
  - apply perm_trans with (x :: sort_by leb l).
    + apply insert_perm.
    + apply perm_skip. exact IH.
Qed.

Lemma insert_stable (T : A -> A -> Prop) (x : A) (l : list A) :
  StronglySorted (stable_rel leb T) l ->
  Forall (T x) l ->
  StronglySorted (stable_rel leb T) (insert leb x l).
Proof.
  induction 1 as [| y l Hs IH Hy]; intros HT; simpl.
  - constructor; constructor.
  - inversion HT as [| ? ? Txy HTl]; subst.
    destruct (leb x y) eqn:E.
    + constructor.
      * constructor; assumption.
      * constructor.
        -- split; [exact E | intros _; exact Txy].
        -- rewrite Forall_forall in Hy, HTl |- *.
           intros z Hz. split.
           ++ apply leb_trans with y; [exact E | apply (Hy z Hz)].
           ++ intros _. apply HTl. exact Hz.
    + constructor.
      * apply IH. exact HTl.
      * assert (Hyx : stable_rel leb T y x).
        { split.
          - destruct (leb_total x y) as [H | H]; [congruence | exact H].
          - intros H. congruence. }
        rewrite Forall_forall in Hy |- *.
        intros z Hz.
        apply (Permutation_in _ (insert_perm x l)) in Hz.
        destruct Hz as [<- | Hz]; [exact Hyx | apply Hy; exact Hz].
Qed.

Lemma sort_by_stable (T : A -> A -> Prop) (l : list A) :
  StronglySorted T l -> StronglySorted (stable_rel leb T) (sort_by leb l).
Proof.
  induction 1 as [| x l Hs IH Hx]; simpl.
  - constructor.
  - apply insert_stable.
    + exact IH.
    + rewrite Forall_forall in Hx |- *. intros z Hz.
      apply Hx. apply (Permutation_in _ (sort_by_perm l)). exact Hz.
Qed.

Lemma sort_by_sorted (l : list A) :
  StronglySorted (fun a b => leb a b = true) (sort_by leb l).
Proof.
  induction l as [| x l IH]; simpl.
  - constructor.
  - clear - IH leb_total leb_trans.
    induction IH as [| y s Hs IHs Hy]; simpl.
    + constructor; constructor.
    + destruct (leb x y) eqn:E.
      * constructor; [constructor; assumption |].
        constructor; [exact E |].
        rewrite Forall_forall in Hy |- *. intros z Hz.
        apply leb_trans with y; [exact E | apply Hy; exact Hz].
      * constructor; [exact IHs |].
        rewrite Forall_forall in Hy |- *. intros z Hz.
        apply (Permutation_in _ (insert_perm x s)) in Hz.
        destruct Hz as [<- | Hz]; [| apply Hy; exact Hz].
        destruct (leb_total x y) as [H | H]; [congruence | exact H].
Qed.

(** Stability, as a statement on sublists: if the elements selected by [p]
    all tie with each other, the sort leaves their sublist unchanged. *)
Lemma insert_filter (p : A -> bool) (a : A) (l : list A) :
  (forall x y, p x = true -> p y = true -> leb x y = true) ->
  filter p (insert leb a l) = filter p (a :: l).
Proof.
  intros Hp.
  induction l as [| y l IH]; [reflexivity |].
  simpl insert. destruct (leb a y) eqn:E; [reflexivity |].
  change (filter p (y :: insert leb a l))
    with (if p y then y :: filter p (insert leb a l)
          else filter p (insert leb a l)).
  rewrite IH. simpl.
  destruct (p y) eqn:Ey; destruct (p a) eqn:Ea; try reflexivity.
  rewrite (Hp a y Ea Ey) in E. discriminate.
Qed.

Lemma sort_by_filter (p : A -> bool) (l : list A) :
  (forall x y, p x = true -> p y = true -> leb x y = true) ->
  filter p (sort_by leb l) = filter p l.
Proof.
  intros Hp.
  induction l as [| a l IH]; [reflexivity |].
  simpl sort_by. rewrite insert_filter by exact Hp. simpl. rewrite IH. reflexivity.
Qed.

End SortFacts.

Lemma StronglySorted_map_in {A B : Type} (R : A -> A -> Prop) (R' : B -> B -> Prop)
      (f : A -> B) (l : list A) :
  (forall x y, In x l -> In y l -> R x y -> R' (f x) (f y)) ->
  StronglySorted R l -> StronglySorted R' (map f l).
Proof.
  intros Hf Hs. induction Hs as [| x l Hs IH Hx]; simpl.
  - constructor.
  - constructor.
    + apply IH. intros a b Ha Hb. apply Hf; right; assumption.
    + rewrite Forall_forall in Hx |- *. intros b Hb.
      apply in_map_iff in Hb. destruct Hb as [y [<- Hy]].
      apply Hf; [left; reflexivity | right; exact Hy | apply Hx; exact Hy].
Qed.

Lemma StronglySorted_app {A : Type} (R : A -> A -> Prop) (l1 l2 : list A) :
  StronglySorted R l1 -> StronglySorted R l2 ->
  (forall x y, In x l1 -> In y l2 -> R x y) ->
  StronglySorted R (l1 ++ l2).
Proof.
  intros H1 H2 H12. induction H1 as [| x l1 H1 IH Hx]; simpl.
  - exact H2.
  - constructor.
    + apply IH. intros a b Ha Hb. apply H12; [right; exact Ha | exact Hb].
    + rewrite Forall_forall in Hx |- *. intros b Hb.
      apply in_app_or in Hb. destruct Hb as [Hb | Hb].
      * apply Hx; exact Hb.
      * apply H12; [left; reflexivity | exact Hb].
Qed.

(** [a[::-1]] of a sorted sequence is sorted the other way round. *)
Lemma StronglySorted_rev {A : Type} (R : A -> A -> Prop) (l : list A) :
  StronglySorted R l -> StronglySorted (fun a b => R b a) (rev l).
Proof.
  induction 1 as [| x l Hs IH Hx]; simpl.
  - constructor.
  - apply StronglySorted_app.
    + exact IH.
    + constructor; constructor.
    + intros a b Ha [<- | []]. rewrite Forall_forall in Hx.
      apply Hx. apply in_rev. exact Ha.
Qed.

(** *** Sorting on a rational key *)

Lemma Qleb_total {A : Type} (key : A -> Q) (a b : A) :
  Qle_bool (key a) (key b) = true \/ Qle_bool (key b) (key a) = true.
Proof.
  rewrite !Qle_bool_iff.
  destruct (Qlt_le_dec (key b) (key a)) as [H | H].
  - right. apply Qlt_le_weak. exact H.
  - left. exact H.
Qed.

Lemma Qleb_trans {A : Type} (key : A -> Q) (a b c : A) :
  Qle_bool (key a) (key b) = true -> Qle_bool (key b) (key c) = true ->
  Qle_bool (key a) (key c) = true.
Proof.
  rewrite !Qle_bool_iff. apply Qle_trans.
Qed.

Lemma Qlt_bool_iff (x y : Q) : Qlt_bool x y = true <-> x < y.
Proof.
  unfold Qlt_bool. rewrite negb_true_iff.
  split; intros H.
  - apply Qnot_le_lt. intros Hle. apply Qle_bool_iff in Hle. congruence.
  - destruct (Qle_bool y x) eqn:E; [| reflexivity].
    apply Qle_bool_iff in E. exfalso. exact (Qlt_not_le _ _ H E).
Qed.

Lemma Qlt_bool_false (x y : Q) : Qlt_bool x y = false <-> y <= x.
Proof.
  unfold Qlt_bool. rewrite negb_false_iff. apply Qle_bool_iff.
Qed.

Lemma sorted_perm {A : Type} (key : A -> Q) (l : list A) :
  Permutation (sorted key l) l.
Proof. apply sort_by_perm. Qed.

Lemma StronglySorted_impl {A : Type} (R R' : A -> A -> Prop) (l : list A) :
  (forall x y, In x l -> In y l -> R x y -> R' x y) ->
  StronglySorted R l -> StronglySorted R' l.
Proof.
  intros HR Hs. rewrite <- (map_id l) at 1.
  apply StronglySorted_map_in with (R := R); assumption.
Qed.

Lemma sorted_ascending {A : Type} (key : A -> Q) (l : list A) :
  StronglySorted (fun a b => key a <= key b) (sorted key l).
Proof.
  apply StronglySorted_impl
    with (R := fun a b => Qle_bool (key a) (key b) = true).
  - intros x y _ _ H. apply Qle_bool_iff. exact H.
  - apply sort_by_sorted.
    + intros a b. apply (Qleb_total key).
    + intros a b c. apply (Qleb_trans key).
Qed.

Lemma sorted_reverse_perm {A : Type} (key : A -> Q) (l : list A) :
  Permutation (sorted_reverse key l) l.
Proof. apply sort_by_perm. Qed.

Lemma sorted_reverse_descending {A : Type} (key : A -> Q) (l : list A) :
  StronglySorted (fun a b => key b <= key a) (sorted_reverse key l).
Proof.
  apply StronglySorted_impl
    with (R := fun a b => Qle_bool (key b) (key a) = true).
  - intros x y _ _ H. apply Qle_bool_iff. exact H.
  - apply sort_by_sorted.
    + intros a b. apply (Qleb_total key b a).
    + intros a b c H1 H2. apply (Qleb_trans key c b a); assumption.
Qed.

(** Hits of one score keep their order, whichever way the sort runs. *)
Lemma sorted_stable {A : Type} (key : A -> Q) (s : Q) (l : list A) :
  filter (fun a => Qeq_bool (key a) s) (sorted key l)
  = filter (fun a => Qeq_bool (key a) s) l.
Proof.
  apply sort_by_filter.
  intros x y Hx Hy. apply Qeq_bool_iff in Hx, Hy.
  apply Qle_bool_iff. rewrite Hx, Hy. apply Qle_refl.
Qed.

Lemma sorted_reverse_stable {A : Type} (key : A -> Q) (s : Q) (l : list A) :
  filter (fun a => Qeq_bool (key a) s) (sorted_reverse key l)
  = filter (fun a => Qeq_bool (key a) s) l.
Proof.
  apply sort_by_filter.
  intros x y Hx Hy. apply Qeq_bool_iff in Hx, Hy.
  apply Qle_bool_iff. rewrite Hx, Hy. apply Qle_refl.
Qed.

(** *** Lists paired with their indices *)

Lemma map_snd_combine_seq (a : list Q) (start : nat) :
  map snd (combine a (seq start (length a))) = seq start (length a).
Proof.
  revert start. induction a as [| x a IH]; intros start; simpl.
  - reflexivity.
  - rewrite IH. reflexivity.
Qed.

Lemma in_combine_seq (a : list Q) (start : nat) (x : Q) (i : nat) :
  In (x, i) (combine a (seq start (length a))) ->
  (start <= i)%nat /\ nth_error a (i - start) = Some x.
Proof.
  revert start. induction a as [| y a IH]; intros start; simpl.
  - intros [].
  - intros [H | H].
    + inversion H; subst. rewrite Nat.sub_diag. split; [lia | reflexivity].
    + apply IH in H. destruct H as [Hle Hn]. split; [lia |].
      replace (i - start)%nat with (S (i - S start)) by lia. exact Hn.
Qed.

Lemma combine_seq_increasing (a : list Q) (start : nat) :
  StronglySorted (fun p q : Q * nat => (snd p < snd q)%nat)
                 (combine a (seq start (length a))).
Proof.
  revert start. induction a as [| y a IH]; intros start; simpl.
  - constructor.
  - constructor; [apply IH |].
    rewrite Forall_forall. intros [x i] Hin.
    apply in_combine_seq in Hin. simpl. lia.
Qed.


(** *** [min] and [max] pick the first extremal element *)

Section ExtremumFacts.
Variable A : Type.
Variable better : Q -> Q -> bool.
Variable key : A -> result Q.
Variable f : A -> Q.
Hypothesis better_trans :
  forall a b c, better a b = true -> better b c = true -> better a c = true.
Hypothesis better_neg :
  forall b c x, better b c = true -> better x c = false -> better b x = true.

Lemma scan_first (l : list A) :
  forall best,
    Forall (fun x => key x = Ok (f x)) l ->
    exists b,
      scan better key best (f best) l = Ok b /\
      ((b = best /\ Forall (fun x => better (f x) (f best) = false) l) \/
       (exists l1 l2,
           l = l1 ++ b :: l2 /\ better (f b) (f best) = true /\
           Forall (fun x => better (f b) (f x) = true) l1 /\
           Forall (fun x => better (f x) (f b) = false) l2)).
Proof.
  induction l as [| x l IH]; intros best Hkey.
  - exists best. split; [reflexivity |]. left. split; [reflexivity | constructor].
  - inversion Hkey as [| ? ? Hx Hl]; subst. simpl. rewrite Hx. simpl.
    destruct (better (f x) (f best)) eqn:E.
    + destruct (IH x Hl) as [b [Hb [[Eb Hall] | [l1 [l2 [El [Hbx [H1 H2]]]]]]]];
        exists b; (split; [exact Hb |]); right.
      * subst b. exists [], l. repeat split; try assumption. constructor.
      * subst l. exists (x :: l1), l2. repeat split; try assumption.
        -- apply better_trans with (f x); assumption.
        -- constructor; assumption.
    + destruct (IH best Hl) as [b [Hb [[Eb Hall] | [l1 [l2 [El [Hbx [H1 H2]]]]]]]];
        exists b; (split; [exact Hb |]).
      * subst b. left. split; [reflexivity |]. constructor; assumption.
      * subst l. right. exists (x :: l1), l2. repeat split; try assumption.
        constructor; [| assumption].
        apply better_neg with (f best); assumption.
Qed.

Lemma extremum_first (l : list A) :
  l <> [] ->
  Forall (fun x => key x = Ok (f x)) l ->
  exists b l1 l2,
    extremum better key l = Ok b /\ l = l1 ++ b :: l2 /\
    Forall (fun x => better (f b) (f x) = true) l1 /\
    Forall (fun x => better (f x) (f b) = false) l2.
Proof.
  destruct l as [| x l]; [congruence |]. intros _ Hkey.
  inversion Hkey as [| ? ? Hx Hl]; subst. simpl. rewrite Hx. simpl.
  destruct (scan_first x Hl) as [b [Hb [[Eb Hall] | [l1 [l2 [El [Hbx [H1 H2]]]]]]]].
  - subst b. exists x, [], l. repeat split; try assumption. constructor.
  - subst l. exists b, (x :: l1), l2. repeat split; try assumption.
    constructor; assumption.
Qed.

End ExtremumFacts.

(** *** What cannot run out of fuel *)

Lemma rbind_ends {A B : Type} (r : result A) (f : A -> result B) :
  r <> OutOfFuel -> (forall a, f a <> OutOfFuel) -> rbind r f <> OutOfFuel.
Proof.
  intros Hr Hf. destruct r as [a | e |]; simpl;
    [apply Hf | discriminate | congruence].
Qed.

Lemma item_at_ends {A : Type} (l : list A) (i : nat) : item_at l i <> OutOfFuel.
Proof.
  unfold item_at. destruct (nth_error l i); discriminate.
Qed.

Lemma mapM_ends {A B : Type} (f : A -> result B) (l : list A) :
  (forall x, f x <> OutOfFuel) -> mapM f l <> OutOfFuel.
Proof.
  intros Hf. induction l as [| x l IH]; simpl; [discriminate |].
  apply rbind_ends; [apply Hf |]. intros y.
  apply rbind_ends; [exact IH | discriminate].
Qed.

Lemma scan_ends {A : Type} (better : Q -> Q -> bool) (key : A -> result Q)
      (l : list A) :
  (forall x, key x <> OutOfFuel) ->
  forall best kbest, scan better key best kbest l <> OutOfFuel.
Proof.
  intros Hkey. induction l as [| x l IH]; intros best kbest; simpl;
    [discriminate |].
  apply rbind_ends; [apply Hkey |]. intros kx.
  destruct (better kx kbest); apply IH.
Qed.

Lemma extremum_ends {A : Type} (better : Q -> Q -> bool) (key : A -> result Q)
      (l : list A) :
  (forall x, key x <> OutOfFuel) -> extremum better key l <> OutOfFuel.
Proof.
  intros Hkey. destruct l as [| x l]; simpl; [discriminate |].
  apply rbind_ends; [apply Hkey |]. intros kx. apply scan_ends. exact Hkey.
Qed.

(** What [min] and [max] return is an element of the iterable. *)
Lemma scan_in {A : Type} (better : Q -> Q -> bool) (key : A -> result Q)
      (l : list A) :
  forall best kbest b,
    scan better key best kbest l = Ok b -> b = best \/ In b l.
Proof.
  induction l as [| x l IH]; intros best kbest b Hrun; simpl in Hrun.
  - inversion Hrun. left. reflexivity.
  - apply rbind_ok in Hrun. destruct Hrun as [kx [_ Hrun]].
    destruct (better kx kbest); apply IH in Hrun;
      destruct Hrun as [-> | Hin]; auto using in_eq, in_cons.
Qed.

Lemma extremum_in {A : Type} (better : Q -> Q -> bool) (key : A -> result Q)
      (l : list A) (b : A) :
  extremum better key l = Ok b -> In b l.
Proof.
  destruct l as [| x l]; simpl; intros Hrun; [discriminate |].
  apply rbind_ok in Hrun. destruct Hrun as [kx [_ Hrun]].
  apply scan_in in Hrun. destruct Hrun as [-> | Hin]; [left | right]; auto.
Qed.

Lemma min_key_first {A : Type} (key : A -> result Q) (f : A -> Q) (l : list A) :
  l <> [] ->
  Forall (fun x => key x = Ok (f x)) l ->
  exists b l1 l2,
    min_key key l = Ok b /\ l = l1 ++ b :: l2 /\
    Forall (fun x => f b < f x) l1 /\ Forall (fun x => f b <= f x) l2.
Proof.
  intros Hne Hkey. unfold min_key.
  destruct (@extremum_first A (fun new best => Qlt_bool new best) key f) with (l := l)
    as [b [l1 [l2 [Hb [Hl [H1 H2]]]]]]; try assumption.
  - intros a b c. rewrite !Qlt_bool_iff. apply Qlt_trans.
  - intros b c x. rewrite !Qlt_bool_iff, Qlt_bool_false. apply Qlt_le_trans.
  - exists b, l1, l2. repeat split; try assumption.
    + eapply Forall_impl; [| exact H1]. intros x Hx. apply Qlt_bool_iff. exact Hx.
    + eapply Forall_impl; [| exact H2]. intros x Hx. apply Qlt_bool_false. exact Hx.
Qed.

Lemma max_key_first {A : Type} (key : A -> result Q) (f : A -> Q) (l : list A) :
  l <> [] ->
  Forall (fun x => key x = Ok (f x)) l ->
  exists b l1 l2,
    max_key key l = Ok b /\ l = l1 ++ b :: l2 /\
    Forall (fun x => f x < f b) l1 /\ Forall (fun x => f x <= f b) l2.
Proof.
  intros Hne Hkey. unfold max_key.
  destruct (@extremum_first A (fun new best => Qlt_bool best new) key f) with (l := l)
    as [b [l1 [l2 [Hb [Hl [H1 H2]]]]]]; try assumption.
  - intros a b c. rewrite !Qlt_bool_iff. intros H1 H2. apply Qlt_trans with b; assumption.
  - intros b c x. rewrite !Qlt_bool_iff, Qlt_bool_false.
    intros H1 H2. apply Qle_lt_trans with c; assumption.
  - exists b, l1, l2. repeat split; try assumption.
    + eapply Forall_impl; [| exact H1]. intros x Hx. apply Qlt_bool_iff. exact Hx.
    + eapply Forall_impl; [| exact H2]. intros x Hx. apply Qlt_bool_false. exact Hx.
Qed.

(** When the key never raises, [max] returns one of the elements. *)
Lemma max_key_in {A : Type} (key : A -> result Q) (l : list A) :
  l <> [] ->
  Forall (fun x => exists q, key x = Ok q) l ->
  exists b, max_key key l = Ok b /\ In b l.
Proof.
  intros Hne Hkey.
  destruct (@max_key_first A key
              (fun x => match key x with Ok q => q | _ => 0 end) l Hne)
    as [b [l1 [l2 [Hb [Hl _]]]]].
  - eapply Forall_impl; [| exact Hkey]. intros x [q Hq]. rewrite Hq. reflexivity.
  - exists b. split; [exact Hb |]. rewrite Hl. apply in_elt.
Qed.

Lemma max_of_ok (l : list Q) : l <> [] -> exists q, max_of l = Ok q /\ In q l.
Proof.
  intros Hne. apply max_key_in; [exact Hne |].
  rewrite Forall_forall. intros x _. exists x. reflexivity.
Qed.

Lemma max_of_upper (l : list Q) (q : Q) :
  max_of l = Ok q -> Forall (fun x => x <= q) l.
Proof.
  intros Hq.
  destruct l as [| y l]; [discriminate |].
  destruct (@max_key_first Q (fun x => Ok x) (fun x => x) (y :: l))
    as [b [l1 [l2 [Hb [Hl [H1 H2]]]]]]; [discriminate | |].
  - rewrite Forall_forall. intros; reflexivity.
  - unfold max_of in Hq. rewrite Hb in Hq. inversion Hq; subst b.
    rewrite Hl. apply Forall_app. split.
    + eapply Forall_impl; [| exact H1]. intros x. apply Qlt_le_weak.
    + constructor; [apply Qle_refl | exact H2].
Qed.

End PyFacts.

(** ** Facts about floating-point rounding *)

Module FlFacts.
Import Fl.

(** Rounding depends on the number, not on the fraction that denotes it. *)
Lemma round_to_compat (prec emin : Z) (x y : Q) :
  x == y -> round_to prec emin x = round_to prec emin y.
Proof.
  intros H. unfold round_to. rewrite (Qred_complete x y H). reflexivity.
Qed.

Lemma round64_compat (x y : Q) : x == y -> round64 x = round64 y.
Proof. apply round_to_compat. Qed.

Lemma round64_0 : round64 0 = 0.
Proof. vm_compute. reflexivity. Qed.

Lemma round64_1 : round64 1 = 1.
Proof. vm_compute. reflexivity. Qed.

(** [0 / y] is exactly [0]. *)
Lemma div_0_l (y : Q) : div 0 y = 0.
Proof.
  unfold div. rewrite (@round64_compat (0 / y) 0); [apply round64_0 |].
  unfold Qdiv. ring.
Qed.

(** [1 - 0] is exactly [1]. *)
Lemma sub_1_0 : sub 1 0 = 1.
Proof. vm_compute. reflexivity. Qed.

(** [1 - 1] is exactly [0]. *)
Lemma sub_1_1 : sub 1 1 = 0.
Proof. vm_compute. reflexivity. Qed.

(** [0 * y] is exactly [0]. *)
Lemma mul_0_l (y : Q) : mul 0 y = 0.
Proof.
  unfold mul. rewrite (@round64_compat (0 * y) 0); [apply round64_0 | ring].
Qed.

(** [1 * x] and [x + 0] are [x] when [x] is a float. *)
Lemma mul_1_l (x : Q) : is_float x -> mul 1 x == x.
Proof.
  intros Hx. unfold mul. rewrite (@round64_compat (1 * x) x); [exact Hx | ring].
Qed.

Lemma add_0_r (x y : Q) : is_float y -> x == y -> add x 0 == y.
Proof.
  intros Hy Hxy. unfold add.
  rewrite (@round64_compat (x + 0) y); [exact Hy |].
  rewrite Hxy. ring.
Qed.

End FlFacts.

(** ** Facts about the two argsorts *)

Module NpFacts.
Import Py PyFacts Np.

Lemma argsort_ties_up_perm (a : list Q) :
  Permutation (argsort_ties_up a) (seq 0 (length a)).
Proof.
  unfold argsort_ties_up. rewrite <- (map_snd_combine_seq a 0) at 2.
  apply Permutation_map. apply sorted_perm.
Qed.

Lemma nth_of_paired (a : list Q) (l : list (Q * nat)) :
  Permutation l (combine a (seq 0 (length a))) ->
  forall p, In p l -> nth (snd p) a 0 = fst p.
Proof.
  intros Hperm [z k] Hz.
  apply (Permutation_in _ Hperm) in Hz.
  apply in_combine_seq in Hz. destruct Hz as [_ Hz].
  rewrite Nat.sub_0_r in Hz. simpl. apply nth_error_nth. exact Hz.
Qed.

(** [argsort_ties_up] lists the indices by ascending key, and by ascending
    index among equal keys. *)
Lemma argsort_ties_up_sorted (a : list Q) :
  StronglySorted
    (fun i j => nth i a 0 <= nth j a 0 /\ (nth j a 0 <= nth i a 0 -> (i < j)%nat))
    (argsort_ties_up a).
Proof.
  unfold argsort_ties_up, sorted.
  apply StronglySorted_map_in
    with (R := stable_rel (fun p q : Q * nat => Qle_bool (fst p) (fst q))
                          (fun p q => (snd p < snd q)%nat)).
  - intros [x i] [y j] Hx Hy [Hle Htie]. simpl in *.
    pose proof (@nth_of_paired a _ (sort_by_perm _ _) _ Hx) as Ex.
    pose proof (@nth_of_paired a _ (sort_by_perm _ _) _ Hy) as Ey.
    simpl in Ex, Ey. rewrite Ex, Ey.
    rewrite <- !Qle_bool_iff. split; assumption.
  - apply sort_by_stable.
    + intros p q. apply (Qleb_total fst).
    + intros p q r. apply (Qleb_trans fst).
    + apply combine_seq_increasing.
Qed.

Lemma argsort_ties_up_sorts : sorts argsort_ties_up.
Proof.
  intros a. split; [apply argsort_ties_up_perm |].
  eapply StronglySorted_impl; [| apply argsort_ties_up_sorted].
  intros i j _ _ [H _]. exact H.
Qed.

Lemma argsort_ties_down_sorts : sorts argsort_ties_down.
Proof.
  intros a. unfold argsort_ties_down. split.
  - apply perm_trans
      with (map snd (sorted_reverse fst (combine a (seq 0 (length a))))).
    + apply Permutation_sym, Permutation_rev.
    + rewrite <- (map_snd_combine_seq a 0) at 2.
      apply Permutation_map. apply sorted_reverse_perm.
  - apply (@StronglySorted_rev nat (fun j i => nth i a 0 <= nth j a 0)).
    apply StronglySorted_map_in with (R := fun p q : Q * nat => fst q <= fst p).
    + intros p q Hp Hq Hle.
      rewrite (@nth_of_paired a _ (sorted_reverse_perm _ _) _ Hp).
      rewrite (@nth_of_paired a _ (sorted_reverse_perm _ _) _ Hq).
      exact Hle.
    + apply sorted_reverse_descending.
Qed.

End NpFacts.

(* ===================================================================== *)
(** ** The chunker *)
(* ===================================================================== *)

Module IngestFacts.
Import Py PyFacts Ingest.

Lemma ceil_div_covers (a b : Z) :
  (0 < b -> a <= ceil_div a b * b)%Z.
Proof.
  intros Hb. unfold ceil_div.
  pose proof (Z.div_mod (a + b - 1) b ltac:(lia)) as Hdm.
  pose proof (Z.mod_pos_bound (a + b - 1) b Hb) as Hmod.
  nia.
Qed.

Lemma ceil_div_pos (a b : Z) :
  (0 < b -> 0 < a -> 1 <= ceil_div a b)%Z.
Proof.
  intros Hb Ha. unfold ceil_div.
  apply Z.div_le_lower_bound; lia.
Qed.

Section ChunkerFacts.
Variable Tok : Type.
Variable encode : string -> list Tok.
Variable decode : list Tok -> string.

(** The loop on chunks and the loop on windows run in lockstep. *)
Lemma token_chunk_loop_windows (toks : list Tok) (max_tokens overlap : Z) :
  forall fuel start windows,
    token_chunk_loop decode fuel toks max_tokens overlap start
                     (map (chunk_of decode toks) windows)
    = rmap (map (chunk_of decode toks))
           (token_windows_loop fuel (Z.of_nat (length toks))
                               max_tokens overlap start windows).
Proof.
  induction fuel as [| fuel IH]; intros start windows; simpl.
  - destruct (start <? Z.of_nat (length toks))%Z; reflexivity.
  - destruct (start <? Z.of_nat (length toks))%Z; [| reflexivity].
    set (end_ := Z.min (start + max_tokens) (Z.of_nat (length toks))).
    replace (map (chunk_of decode toks) windows ++ [decode (slice toks start end_)])
      with (map (chunk_of decode toks) (windows ++ [(start, end_)]))
      by (rewrite map_app; reflexivity).
    destruct (end_ =? Z.of_nat (length toks))%Z; [reflexivity |].
    apply IH.
Qed.

Lemma token_chunk_windows (fuel : nat) (text : string) (max_tokens overlap : Z) :
  token_chunk encode decode fuel text max_tokens overlap
  = rmap (map (chunk_of decode (encode text)))
         (token_windows encode fuel text max_tokens overlap).
Proof.
  unfold token_chunk, token_windows.
  apply (token_chunk_loop_windows (encode text) max_tokens overlap fuel 0 []).
Qed.

(** The chunker never raises, whatever its configuration. *)
Lemma token_chunk_loop_no_raise (toks : list Tok) (max_tokens overlap : Z) :
  forall fuel start chunks e,
    token_chunk_loop decode fuel toks max_tokens overlap start chunks <> Raise e.
Proof.
  induction fuel as [| fuel IH]; intros start chunks e; simpl.
  - destruct (start <? Z.of_nat (length toks))%Z; discriminate.
  - destruct (start <? Z.of_nat (length toks))%Z; [| discriminate].
    destruct (Z.min (start + max_tokens) (Z.of_nat (length toks))
              =? Z.of_nat (length toks))%Z; [discriminate | apply IH].
Qed.

(** Enough fuel: from [start], [fuel] passes reach the end of the tokens. *)
Lemma token_windows_loop_terminates (len max_tokens overlap : Z) :
  (0 <= overlap < max_tokens)%Z ->
  forall fuel start windows,
    (0 <= start < len)%Z ->
    (1 <= fuel)%nat ->
    (len <= (Z.of_nat fuel - 1) * (max_tokens - overlap) + start + max_tokens)%Z ->
    exists front last_start,
      token_windows_loop fuel len max_tokens overlap start windows
      = Ok (windows ++ front ++ [(last_start, len)]) /\
      (length front < fuel)%nat /\
      Forall (fun w => (snd w < len)%Z) front.
Proof.
  intros Hcfg.
  induction fuel as [| fuel IH]; intros start windows Hstart Hone Hfuel.
  - lia.
  - simpl. destruct (Z.ltb_spec start len) as [_ | Hge]; [| lia].
    destruct (Z.eqb_spec (Z.min (start + max_tokens) len) len) as [Heq | Hne].
    + exists [], start. rewrite Heq. simpl. repeat split; [lia | constructor].
    + assert (Hlt : (start + max_tokens < len)%Z) by lia.
      rewrite Z.min_l by lia.
      rewrite Z.max_r by lia.
      destruct (IH (start + max_tokens - overlap)%Z
                   (windows ++ [(start, (start + max_tokens)%Z)]))
        as [front [last_start [Hrun [Hlen Hfront]]]].
      * lia.
      * nia.
      * nia.
      * exists ((start, (start + max_tokens)%Z) :: front), last_start.
        rewrite Hrun. rewrite <- app_assoc. simpl.
        repeat split; [lia |].
        constructor; [simpl; lia | exact Hfront].
Qed.

Lemma token_windows_loop_more_fuel (len max_tokens overlap : Z) :
  forall fuel fuel' start windows r,
    token_windows_loop fuel len max_tokens overlap start windows = Ok r ->
    (fuel <= fuel')%nat ->
    token_windows_loop fuel' len max_tokens overlap start windows = Ok r.
Proof.
  induction fuel as [| fuel IH]; intros fuel' start windows r Hrun Hle.
  - simpl in Hrun.
    destruct (start <? len)%Z eqn:E; [discriminate |].
    destruct fuel'; simpl; rewrite E; exact Hrun.
  - destruct fuel' as [| fuel']; [lia |].
    simpl in Hrun |- *.
    destruct (start <? len)%Z; [| exact Hrun].
    destruct (Z.min (start + max_tokens) len =? len)%Z; [exact Hrun |].
    apply IH; [exact Hrun | lia].
Qed.

(** With [overlap >= max_tokens] and more than [max_tokens] tokens, the next
    window starts at 0 again: the loop never leaves its first window. *)
Lemma token_chunk_loop_stuck (toks : list Tok) (max_tokens overlap : Z) :
  (max_tokens <= overlap)%Z ->
  (max_tokens < Z.of_nat (length toks))%Z ->
  toks <> [] ->
  forall fuel chunks,
    token_chunk_loop decode fuel toks max_tokens overlap 0 chunks = OutOfFuel.
Proof.
  intros Hcfg Hlong Hne.
  assert (Hpos : (0 < Z.of_nat (length toks))%Z).
  { destruct toks; [congruence | simpl; lia]. }
  induction fuel as [| fuel IH]; intros chunks; simpl.
  - destruct (Z.ltb_spec 0 (Z.of_nat (length toks))); [reflexivity | lia].
  - destruct (Z.ltb_spec 0 (Z.of_nat (length toks))); [| lia].
    rewrite Z.min_l by lia.
    destruct (Z.eqb_spec max_tokens (Z.of_nat (length toks))); [lia |].
    rewrite Z.max_l by lia. apply IH.
Qed.

(** C4, amended.  [token_chunk] makes no check of its configuration.  With
    [overlap >= max_tokens] it raises no error, whatever the text; and when
    the text has at most [max_tokens] tokens it returns as usual: no chunk
    for an empty token sequence, otherwise the one chunk holding all the
    tokens. *)
Theorem token_chunk_overlap_not_rejected (text : string) (max_tokens overlap : Z) :
  (max_tokens <= overlap)%Z ->
  (forall fuel e,
      token_chunk encode decode fuel text max_tokens overlap <> Raise e) /\
  ((Z.of_nat (length (encode text)) <= max_tokens)%Z ->
   forall fuel,
     token_chunk encode decode (S fuel) text max_tokens overlap
     = Ok (match encode text with
           | [] => []
           | _ :: _ => [decode (encode text)]
           end)).
Proof.
  intros _. split.
  - intros fuel e. apply token_chunk_loop_no_raise.
  - intros Hshort fuel. unfold token_chunk.
    destruct (encode text) as [| t toks] eqn:E; [reflexivity |].
    rewrite <- E in *. cbn [token_chunk_loop].
    assert (Hpos : (0 < Z.of_nat (length (encode text)))%Z)
      by (rewrite E; simpl; lia).
    destruct (Z.ltb_spec 0 (Z.of_nat (length (encode text)))); [| lia].
    rewrite Z.min_r by lia. rewrite Z.eqb_refl.
    rewrite slice_all. reflexivity.
Qed.

(** C5, amended.  For [0 <= overlap < max_tokens] the chunker terminates:
    [ceil(len / (max_tokens - overlap))] passes of the loop are enough, and
    it emits at most that many windows.  For a non-empty token sequence the
    last window, and only the last, ends at the length of the sequence; for
    an empty one no window is emitted at all. *)
Theorem token_chunk_terminates (text : string) (max_tokens overlap : Z) :
  (0 <= overlap < max_tokens)%Z ->
  let toks := encode text in
  let len := Z.of_nat (length toks) in
  let bound := Z.to_nat (ceil_div len (max_tokens - overlap)) in
  exists windows,
    (forall fuel,
        (bound <= fuel)%nat ->
        token_windows encode fuel text max_tokens overlap = Ok windows /\
        token_chunk encode decode fuel text max_tokens overlap
        = Ok (map (chunk_of decode toks) windows)) /\
    (length windows <= bound)%nat /\
    (toks = [] -> windows = []) /\
    (toks <> [] ->
     exists front last_start,
       windows = front ++ [(last_start, len)] /\
       Forall (fun w => (snd w < len)%Z) front) /\
    length (filter (ends_at len) windows)
    = match toks with [] => 0%nat | _ :: _ => 1%nat end.
Proof.
  intros Hcfg toks len bound.
  assert (Hstep : (0 < max_tokens - overlap)%Z) by lia.
  destruct toks as [| t toks'] eqn:E.
  - (* empty token sequence: the loop condition fails at once *)
    exists []. subst len bound. simpl.
    split; [| repeat split; try lia; try congruence].
    intros fuel _. rewrite token_chunk_windows.
    unfold token_windows. fold toks. rewrite E. simpl.
    destruct fuel; simpl; split; reflexivity.
  - assert (Hlen : (0 < len)%Z) by (subst len; simpl; lia).
    pose proof (ceil_div_covers len Hstep) as Hcov.
    pose proof (ceil_div_pos Hstep Hlen) as Hone.
    destruct (@token_windows_loop_terminates len max_tokens overlap Hcfg bound 0 [])
      as [front [last_start [Hrun [Hfront Hends]]]].
    + lia.
    + subst bound. lia.
    + subst bound. rewrite Z2Nat.id by lia. nia.
    + simpl in Hrun. exists (front ++ [(last_start, len)]).
      split; [| split; [| split; [| split]]].
      * intros fuel Hfuel.
        assert (Hw : token_windows encode fuel text max_tokens overlap
                     = Ok (front ++ [(last_start, len)])).
        { unfold token_windows. fold toks. rewrite E. fold len.
          apply token_windows_loop_more_fuel with (fuel := bound); assumption. }
        split; [exact Hw |].
        rewrite token_chunk_windows, Hw. fold toks. rewrite E. reflexivity.
      * rewrite length_app. simpl. lia.
      * discriminate.
      * intros _. exists front, last_start. split; [reflexivity | exact Hends].
      * rewrite filter_app. cbn [filter].
        replace (ends_at len (last_start, len)) with true
          by (unfold ends_at; cbn [snd]; symmetry; apply Z.eqb_refl).
        replace (filter (ends_at len) front) with (@nil (Z * Z)); [reflexivity |].
        symmetry. clear - Hends.
        induction Hends as [| w front Hw _ IH]; [reflexivity |].
        simpl. unfold ends_at at 1.
        destruct (Z.eqb_spec (snd w) len); [lia | exact IH].
Qed.

End ChunkerFacts.

(** C4: a configuration with [overlap >= max_tokens] that the chunker accepts. *)
Lemma token_chunk_overlap_counterexample :
  (2 >= 2)%Z /\
  token_chunk Stub.char_encode Stub.char_decode 1 "ab" 2 2 = Ok ["ab"%string] /\
  forall fuel e,
    token_chunk Stub.char_encode Stub.char_decode fuel "ab" 2 2 <> Raise e.
Proof.
  split; [lia |]. split; [reflexivity |].
  intros fuel e. apply token_chunk_loop_no_raise.
Qed.

Lemma token_chunk_overlap_not_rejected_witness :
  (2 <= 2)%Z /\
  ((forall fuel e,
       token_chunk Stub.char_encode Stub.char_decode fuel "ab" 2 2 <> Raise e) /\
   ((Z.of_nat (length (Stub.char_encode "ab")) <= 2)%Z ->
    forall fuel,
      token_chunk Stub.char_encode Stub.char_decode (S fuel) "ab" 2 2
      = Ok (match Stub.char_encode "ab" with
            | [] => []
            | _ :: _ => [Stub.char_decode (Stub.char_encode "ab")]
            end))).
Proof.
  split; [lia |].
  apply (@token_chunk_overlap_not_rejected
           Ascii.ascii Stub.char_encode Stub.char_decode "ab" 2 2).
  lia.
Defined.

(** C5: the empty text, chunked with the default configuration, has no
    window at all, so none that ends at the length of the token sequence. *)
Lemma token_chunk_empty_text_counterexample :
  (0 <= CHUNK_OVERLAP < CHUNK_TOKENS)%Z /\
  Z.of_nat (length (Stub.char_encode "")) = 0%Z /\
  forall fuel,
    token_chunk Stub.char_encode Stub.char_decode fuel "" CHUNK_TOKENS CHUNK_OVERLAP
    = Ok [] /\
    token_windows Stub.char_encode fuel "" CHUNK_TOKENS CHUNK_OVERLAP = Ok [] /\
    length (filter (ends_at 0) (@nil (Z * Z))) <> 1%nat.
Proof.
  split; [unfold CHUNK_OVERLAP, CHUNK_TOKENS; lia |].
  split; [reflexivity |].
  intros fuel. destruct fuel; repeat split; simpl; discriminate.
Qed.

Lemma token_chunk_terminates_witness :
  (0 <= 1 < 3)%Z /\
  exists windows,
    (forall fuel,
        (Z.to_nat (ceil_div (Z.of_nat (length (Stub.char_encode "abcde"))) (3 - 1))
         <= fuel)%nat ->
        token_windows Stub.char_encode fuel "abcde" 3 1 = Ok windows /\
        token_chunk Stub.char_encode Stub.char_decode fuel "abcde" 3 1
        = Ok (map (chunk_of Stub.char_decode (Stub.char_encode "abcde")) windows)) /\
    (length windows
     <= Z.to_nat (ceil_div (Z.of_nat (length (Stub.char_encode "abcde"))) (3 - 1)))%nat /\
    (Stub.char_encode "abcde" = [] -> windows = []) /\
    (Stub.char_encode "abcde" <> [] ->
     exists front last_start,
       windows = front ++ [(last_start, Z.of_nat (length (Stub.char_encode "abcde")))] /\
       Forall (fun w => (snd w < Z.of_nat (length (Stub.char_encode "abcde")))%Z) front) /\
    length (filter (ends_at (Z.of_nat (length (Stub.char_encode "abcde")))) windows)
    = match Stub.char_encode "abcde" with [] => 0%nat | _ :: _ => 1%nat end.
Proof.
  split; [lia |].
  apply (@token_chunk_terminates
           Ascii.ascii Stub.char_encode Stub.char_decode "abcde" 3 1).
  lia.
Defined.

End IngestFacts.

(* ===================================================================== *)
(** ** Candidate fetch and plain ranking *)
(* ===================================================================== *)

Module RetrieveFacts.
Import Py PyFacts Rag.

Lemma candidate_count_nonneg (k : Z) (mmr : bool) :
  (0 <= k)%Z -> candidate_count k mmr = if mmr then (k * 3)%Z else k.
Proof.
  intros Hk. unfold candidate_count. destruct mmr; lia.
Qed.

Lemma candidate_count_nonpos (k : Z) (mmr : bool) :
  (k <= 0)%Z -> candidate_count k mmr = k.
Proof.
  intros Hk. unfold candidate_count. destruct mmr; lia.
Qed.

Lemma candidate_count_ge (k : Z) (mmr : bool) : (k <= candidate_count k mmr)%Z.
Proof.
  unfold candidate_count. lia.
Qed.

(** [retrieve] up to the index query, when the query raises [e]. *)
Lemma retrieve_query_raises (W : World) (query : string) (k : Z) (mmr : bool)
      (col : Collection) (embedder : Embedder) (q_emb : Vec) (rest : list Vec)
      (e : exn) :
  get_collection W = Ok col ->
  get_embedder W = Ok embedder ->
  encode embedder [query] = Ok (q_emb :: rest) ->
  col_query col [q_emb] (candidate_count k mmr) = Raise e ->
  run (retrieve W query k mmr)
  = (stage0_calls query q_emb (candidate_count k mmr), Raise e).
Proof.
  intros Hc He Hq Hr.
  unfold run, retrieve, bind, perform, lift.
  rewrite Hc, He, Hq. simpl. rewrite Hr. reflexivity.
Qed.

(** [retrieve] without MMR, when Stage 0 is answered. *)
Lemma retrieve_plain (W : World) (query : string) (k : Z)
      (embedder : Embedder) (q_emb : Vec) (res : QueryResult) (items : list Hit) :
  stage0 W query k false embedder q_emb res ->
  items_of res = Ok items ->
  run (retrieve W query k false)
  = (stage0_calls query q_emb (candidate_count k false),
     Ok (take k (sorted dist items))).
Proof.
  intros [col [rest [Hc [He [Hq Hr]]]]] Hi.
  unfold run, retrieve, bind, perform, lift, ret.
  rewrite Hc, He, Hq. simpl. rewrite Hr, Hi. reflexivity.
Qed.

(** [retrieve] with MMR, when Stage 0 is answered and the candidate texts
    are embedded. *)
Lemma retrieve_mmr (W : World) (query : string) (k : Z)
      (embedder : Embedder) (q_emb : Vec) (res : QueryResult) (items : list Hit)
      (emb_chunks : list Vec) :
  stage0 W query k true embedder q_emb res ->
  items_of res = Ok items ->
  encode embedder (map doc items) = Ok emb_chunks ->
  run (retrieve W query k true)
  = (stage0_calls query q_emb (candidate_count k true)
       ++ [CallEncode (map doc items)],
     rbind (mmr_select (numpy W) items emb_chunks k) (fun selected => mapM (item_at items) selected)).
Proof.
  intros [col [rest [Hc [He [Hq Hr]]]]] Hi Hemb.
  unfold run, retrieve, bind, perform, lift, ret.
  rewrite Hc, He, Hq. simpl. rewrite Hr, Hi, Hemb. simpl.
  destruct (mmr_select (numpy W) items emb_chunks k) as [selected | e |]; reflexivity.
Qed.

(** C3, amended.  [retrieve] makes no check of [k].  For [k <= 0] it opens
    the collection, loads the embedder and embeds the query as for any other
    [k], and then asks the index for [n_results = k]; an error at that point
    is the one the index raises, after these four calls. *)
Theorem retrieve_nonpositive_k_not_rejected
        (W : World) (query : string) (k : Z) (mmr : bool)
        (col : Collection) (embedder : Embedder) (q_emb : Vec) (rest : list Vec) :
  (k <= 0)%Z ->
  get_collection W = Ok col ->
  get_embedder W = Ok embedder ->
  encode embedder [query] = Ok (q_emb :: rest) ->
  (exists calls,
      fst (run (retrieve W query k mmr)) = stage0_calls query q_emb k ++ calls) /\
  (forall e,
      col_query col [q_emb] k = Raise e ->
      run (retrieve W query k mmr) = (stage0_calls query q_emb k, Raise e)).
Proof.
  intros Hk Hc He Hq. split.
  - unfold run, retrieve, bind, perform, lift, ret.
    rewrite Hc, He, Hq. simpl. rewrite (candidate_count_nonpos mmr Hk).
    destruct (col_query col [q_emb] k) as [res | e |];
      try (exists []; reflexivity).
    destruct (items_of res) as [items | e |]; try (exists []; reflexivity).
    destruct mmr; [| exists []; reflexivity].
    destruct (encode embedder (map doc items)) as [emb | e |];
      try (exists [CallEncode (map doc items)]; reflexivity).
    destruct (mmr_select (numpy W) items emb k) as [selected | e |];
      exists [CallEncode (map doc items)]; reflexivity.
  - intros e Hr.
    pose proof (@retrieve_query_raises W query k mmr col embedder q_emb rest e
                                       Hc He Hq) as H.
    rewrite (candidate_count_nonpos mmr Hk) in H. apply H. exact Hr.
Qed.

(** C3: with [k = 0] the stub embedder is called once and the index is
    queried before anything is refused, and the refusal is the index's. *)
Lemma retrieve_k_zero_counterexample :
  (0 <= 0)%Z /\
  run (retrieve (Stub.world true Stub.corpus3) "q" 0 false)
  = ([CallGetCollection; CallGetEmbedder; CallEncode ["q"%string];
      CallQuery [[1]] 0],
     Raise (Raised "ValueError")) /\
  length (filter is_call_encode
                 (fst (run (retrieve (Stub.world true Stub.corpus3) "q" 0 false))))
  = 1%nat /\
  length (filter is_call_query
                 (fst (run (retrieve (Stub.world true Stub.corpus3) "q" 0 false))))
  = 1%nat.
Proof.
  split; [lia |]. repeat split; reflexivity.
Qed.

Lemma retrieve_nonpositive_k_not_rejected_witness :
  (0 <= 0)%Z /\
  ((exists calls,
       fst (run (retrieve (Stub.world true Stub.corpus3) "q" 0 true))
       = stage0_calls "q" [1] 0 ++ calls) /\
   (forall e,
       col_query (Stub.collection true Stub.corpus3) [[1]] 0 = Raise e ->
       run (retrieve (Stub.world true Stub.corpus3) "q" 0 true)
       = (stage0_calls "q" [1] 0, Raise e))).
Proof.
  split; [lia |].
  apply (@retrieve_nonpositive_k_not_rejected
           (Stub.world true Stub.corpus3) "q" 0 true
           (Stub.collection true Stub.corpus3) Stub.embedder [1] []);
    [lia | reflexivity | reflexivity | reflexivity].
Defined.

(** C8.  The index is asked for [candidate_count k mmr] hits, which is
    [k * 3] with MMR and [k] without for a count [k >= 0], and in all cases
    at least [k]. *)
Theorem retrieve_candidate_count
        (W : World) (query : string) (k : Z) (mmr : bool)
        (embedder : Embedder) (q_emb : Vec) (res : QueryResult) :
  stage0 W query k mmr embedder q_emb res ->
  (exists calls,
      fst (run (retrieve W query k mmr))
      = [CallGetCollection; CallGetEmbedder; CallEncode [query];
         CallQuery [q_emb] (candidate_count k mmr)] ++ calls /\
      Forall (fun c => is_call_query c = false) calls) /\
  (k <= candidate_count k mmr)%Z /\
  ((0 <= k)%Z -> candidate_count k mmr = if mmr then (k * 3)%Z else k).
Proof.
  intros [col [rest [Hc [He [Hq Hr]]]]].
  split; [| split; [apply candidate_count_ge | apply candidate_count_nonneg]].
  unfold run, retrieve, bind, perform, lift, ret.
  rewrite Hc, He, Hq. simpl. rewrite Hr.
  destruct (items_of res) as [items | e |];
    try (exists []; split; [reflexivity | constructor]).
  destruct mmr; [| exists []; split; [reflexivity | constructor]].
  assert (Hone : Forall (fun c => is_call_query c = false)
                        [CallEncode (map doc items)])
    by (constructor; [reflexivity | constructor]).
  destruct (encode embedder (map doc items)) as [emb | e |];
    try (exists [CallEncode (map doc items)]; split; [reflexivity | exact Hone]).
  destruct (mmr_select (numpy W) items emb k) as [selected | e |];
    exists [CallEncode (map doc items)]; (split; [reflexivity | exact Hone]).
Qed.

Lemma retrieve_candidate_count_witness :
  stage0 (Stub.world true Stub.corpus3) "q" 2 true Stub.embedder [1]
         (Stub.answer true Stub.corpus3 6) /\
  ((exists calls,
       fst (run (retrieve (Stub.world true Stub.corpus3) "q" 2 true))
       = [CallGetCollection; CallGetEmbedder; CallEncode ["q"%string];
          CallQuery [[1]] (candidate_count 2 true)] ++ calls /\
       Forall (fun c => is_call_query c = false) calls) /\
   (2 <= candidate_count 2 true)%Z /\
   ((0 <= 2)%Z -> candidate_count 2 true = (2 * 3)%Z)).
Proof.
  assert (H : stage0 (Stub.world true Stub.corpus3) "q" 2 true Stub.embedder [1]
                     (Stub.answer true Stub.corpus3 6)).
  { exists (Stub.collection true Stub.corpus3), [].
    repeat split; reflexivity. }
  split; [exact H |].
  apply (@retrieve_candidate_count
           (Stub.world true Stub.corpus3) "q" 2 true Stub.embedder [1]
           (Stub.answer true Stub.corpus3 6) H).
Defined.

(** C7.  Without MMR, [retrieve] returns the candidates sorted by ascending
    distance (hits at the same distance in the order the index gave them)
    and cut to the first [k].  On the corpus with distances 0.1, 0.2 and 0.9
    and [k = 2], these are the hits at 0.1 and 0.2, in this order. *)
Theorem retrieve_plain_ranking
        (W : World) (query : string) (k : Z)
        (embedder : Embedder) (q_emb : Vec) (res : QueryResult) (items : list Hit) :
  (0 <= k)%Z ->
  stage0 W query k false embedder q_emb res ->
  items_of res = Ok items ->
  (exists ranked,
      snd (run (retrieve W query k false)) = Ok (firstn (Z.to_nat k) ranked) /\
      Permutation ranked items /\
      StronglySorted (fun a b => dist a <= dist b) ranked /\
      (forall d, filter (fun h => Qeq_bool (dist h) d) ranked
                 = filter (fun h => Qeq_bool (dist h) d) items)) /\
  snd (run (retrieve (Stub.world true Stub.corpus3) "q" 2 false))
  = Ok [Stub.hit "alpha" 0 (1 # 10); Stub.hit "beta" 1 (2 # 10)].
Proof.
  intros Hk Hs Hi. split; [| reflexivity].
  exists (sorted dist items).
  rewrite (retrieve_plain Hs Hi). simpl.
  rewrite (take_nonneg _ Hk).
  split; [reflexivity |].
  split; [apply sorted_perm |].
  split; [apply sorted_ascending | intros d; apply sorted_stable].
Qed.

Lemma retrieve_plain_ranking_witness :
  (0 <= 2)%Z /\
  stage0 (Stub.world true Stub.corpus3) "q" 2 false Stub.embedder [1]
         (Stub.answer true Stub.corpus3 2) /\
  items_of (Stub.answer true Stub.corpus3 2)
  = Ok [Stub.hit "alpha" 0 (1 # 10); Stub.hit "beta" 1 (2 # 10)] /\
  ((exists ranked,
       snd (run (retrieve (Stub.world true Stub.corpus3) "q" 2 false))
       = Ok (firstn (Z.to_nat 2) ranked) /\
       Permutation ranked [Stub.hit "alpha" 0 (1 # 10); Stub.hit "beta" 1 (2 # 10)] /\
       StronglySorted (fun a b => dist a <= dist b) ranked /\
       (forall d, filter (fun h => Qeq_bool (dist h) d) ranked
                  = filter (fun h => Qeq_bool (dist h) d)
                           [Stub.hit "alpha" 0 (1 # 10); Stub.hit "beta" 1 (2 # 10)])) /\
   snd (run (retrieve (Stub.world true Stub.corpus3) "q" 2 false))
   = Ok [Stub.hit "alpha" 0 (1 # 10); Stub.hit "beta" 1 (2 # 10)]).
Proof.
  assert (H : stage0 (Stub.world true Stub.corpus3) "q" 2 false Stub.embedder [1]
                     (Stub.answer true Stub.corpus3 2)).
  { exists (Stub.collection true Stub.corpus3), [].
    repeat split; reflexivity. }
  split; [lia |]. split; [exact H |]. split; [reflexivity |].
  apply (@retrieve_plain_ranking
           (Stub.world true Stub.corpus3) "q" 2 Stub.embedder [1]
           (Stub.answer true Stub.corpus3 2)
           [Stub.hit "alpha" 0 (1 # 10); Stub.hit "beta" 1 (2 # 10)]);
    [lia | exact H | reflexivity].
Defined.

End RetrieveFacts.

(* ===================================================================== *)
(** ** MMR re-selection *)
(* ===================================================================== *)

Module MmrFacts.
Import Py PyFacts Rag.

Lemma mapM_ok {A B : Type} (f : A -> result B) (l : list A) :
  Forall (fun x => exists y, f x = Ok y) l ->
  exists ys, mapM f l = Ok ys /\ length ys = length l.
Proof.
  induction 1 as [| x l [y Hy] _ [ys [Hys Hlen]]]; simpl.
  - exists []. split; reflexivity.
  - exists (y :: ys). rewrite Hy. simpl. rewrite Hys. simpl.
    split; [reflexivity | congruence].
Qed.

Lemma mapM_item_at_Forall2 {A : Type} (l : list A) (idx : list nat) :
  Forall (fun i => (i < length l)%nat) idx ->
  exists out,
    mapM (item_at l) idx = Ok out /\
    Forall2 (fun i a => nth_error l i = Some a) idx out.
Proof.
  induction 1 as [| i idx Hi _ [out [Hout Hall]]]; simpl.
  - exists []. split; [reflexivity | constructor].
  - destruct (item_at_lt l Hi) as [a [Ha Hn]].
    exists (a :: out). rewrite Ha. simpl. rewrite Hout. simpl.
    split; [reflexivity | constructor; assumption].
Qed.

(** *** The candidate set *)

Lemma set_remove_in (x y : nat) (s : list nat) :
  In y (set_remove x s) <-> In y s /\ y <> x.
Proof.
  unfold set_remove. split.
  - apply in_remove.
  - intros [Hin Hne]. apply in_in_remove; assumption.
Qed.

Lemma set_remove_NoDup (x : nat) (s : list nat) :
  NoDup s -> NoDup (set_remove x s).
Proof.
  unfold set_remove. induction 1 as [| a s Ha _ IH]; simpl.
  - constructor.
  - destruct (Nat.eq_dec x a); [exact IH |].
    constructor; [| exact IH].
    intros Hin. apply in_remove in Hin. apply Ha. apply Hin.
Qed.

Lemma set_remove_length (x : nat) (s : list nat) :
  NoDup s -> In x s -> S (length (set_remove x s)) = length s.
Proof.
  unfold set_remove. induction 1 as [| a s Ha Hs IH]; intros Hin.
  - destruct Hin.
  - simpl. destruct (Nat.eq_dec x a) as [-> | Hne].
    + rewrite notin_remove by exact Ha. reflexivity.
    + simpl. destruct Hin as [-> | Hin]; [congruence |].
      rewrite IH by exact Hin. reflexivity.
Qed.

(** In [range(n)] cut around [b], what comes first is what is smaller. *)
Lemma seq_split_before (l1 l2 : list nat) (b : nat) :
  forall start n,
    seq start n = l1 ++ b :: l2 ->
    forall j, (start <= j < b)%nat -> In j l1.
Proof.
  induction l1 as [| a l1 IH]; intros start n Hseq j Hj.
  - destruct n; simpl in Hseq; [discriminate |].
    inversion Hseq; subst. lia.
  - destruct n; simpl in Hseq; [discriminate |].
    inversion Hseq as [[Ha Hrest]].
    destruct (Nat.eq_dec j start) as [-> | Hne]; [left; congruence |].
    right. apply (IH (S a) n Hrest). lia.
Qed.

Section Loop.
Variable np : Np.Numpy.
Variable items : list Hit.
Variable emb_chunks : list Vec.
Variable k : Z.
Hypothesis rows : length emb_chunks = length items.

Lemma dist_key_ok (i : nat) :
  (i < length items)%nat ->
  rbind (item_at items i) (fun it => Ok (dist it)) = Ok (dist_at items i).
Proof.
  intros Hi. destruct (item_at_lt items Hi) as [h [Hh Hn]].
  rewrite Hh. unfold dist_at. rewrite Hn. reflexivity.
Qed.

Lemma mmr_score_ok (selected : list nat) (i : nat) :
  (i < length items)%nat ->
  selected <> [] ->
  Forall (fun j => (j < length items)%nat) selected ->
  exists q, mmr_score np items emb_chunks selected i = Ok q.
Proof.
  intros Hi Hne Hsel. unfold mmr_score.
  destruct (item_at_lt items Hi) as [h [Hh _]]. rewrite Hh. simpl.
  destruct (@mapM_ok nat Q
              (fun j => rbind (item_at emb_chunks i)
                              (fun ei => rbind (item_at emb_chunks j)
                                               (fun ej => Ok (Np.dot np ei ej))))
              selected)
    as [sims [Hsims Hlen]].
  - eapply Forall_impl; [| exact Hsel]. intros j Hj. cbv beta in Hj.
    destruct (@item_at_lt _ emb_chunks i) as [ei [Hei _]]; [lia |].
    destruct (@item_at_lt _ emb_chunks j) as [ej [Hej _]]; [lia |].
    rewrite Hei. simpl. rewrite Hej. simpl. eexists. reflexivity.
  - rewrite Hsims. simpl.
    destruct (@max_of_ok sims) as [q [Hq _]].
    + destruct sims; [| discriminate].
      destruct selected; [congruence | discriminate].
    + rewrite Hq. simpl. eexists. reflexivity.
Qed.

(** One pass of the loop: it picks a candidate and moves it. *)
Lemma mmr_loop_step (fuel : nat) (selected cand : list nat) :
  cand <> [] ->
  (Z.of_nat (length selected) < k)%Z ->
  Forall (fun i => (i < length items)%nat) cand ->
  Forall (fun i => (i < length items)%nat) selected ->
  exists best,
    In best cand /\
    mmr_loop np (S fuel) items emb_chunks k selected cand
    = mmr_loop np fuel items emb_chunks k (selected ++ [best]) (set_remove best cand) /\
    (selected = [] ->
     min_key (fun i => rbind (item_at items i) (fun it => Ok (dist it))) cand
     = Ok best).
Proof.
  intros Hne Hlt Hcand Hsel.
  cbn [mmr_loop].
  replace (negb (length cand =? 0)%nat) with true
    by (destruct cand; [congruence | reflexivity]).
  replace (Z.of_nat (length selected) <? k)%Z with true
    by (symmetry; apply Z.ltb_lt; exact Hlt).
  cbn [andb].
  destruct selected as [| s0 selected'].
  - destruct (@min_key_first nat
                (fun i => rbind (item_at items i) (fun it => Ok (dist it)))
                (dist_at items) cand Hne)
      as [best [l1 [l2 [Hbest [Hsplit _]]]]].
    + eapply Forall_impl; [| exact Hcand]. intros i Hi. apply dist_key_ok. exact Hi.
    + exists best. rewrite Hbest. simpl.
      split; [rewrite Hsplit; apply in_elt |].
      split; reflexivity.
  - destruct (@max_key_in nat (mmr_score np items emb_chunks (s0 :: selected')) cand Hne)
      as [best [Hbest Hin]].
    + rewrite Forall_forall in Hcand |- *. intros i Hi.
      apply mmr_score_ok; [apply Hcand; exact Hi | discriminate | exact Hsel].
    + exists best. rewrite Hbest. simpl.
      split; [exact Hin |]. split; [reflexivity | discriminate].
Qed.

(** The loop returns; what it adds are distinct candidates, as many as
    [k] allows and the candidate set provides. *)
Lemma mmr_loop_spec :
  forall fuel selected cand,
    NoDup cand -> NoDup selected ->
    Forall (fun i => (i < length items)%nat) cand ->
    Forall (fun i => (i < length items)%nat) selected ->
    (forall i, In i selected -> ~ In i cand) ->
    (length cand <= fuel)%nat ->
    exists more,
      mmr_loop np fuel items emb_chunks k selected cand = Ok (selected ++ more) /\
      NoDup (selected ++ more) /\
      incl more cand /\
      Z.of_nat (length more)
      = Z.max 0 (Z.min (k - Z.of_nat (length selected)) (Z.of_nat (length cand))).
Proof.
  induction fuel as [| fuel IH];
    intros selected cand Hnc Hns Hcand Hsel Hdisj Hfuel.
  - destruct cand; [| simpl in Hfuel; lia].
    exists []. simpl. rewrite app_nil_r.
    repeat split; try assumption; [intros x [] | lia].
  - destruct cand as [| c cand'] eqn:Ec.
    { exists []. simpl. rewrite app_nil_r.
      repeat split; try assumption; [intros x [] | lia]. }
    rewrite <- Ec in *.
    assert (Hne : cand <> []) by (rewrite Ec; discriminate).
    destruct (Z.ltb_spec (Z.of_nat (length selected)) k) as [Hlt | Hge].
    + destruct (@mmr_loop_step fuel selected cand Hne Hlt Hcand Hsel)
        as [best [Hin [Hstep _]]].
      rewrite Hstep.
      pose proof (@set_remove_length best cand Hnc Hin) as Hlen.
      destruct (IH (selected ++ [best]) (set_remove best cand))
        as [more [Hrun [Hnd [Hincl Hcount]]]].
      * apply set_remove_NoDup. exact Hnc.
      * apply (Permutation_NoDup (Permutation_cons_append selected best)).
        constructor; [| exact Hns].
        intros Hbs. exact (Hdisj best Hbs Hin).
      * rewrite Forall_forall in Hcand |- *. intros i Hi.
        apply set_remove_in in Hi. apply Hcand. apply Hi.
      * apply Forall_app. split; [exact Hsel |].
        constructor; [| constructor].
        rewrite Forall_forall in Hcand. apply Hcand. exact Hin.
      * intros i Hi Hrem. apply set_remove_in in Hrem. destruct Hrem as [Hic Hib].
        apply in_app_or in Hi. destruct Hi as [Hi | [Hi | []]].
        -- exact (Hdisj i Hi Hic).
        -- congruence.
      * lia.
      * exists (best :: more).
        rewrite <- app_assoc in Hrun, Hnd. simpl in Hrun, Hnd.
        split; [exact Hrun |]. split; [exact Hnd |]. split.
        -- intros i [<- | Hi]; [exact Hin |].
           apply Hincl in Hi. apply set_remove_in in Hi. apply Hi.
        -- rewrite length_app in Hcount. simpl in Hcount.
           simpl length. lia.
    + exists []. rewrite app_nil_r.
      split.
      * cbn [mmr_loop].
        replace (Z.of_nat (length selected) <? k)%Z with false
          by (symmetry; apply Z.ltb_ge; exact Hge).
        rewrite andb_false_r. reflexivity.
      * repeat split; try assumption; [intros x [] | simpl; lia].
Qed.

Lemma mmr_score_ends (selected : list nat) (i : nat) :
  mmr_score np items emb_chunks selected i <> OutOfFuel.
Proof.
  unfold mmr_score.
  apply rbind_ends; [apply item_at_ends |]. intros h.
  apply rbind_ends.
  - apply mapM_ends. intros j.
    apply rbind_ends; [apply item_at_ends |]. intros ei.
    apply rbind_ends; [apply item_at_ends | discriminate].
  - intros sims. apply rbind_ends; [| discriminate].
    apply extremum_ends. discriminate.
Qed.

(** One pass per candidate is enough fuel: the loop always ends by itself. *)
Lemma mmr_loop_fuel_enough :
  forall fuel selected cand,
    NoDup cand ->
    (length cand <= fuel)%nat ->
    mmr_loop np fuel items emb_chunks k selected cand <> OutOfFuel.
Proof.
  clear rows.
  induction fuel as [| fuel IH]; intros selected cand Hnd Hfuel.
  - destruct cand; [| simpl in Hfuel; lia]. simpl. discriminate.
  - cbn [mmr_loop].
    destruct (negb (length cand =? 0)%nat
              && (Z.of_nat (length selected) <? k)%Z); [| discriminate].
    assert (Hnext : forall best,
               In best cand ->
               mmr_loop np fuel items emb_chunks k (selected ++ [best])
                        (set_remove best cand) <> OutOfFuel).
    { intros best Hin. apply IH.
      - apply set_remove_NoDup. exact Hnd.
      - pose proof (@set_remove_length best cand Hnd Hin). lia. }
    destruct selected as [| s0 selected'].
    + destruct (min_key (fun i => rbind (item_at items i) (fun it => Ok (dist it))) cand)
        as [best | e |] eqn:E; simpl; try discriminate.
      * apply Hnext. exact (extremum_in _ _ _ E).
      * exfalso. revert E. apply extremum_ends. intros i.
        apply rbind_ends; [apply item_at_ends | discriminate].
    + destruct (max_key (mmr_score np items emb_chunks (s0 :: selected')) cand)
        as [best | e |] eqn:E; simpl; try discriminate.
      * apply Hnext. exact (extremum_in _ _ _ E).
      * exfalso. revert E. apply extremum_ends. intros i. apply mmr_score_ends.
Qed.

(** Whatever the loop returns starts with what was already selected. *)
Lemma mmr_loop_prefix :
  forall fuel selected cand r,
    mmr_loop np fuel items emb_chunks k selected cand = Ok r ->
    exists more, r = selected ++ more.
Proof.
  induction fuel as [| fuel IH]; intros selected cand r Hrun.
  - simpl in Hrun.
    destruct (negb (length cand =? 0)%nat
              && (Z.of_nat (length selected) <? k)%Z); [discriminate |].
    inversion Hrun. exists []. rewrite app_nil_r. reflexivity.
  - cbn [mmr_loop] in Hrun.
    destruct (negb (length cand =? 0)%nat
              && (Z.of_nat (length selected) <? k)%Z).
    + assert (Hnext : exists best,
                 mmr_loop np fuel items emb_chunks k (selected ++ [best])
                          (set_remove best cand) = Ok r).
      { destruct selected; apply rbind_ok in Hrun;
          destruct Hrun as [best [_ Hrun]]; exists best; exact Hrun. }
      destruct Hnext as [best Hnext].
      apply IH in Hnext. destruct Hnext as [more ->].
      exists (best :: more). rewrite <- app_assoc. reflexivity.
    + inversion Hrun. exists []. rewrite app_nil_r. reflexivity.
Qed.

End Loop.

Lemma mmr_select_ends (np : Np.Numpy) (items : list Hit) (emb_chunks : list Vec) (k : Z) :
  mmr_select np items emb_chunks k <> OutOfFuel.
Proof.
  apply mmr_loop_fuel_enough.
  - apply seq_NoDup.
  - unfold set_range. rewrite length_seq. lia.
Qed.

(** With one embedding row per candidate the MMR branch returns, whatever
    [k] is, and what it returns are candidates. *)
Lemma mmr_branch_returns (np : Np.Numpy) (items : list Hit) (emb_chunks : list Vec) (k : Z) :
  length emb_chunks = length items ->
  exists selected out,
    mmr_select np items emb_chunks k = Ok selected /\
    mapM (item_at items) selected = Ok out /\
    Forall2 (fun i h => nth_error items i = Some h) selected out.
Proof.
  intros Hrows.
  assert (Hrange : Forall (fun i => (i < length items)%nat) (set_range (length items))).
  { rewrite Forall_forall. intros i Hi. apply in_seq in Hi. lia. }
  destruct (@mmr_loop_spec np items emb_chunks k Hrows (length items) []
                           (set_range (length items)))
    as [selected [Hrun [_ [Hincl _]]]].
  - apply seq_NoDup.
  - constructor.
  - exact Hrange.
  - constructor.
  - intros i [].
  - unfold set_range. rewrite length_seq. lia.
  - assert (Hsel : Forall (fun i => (i < length items)%nat) selected).
    { rewrite Forall_forall in Hrange |- *. intros i Hi. apply Hrange, Hincl, Hi. }
    destruct (mapM_item_at_Forall2 items Hsel) as [out [Hout Hall]].
    exists selected, out. repeat split; assumption.
Qed.

(** C2.  Given one embedding row per candidate and a count [k >= 0], the
    MMR branch returns; it selects distinct candidates, exactly
    [min(k, number of candidates)] of them; and its first pick has the
    minimum distance, every candidate before it in the Stage-0 order being
    strictly farther. *)
Theorem mmr_select_spec (np : Np.Numpy) (items : list Hit) (emb_chunks : list Vec) (k : Z) :
  length emb_chunks = length items ->
  (0 <= k)%Z ->
  exists selected out,
    mmr_select np items emb_chunks k = Ok selected /\
    mapM (item_at items) selected = Ok out /\
    Forall2 (fun i h => nth_error items i = Some h) selected out /\
    NoDup selected /\
    Z.of_nat (length selected) = Z.min k (Z.of_nat (length items)) /\
    (forall first rest,
        selected = first :: rest ->
        exists h,
          nth_error items first = Some h /\
          forall j hj,
            nth_error items j = Some hj ->
            dist h <= dist hj /\ ((j < first)%nat -> dist h < dist hj)).
Proof.
  intros Hrows Hk.
  assert (Hrange : Forall (fun i => (i < length items)%nat) (set_range (length items))).
  { rewrite Forall_forall. intros i Hi. apply in_seq in Hi. lia. }
  destruct (@mmr_loop_spec np items emb_chunks k Hrows (length items) []
                           (set_range (length items)))
    as [selected [Hrun [Hnd [Hincl Hcount]]]].
  - apply seq_NoDup.
  - constructor.
  - exact Hrange.
  - constructor.
  - intros i [].
  - unfold set_range. rewrite length_seq. lia.
  - simpl in Hrun, Hnd.
    assert (Hsel : Forall (fun i => (i < length items)%nat) selected).
    { rewrite Forall_forall in Hrange |- *. intros i Hi. apply Hrange, Hincl, Hi. }
    destruct (mapM_item_at_Forall2 items Hsel) as [out [Hout Hall]].
    exists selected, out.
    split; [exact Hrun |]. split; [exact Hout |]. split; [exact Hall |].
    split; [exact Hnd |]. split.
    + unfold set_range in Hcount. rewrite length_seq in Hcount.
      simpl in Hcount. lia.
    + intros first rest ->.
      unfold set_range in Hcount. rewrite length_seq in Hcount.
      simpl length in Hcount.
      assert (Hk1 : (Z.of_nat (@length nat []) < k)%Z) by (simpl; lia).
      assert (Hex : exists n', length items = S n')
        by (exists (pred (length items)); lia).
      destruct Hex as [n' En].
      assert (Hne : set_range (length items) <> []) by (rewrite En; discriminate).
      destruct (@mmr_loop_step np items emb_chunks k Hrows n' []
                               (set_range (length items)) Hne Hk1 Hrange)
        as [best [Hin [Hstep Hmin]]]; [constructor |].
      assert (Hrun' : mmr_loop np (S n') items emb_chunks k [] (set_range (length items))
                      = Ok (first :: rest))
        by (rewrite <- En; exact Hrun).
      rewrite Hstep in Hrun'.
      apply mmr_loop_prefix in Hrun'. destruct Hrun' as [more Hmore].
      simpl in Hmore. inversion Hmore; subst best more.
      specialize (Hmin eq_refl).
      destruct (@min_key_first nat
                  (fun i => rbind (item_at items i) (fun it => Ok (dist it)))
                  (dist_at items) (set_range (length items)) Hne)
        as [b [l1 [l2 [Hb [Hsplit [H1 H2]]]]]].
      { eapply Forall_impl; [| exact Hrange]. intros i Hi.
        apply dist_key_ok. exact Hi. }
      rewrite Hmin in Hb. inversion Hb; subst b.
      assert (Hfirst : (first < length items)%nat).
      { apply in_seq in Hin. lia. }
      destruct (item_at_lt items Hfirst) as [h [_ Hh]].
      exists h. split; [exact Hh |].
      intros j hj Hj.
      assert (Hjn : (j < length items)%nat).
      { apply nth_error_Some. congruence. }
      assert (Ej : dist_at items j = dist hj) by (unfold dist_at; rewrite Hj; reflexivity).
      assert (Ef : dist_at items first = dist h) by (unfold dist_at; rewrite Hh; reflexivity).
      rewrite <- Ej, <- Ef.
      rewrite Forall_forall in H1, H2.
      split.
      * assert (Hjin : In j (set_range (length items))) by (apply in_seq; lia).
        rewrite Hsplit in Hjin. apply in_app_or in Hjin.
        destruct Hjin as [Hj1 | [<- | Hj2]].
        -- apply Qlt_le_weak. apply H1. exact Hj1.
        -- apply Qle_refl.
        -- apply H2. exact Hj2.
      * intros Hlt. apply H1.
        apply (@seq_split_before l1 l2 first 0 (length items) Hsplit). lia.
Qed.

Lemma mmr_select_spec_witness :
  length [[1]; [1]; [1]] = length Stub.corpus3 /\
  (0 <= 2)%Z /\
  exists selected out,
    mmr_select Stub.numpy Stub.corpus3 [[1]; [1]; [1]] 2 = Ok selected /\
    mapM (item_at Stub.corpus3) selected = Ok out /\
    Forall2 (fun i h => nth_error Stub.corpus3 i = Some h) selected out /\
    NoDup selected /\
    Z.of_nat (length selected) = Z.min 2 (Z.of_nat (length Stub.corpus3)) /\
    (forall first rest,
        selected = first :: rest ->
        exists h,
          nth_error Stub.corpus3 first = Some h /\
          forall j hj,
            nth_error Stub.corpus3 j = Some hj ->
            dist h <= dist hj /\ ((j < first)%nat -> dist h < dist hj)).
Proof.
  split; [reflexivity |]. split; [lia |].
  apply (@mmr_select_spec Stub.numpy Stub.corpus3 [[1]; [1]; [1]] 2); [reflexivity | lia].
Defined.

End MmrFacts.

(* ===================================================================== *)
(** ** An answer without distances *)
(* ===================================================================== *)

Module DistanceFacts.
Import Py PyFacts Rag.

Lemma Forall2_nth_error_incl {A : Type} (l : list A) (idx : list nat) (out : list A) :
  Forall2 (fun i a => nth_error l i = Some a) idx out -> incl out l.
Proof.
  induction 1 as [| i a idx out Hi _ IH].
  - intros x [].
  - intros x [<- | Hx]; [eapply nth_error_In; exact Hi | apply IH; exact Hx].
Qed.

Lemma take_incl {A : Type} (k : Z) (l : list A) : incl (take k l) l.
Proof.
  unfold take. intros x Hx.
  rewrite <- (firstn_skipn (Z.to_nat (clamp_index (Z.of_nat (length l)) k)) l).
  apply in_or_app. left. exact Hx.
Qed.

Lemma stub_embedder_one_row : one_row_per_text Stub.embedder.
Proof.
  intros texts. exists (map (fun _ => [1]) texts).
  split; [reflexivity | apply length_map].
Defined.

(** Without distances every candidate is built with distance 0.0. *)
Lemma zip_hits_zero (docs : list string) :
  forall metas,
    zip_hits docs metas (repeat 0 (length docs)) = hits_at_zero docs metas.
Proof.
  induction docs as [| d docs IH]; intros metas; [reflexivity |].
  destruct metas as [| m metas]; [reflexivity |].
  simpl. unfold hits_at_zero in IH |- *. simpl. rewrite IH. reflexivity.
Qed.

Lemma hits_at_zero_dist (docs : list string) (metas : list Meta) :
  Forall (fun h => dist h = 0) (hits_at_zero docs metas).
Proof.
  unfold hits_at_zero. rewrite Forall_forall. intros h Hh.
  apply in_map_iff in Hh. destruct Hh as [p [<- _]]. reflexivity.
Qed.

(** A stable sort leaves a list alone whose elements all have the key [c]. *)
Lemma sorted_same_key {A : Type} (key : A -> Q) (c : Q) (l : list A) :
  Forall (fun a => key a = c) l -> sorted key l = l.
Proof.
  unfold sorted. induction 1 as [| x l Hx Hl IH]; [reflexivity |].
  simpl. rewrite IH. destruct l as [| y l']; [reflexivity |].
  simpl. pose proof (Forall_inv Hl) as Hy. cbv beta in Hy.
  rewrite Hx, Hy.
  replace (Qle_bool c c) with true; [reflexivity |].
  symmetry. apply Qle_bool_iff. apply Qle_refl.
Qed.

End DistanceFacts.

(* ===================================================================== *)
(** ** BM25 mixing and cross-encoder reranking *)
(* ===================================================================== *)

Module StageFacts.
Import Py PyFacts Rag.

Lemma map_fst_combine {A B : Type} (a : list A) :
  forall b : list B, length b = length a -> map fst (combine a b) = a.
Proof.
  induction a as [| x a IH]; intros b Hlen; [reflexivity |].
  destruct b as [| y b]; [discriminate |].
  simpl. rewrite IH by (simpl in Hlen; lia). reflexivity.
Qed.

Lemma map_nth_range {A : Type} (d : A) (l : list A) :
  map (fun i => nth i l d) (seq 0 (length l)) = l.
Proof.
  induction l as [| x l IH]; [reflexivity |].
  simpl. rewrite <- seq_shift, map_map. rewrite IH. reflexivity.
Qed.

Lemma Forall2_nth_error_map {A : Type} (d : A) (l : list A)
      (idx : list nat) (out : list A) :
  Forall2 (fun i a => nth_error l i = Some a) idx out ->
  out = map (fun i => nth i l d) idx.
Proof.
  induction 1 as [| i a idx out Hi _ IH]; [reflexivity |].
  simpl. rewrite <- IH, (nth_error_nth _ _ d Hi). reflexivity.
Qed.

(** Picking the items of [l] along a permutation of its indices permutes [l]. *)
Lemma pick_permutation {A : Type} (l : list A) (idx : list nat) (out : list A) :
  Permutation idx (seq 0 (length l)) ->
  Forall2 (fun i a => nth_error l i = Some a) idx out ->
  Permutation out l.
Proof.
  intros Hperm Hall.
  destruct l as [| d l'] eqn:El.
  - simpl in Hperm. apply Permutation_sym, Permutation_nil in Hperm.
    subst idx. inversion Hall. constructor.
  - rewrite <- El in *.
    rewrite (@Forall2_nth_error_map A d l idx out Hall).
    apply perm_trans with (map (fun i => nth i l d) (seq 0 (length l))).
    + apply Permutation_map. exact Hperm.
    + rewrite map_nth_range. apply Permutation_refl.
Qed.

Lemma broadcast2_same_length (f : Q -> Q -> Q) (a b : list Q) :
  length a = length b ->
  broadcast2 f a b = Ok (map (fun p => f (fst p) (snd p)) (combine a b)).
Proof.
  intros Hlen. unfold broadcast2. rewrite Hlen, Nat.eqb_refl. reflexivity.
Qed.

Lemma combine_map_map {A B : Type} (op : Q -> Q -> Q) (f : A -> Q) (g : B -> Q)
      (a : list A) :
  forall b : list B,
    map (fun p => op (fst p) (snd p)) (combine (map f a) (map g b))
    = map (fun p => op (f (fst p)) (g (snd p))) (combine a b).
Proof.
  induction a as [| x a IH]; intros b; [reflexivity |].
  destruct b as [| y b]; [reflexivity |].
  simpl. rewrite IH. reflexivity.
Qed.

Section Fusion.
Variable np : Np.Numpy.
Variable bm25_get_scores : list string -> string -> result (list Q).
Variable query : string.
Variable hits : list Hit.
Variable alpha : Q.
Variable scores : list Q.
Hypothesis np_sorts : Np.sorts (Np.argsort np).
Hypothesis hits_nonempty : hits <> [].
Hypothesis scores_ok : bm25_get_scores (map doc hits) query = Ok scores.
Hypothesis scores_length : length scores = length hits.

Lemma mixed_scores_returns :
  exists dmax,
    In dmax (map dist hits) /\
    Forall (fun d => d <= dmax) (map dist hits) /\
    mixed_scores bm25_get_scores query hits alpha
    = Ok (map (mixed_at alpha dmax) (combine scores hits)).
Proof.
  clear np_sorts.
  destruct (@max_of_ok (map dist hits)) as [dmax [Hmax Hin]].
  { destruct hits; [congruence | discriminate]. }
  exists dmax. split; [exact Hin |]. split; [apply max_of_upper; exact Hmax |].
  unfold mixed_scores. rewrite scores_ok. cbn [rbind]. rewrite Hmax. cbn [rbind].
  unfold mixed_of. rewrite broadcast2_same_length
    by (rewrite !length_map; exact scores_length).
  rewrite !map_map.
  rewrite (combine_map_map Fl.add (Fl.mul alpha)
                           (fun h => Fl.mul (Fl.sub 1 alpha) (sim_of dmax (dist h)))
                           scores hits).
  reflexivity.
Qed.

Lemma bm25_mix_returns :
  exists dmax mixed order out,
    In dmax (map dist hits) /\
    Forall (fun d => d <= dmax) (map dist hits) /\
    mixed_scores bm25_get_scores query hits alpha = Ok mixed /\
    mixed = map (mixed_at alpha dmax) (combine scores hits) /\
    bm25_mix np bm25_get_scores query hits alpha = Ok out /\
    order = rev (Np.argsort np mixed) /\
    Permutation order (seq 0 (length hits)) /\
    Forall2 (fun i h => nth_error hits i = Some h) order out /\
    StronglySorted (fun i j => nth j mixed 0 <= nth i mixed 0) order.
Proof.
  destruct mixed_scores_returns as [dmax [Hin [Hup Hmixed]]].
  set (mixed := map (mixed_at alpha dmax) (combine scores hits)) in *.
  assert (Hlen : length mixed = length hits).
  { unfold mixed. rewrite length_map, length_combine. lia. }
  destruct (np_sorts mixed) as [Hnp Hsorted].
  assert (Hperm : Permutation (rev (Np.argsort np mixed)) (seq 0 (length hits))).
  { rewrite <- Hlen. apply perm_trans with (Np.argsort np mixed).
    - apply Permutation_sym, Permutation_rev.
    - exact Hnp. }
  assert (Hrange : Forall (fun i => (i < length hits)%nat) (rev (Np.argsort np mixed))).
  { rewrite Forall_forall. intros i Hi.
    apply (Permutation_in _ Hperm) in Hi. apply in_seq in Hi. lia. }
  destruct (MmrFacts.mapM_item_at_Forall2 hits Hrange) as [out [Hout Hall]].
  exists dmax, mixed, (rev (Np.argsort np mixed)), out.
  repeat split; try assumption.
  - unfold bm25_mix. rewrite Hmixed. cbn [rbind]. exact Hout.
  - apply (StronglySorted_rev Hsorted).
Qed.

End Fusion.

(** C1, amended.  For a non-empty hit sequence with non-negative distances
    and one BM25 score per hit, [bm25_mix] computes, in float64,
    [sim(i) = 1 - distance(i) / (max distance + 1e-9)] and
    [mixed(i) = alpha * bm25(i) + (1 - alpha) * sim(i)], default
    [alpha = 0.2], and returns the hits by descending mixed score: no hit
    comes before a hit of greater mixed score.  The order of hits of equal
    mixed score is the one numpy's [argsort] gives them, read backwards;
    it is not specified. *)
Theorem bm25_mix_order
        (np : Np.Numpy)
        (bm25_get_scores : list string -> string -> result (list Q))
        (query : string) (hits : list Hit) (alpha : Q) (scores : list Q) :
  Np.sorts (Np.argsort np) ->
  hits <> [] ->
  Forall (fun h => 0 <= dist h) hits ->
  bm25_get_scores (map doc hits) query = Ok scores ->
  length scores = length hits ->
  (exists dmax mixed order out,
      In dmax (map dist hits) /\
      Forall (fun d => d <= dmax) (map dist hits) /\
      mixed_scores bm25_get_scores query hits alpha = Ok mixed /\
      mixed = map (mixed_at alpha dmax) (combine scores hits) /\
      bm25_mix np bm25_get_scores query hits alpha = Ok out /\
      order = rev (Np.argsort np mixed) /\
      Permutation order (seq 0 (length hits)) /\
      Forall2 (fun i h => nth_error hits i = Some h) order out /\
      StronglySorted (fun i j => nth j mixed 0 <= nth i mixed 0) order) /\
  Fl.is_float default_alpha /\
  (2 # 10) - (1 # 2 ^ 56) <= default_alpha <= (2 # 10) + (1 # 2 ^ 56).
Proof.
  intros Hnp Hne _ Hscores Hlen.
  split; [| split; [vm_compute; reflexivity | split; vm_compute; discriminate]].
  destruct (@bm25_mix_returns np bm25_get_scores query hits alpha scores
                              Hnp Hne Hscores Hlen)
    as [dmax [mixed [order [out
         [Hin [Hup [Hms [Hmixed [Hrun [Horder [Hperm [Hall Hsorted]]]]]]]]]]]].
  exists dmax, mixed, order, out.
  repeat split; assumption.
Qed.

(** C1: with an [argsort] that leaves equal elements in index order, two
    hits of equal mixed score come out in the reverse of their pre-fusion
    order. *)
Lemma bm25_mix_tie_counterexample :
  Np.sorts (Np.argsort Stub.numpy) /\
  Stub.tied <> [] /\
  exists mixed,
    mixed_scores Stub.bm25_no_match "q" Stub.tied default_alpha = Ok mixed /\
    bm25_mix Stub.numpy Stub.bm25_no_match "q" Stub.tied default_alpha
    = Ok [Stub.hit "second" 1 (1 # 2); Stub.hit "first" 0 (1 # 2)] /\
    spec_fusion_order mixed Stub.tied
    = [Stub.hit "first" 0 (1 # 2); Stub.hit "second" 1 (1 # 2)] /\
    [Stub.hit "second" 1 (1 # 2); Stub.hit "first" 0 (1 # 2)]
    <> [Stub.hit "first" 0 (1 # 2); Stub.hit "second" 1 (1 # 2)].
Proof.
  split; [exact NpFacts.argsort_ties_up_sorts |].
  split; [discriminate |].
  eexists. split; [vm_compute; reflexivity |].
  split; [vm_compute; reflexivity |].
  split; [vm_compute; reflexivity | discriminate].
Qed.

Lemma bm25_mix_order_witness :
  Np.sorts (Np.argsort Stub.numpy) /\
  Stub.tied <> [] /\
  Forall (fun h => 0 <= dist h) Stub.tied /\
  Stub.bm25_no_match (map doc Stub.tied) "q" = Ok [0; 0] /\
  length [0; 0] = length Stub.tied /\
  ((exists dmax mixed order out,
       In dmax (map dist Stub.tied) /\
       Forall (fun d => d <= dmax) (map dist Stub.tied) /\
       mixed_scores Stub.bm25_no_match "q" Stub.tied default_alpha = Ok mixed /\
       mixed = map (mixed_at default_alpha dmax) (combine [0; 0] Stub.tied) /\
       bm25_mix Stub.numpy Stub.bm25_no_match "q" Stub.tied default_alpha = Ok out /\
       order = rev (Np.argsort Stub.numpy mixed) /\
       Permutation order (seq 0 (length Stub.tied)) /\
       Forall2 (fun i h => nth_error Stub.tied i = Some h) order out /\
       StronglySorted (fun i j => nth j mixed 0 <= nth i mixed 0) order) /\
   Fl.is_float default_alpha /\
   (2 # 10) - (1 # 2 ^ 56) <= default_alpha <= (2 # 10) + (1 # 2 ^ 56)).
Proof.
  assert (Hd : Forall (fun h => 0 <= dist h) Stub.tied).
  { repeat constructor; vm_compute; discriminate. }
  split; [exact NpFacts.argsort_ties_up_sorts |].
  split; [discriminate |]. split; [exact Hd |].
  split; [reflexivity |]. split; [reflexivity |].
  apply (@bm25_mix_order Stub.numpy Stub.bm25_no_match "q" Stub.tied
                         default_alpha [0; 0]);
    [exact NpFacts.argsort_ties_up_sorts | discriminate | exact Hd
     | reflexivity | reflexivity].
Defined.

(** C10.  For a non-empty hit sequence with one BM25 score per hit,
    [bm25_mix] returns a permutation of its input: the same hits, each as
    often as it came in, and as many. *)
Theorem bm25_mix_permutation
        (np : Np.Numpy)
        (bm25_get_scores : list string -> string -> result (list Q))
        (query : string) (hits : list Hit) (alpha : Q) (scores : list Q) :
  Np.sorts (Np.argsort np) ->
  hits <> [] ->
  bm25_get_scores (map doc hits) query = Ok scores ->
  length scores = length hits ->
  exists out,
    bm25_mix np bm25_get_scores query hits alpha = Ok out /\
    Permutation out hits /\
    length out = length hits /\
    (forall h, In h out <-> In h hits).
Proof.
  intros Hnp Hne Hscores Hlen.
  destruct (@bm25_mix_returns np bm25_get_scores query hits alpha scores
                              Hnp Hne Hscores Hlen)
    as [dmax [mixed [order [out [_ [_ [_ [_ [Hrun [_ [Hperm [Hall _]]]]]]]]]]]].
  pose proof (@pick_permutation Hit hits order out Hperm Hall) as Hp.
  exists out. split; [exact Hrun |]. split; [exact Hp |].
  split; [apply Permutation_length; exact Hp |].
  intros h. split; intros Hh.
  - apply (Permutation_in _ Hp). exact Hh.
  - apply (Permutation_in _ (Permutation_sym Hp)). exact Hh.
Qed.

Lemma bm25_mix_permutation_witness :
  Np.sorts (Np.argsort Stub.numpy) /\
  Stub.corpus3 <> [] /\
  Stub.bm25_no_match (map doc Stub.corpus3) "q" = Ok [0; 0; 0] /\
  length [0; 0; 0] = length Stub.corpus3 /\
  exists out,
    bm25_mix Stub.numpy Stub.bm25_no_match "q" Stub.corpus3 default_alpha = Ok out /\
    Permutation out Stub.corpus3 /\
    length out = length Stub.corpus3 /\
    (forall h, In h out <-> In h Stub.corpus3).
Proof.
  split; [exact NpFacts.argsort_ties_up_sorts |].
  split; [discriminate |]. split; [reflexivity |]. split; [reflexivity |].
  apply (@bm25_mix_permutation Stub.numpy Stub.bm25_no_match "q" Stub.corpus3
                               default_alpha [0; 0; 0]);
    [exact NpFacts.argsort_ties_up_sorts | discriminate | reflexivity | reflexivity].
Defined.

(** C6.  With one cross-encoder score per hit, [rerank_cross_encoder]
    returns the hits by descending score, hits of equal score in the order
    they came in; the result is a permutation of the input, nothing dropped
    and nothing added. *)
Theorem rerank_cross_encoder_spec
        (ce_predict : string -> list (string * string) -> result (list Q))
        (query : string) (hits : list Hit) (model_name : string)
        (scores : list Q) :
  ce_predict model_name (map (fun h => (query, doc h)) hits) = Ok scores ->
  length scores = length hits ->
  exists ranked,
    rerank_cross_encoder ce_predict query hits model_name = Ok (map fst ranked) /\
    Permutation ranked (combine hits scores) /\
    StronglySorted (fun a b => snd b <= snd a) ranked /\
    (forall s, filter (fun p => Qeq_bool (snd p) s) ranked
               = filter (fun p => Qeq_bool (snd p) s) (combine hits scores)) /\
    Permutation (map fst ranked) hits /\
    length (map fst ranked) = length hits /\
    (forall h, In h (map fst ranked) <-> In h hits).
Proof.
  intros Hscores Hlen.
  exists (sorted_reverse snd (combine hits scores)).
  assert (Hp : Permutation (map fst (sorted_reverse snd (combine hits scores))) hits).
  { rewrite <- (map_fst_combine hits scores Hlen) at 2.
    apply Permutation_map. apply sorted_reverse_perm. }
  split; [unfold rerank_cross_encoder; rewrite Hscores; reflexivity |].
  split; [apply sorted_reverse_perm |].
  split; [apply sorted_reverse_descending |].
  split; [intros s; apply sorted_reverse_stable |].
  split; [exact Hp |].
  split; [apply Permutation_length; exact Hp |].
  intros h. split; intros Hh.
  - apply (Permutation_in _ Hp). exact Hh.
  - apply (Permutation_in _ (Permutation_sym Hp)). exact Hh.
Qed.

Lemma rerank_cross_encoder_spec_witness :
  Stub.ce_length default_model_name (map (fun h => ("q"%string, doc h)) Stub.corpus3)
  = Ok [5; 4; 5] /\
  length [5; 4; 5] = length Stub.corpus3 /\
  exists ranked,
    rerank_cross_encoder Stub.ce_length "q" Stub.corpus3 default_model_name
    = Ok (map fst ranked) /\
    Permutation ranked (combine Stub.corpus3 [5; 4; 5]) /\
    StronglySorted (fun a b => snd b <= snd a) ranked /\
    (forall s, filter (fun p => Qeq_bool (snd p) s) ranked
               = filter (fun p => Qeq_bool (snd p) s) (combine Stub.corpus3 [5; 4; 5])) /\
    Permutation (map fst ranked) Stub.corpus3 /\
    length (map fst ranked) = length Stub.corpus3 /\
    (forall h, In h (map fst ranked) <-> In h Stub.corpus3).
Proof.
  split; [reflexivity |]. split; [reflexivity |].
  apply (@rerank_cross_encoder_spec Stub.ce_length "q" Stub.corpus3
                                    default_model_name [5; 4; 5]);
    reflexivity.
Defined.

End StageFacts.

(* ===================================================================== *)
(** ** The functions on small inputs *)
(* ===================================================================== *)

Module Examples.
Import Rag.

Example token_chunk_abcde :
  Ingest.token_chunk Stub.char_encode Stub.char_decode 2 "abcde" 3 1
  = Ok ["abc"%string; "cde"%string].
Proof. reflexivity. Qed.

Example token_windows_abcde :
  Ingest.token_windows Stub.char_encode 2 "abcde" 3 1
  = Ok [(0, 3)%Z; (2, 5)%Z].
Proof. reflexivity. Qed.

Example token_chunk_stuck :
  Ingest.token_chunk Stub.char_encode Stub.char_decode 1000 "abcde" 2 2
  = OutOfFuel.
Proof. vm_compute. reflexivity. Qed.

Example slice_negative_bound :
  Py.slice [1; 2; 3; 4]%Z 1 (-1) = [2; 3]%Z.
Proof. reflexivity. Qed.

Example argsort_ties_up : Np.argsort_ties_up [2; 2; 1; 1] = [2; 3; 0; 1]%nat.
Proof. reflexivity. Qed.

Example argsort_ties_down : Np.argsort_ties_down [2; 2; 1; 1] = [3; 2; 1; 0]%nat.
Proof. reflexivity. Qed.

Example round64_tenth : Fl.lit (1 # 10) = 3602879701896397 # 36028797018963968.
Proof. vm_compute. reflexivity. Qed.

Example sub_rounds_to_one : Fl.sub 1 (1 # 2 ^ 60) = 1.
Proof. vm_compute. reflexivity. Qed.

Example add_tenth_fifth :
  Fl.add (Fl.lit (1 # 10)) (Fl.lit (2 # 10)) = 1351079888211149 # 4503599627370496.
Proof. vm_compute. reflexivity. Qed.

Example retrieve_mmr_corpus3 :
  run (retrieve (Stub.world true Stub.corpus3) "q" 2 true)
  = ([CallGetCollection; CallGetEmbedder; CallEncode ["q"%string];
      CallQuery [[1]] 6; CallEncode ["alpha"%string; "beta"%string; "gamma"%string]],
     Ok [Stub.hit "alpha" 0 (1 # 10); Stub.hit "beta" 1 (2 # 10)]).
Proof. vm_compute. reflexivity. Qed.

Example retrieve_more_than_corpus :
  snd (run (retrieve (Stub.world true (firstn 2 Stub.corpus3)) "q" 5 false))
  = Ok [Stub.hit "alpha" 0 (1 # 10); Stub.hit "beta" 1 (2 # 10)].
Proof. vm_compute. reflexivity. Qed.

Example rerank_corpus3 :
  rerank_cross_encoder Stub.ce_length "q" Stub.corpus3 default_model_name
  = Ok [Stub.hit "alpha" 0 (1 # 10); Stub.hit "gamma" 2 (9 # 10);
        Stub.hit "beta" 1 (2 # 10)].
Proof. vm_compute. reflexivity. Qed.

Example bm25_mix_empty_hits :
  bm25_mix Stub.numpy Stub.bm25_no_match "q" [] default_alpha = Raise ValueError.
Proof. reflexivity. Qed.

(** Four hits of one mixed score: the order they come out in is the
    argsort's. *)
Example bm25_mix_tied4_up :
  bm25_mix Stub.numpy Stub.bm25_no_match "q" Fixture.tied4 default_alpha
  = Ok (rev Fixture.tied4).
Proof. vm_compute. reflexivity. Qed.

Example bm25_mix_tied4_down :
  bm25_mix Fixture.numpy_ties_down Stub.bm25_no_match "q" Fixture.tied4 default_alpha
  = Ok Fixture.tied4.
Proof. vm_compute. reflexivity. Qed.

Example bm25_mix_two_ties_up :
  bm25_mix Stub.numpy Stub.bm25_no_match "q" Fixture.two_ties default_alpha
  = Ok [Stub.hit "b" 1 (1 # 4); Stub.hit "a" 0 (1 # 4);
        Stub.hit "d" 3 (1 # 2); Stub.hit "c" 2 (1 # 2)].
Proof. vm_compute. reflexivity. Qed.

Example bm25_mix_two_ties_down :
  bm25_mix Fixture.numpy_ties_down Stub.bm25_no_match "q" Fixture.two_ties
           default_alpha
  = Ok Fixture.two_ties.
Proof. vm_compute. reflexivity. Qed.

(** Rounding makes a tie: the first two hits get the same mixed score,
    though the first is nearer. *)
Example mixed_scores_near_tie :
  mixed_scores Stub.bm25_no_match "q" Fixture.near_tie default_alpha
  = Ok [Fl.lit (8 # 10); Fl.lit (8 # 10); 56295 # 70368744177664].
Proof. vm_compute. reflexivity. Qed.

Example bm25_mix_near_tie :
  bm25_mix Stub.numpy Stub.bm25_no_match "q" Fixture.near_tie default_alpha
  = Ok [Stub.hit "b" 1 (1 # 2 ^ 60); Stub.hit "a" 0 0; Stub.hit "c" 2 1].
Proof. vm_compute. reflexivity. Qed.

(** Rounding makes a tie in the MMR scores too: after the first pick the
    other two hits score the same, and the earlier one is picked. *)
Example mmr_score_near_one :
  mmr_score Stub.numpy Fixture.near_one [[1]; [1]; [1]] [0%nat] 1 = Ok (1 # 2) /\
  mmr_score Stub.numpy Fixture.near_one [[1]; [1]; [1]] [0%nat] 2 = Ok (1 # 2).
Proof. split; vm_compute; reflexivity. Qed.

Example mmr_select_near_one :
  mmr_select Stub.numpy Fixture.near_one [[1]; [1]; [1]] 2 = Ok [0; 1]%nat /\
  mmr_select Fixture.numpy_ties_down Fixture.near_one [[1]; [1]; [1]] 2 = Ok [0; 1]%nat.
Proof. split; vm_compute; reflexivity. Qed.

End Examples.

(* ===================================================================== *)
(** ** More on the chunker: geometry of the windows *)
(* ===================================================================== *)

Module ChunkerShape.
Import Py PyFacts Ingest IngestFacts Windows.

Lemma slice_in_range {A : Type} (l : list A) (a b : Z) :
  (0 <= a <= b)%Z -> (b <= Z.of_nat (length l))%Z ->
  slice l a b = firstn (Z.to_nat (b - a)) (skipn (Z.to_nat a) l).
Proof.
  intros Hab Hb. unfold slice.
  rewrite !clamp_index_range by lia.
  rewrite !Z.min_l by lia. reflexivity.
Qed.

Lemma slice_length {A : Type} (l : list A) (a b : Z) :
  (0 <= a <= b)%Z -> (b <= Z.of_nat (length l))%Z ->
  Z.of_nat (length (slice l a b)) = (b - a)%Z.
Proof.
  intros Hab Hb. rewrite slice_in_range by assumption.
  rewrite length_firstn, length_skipn. lia.
Qed.

Lemma firstn_plus {A : Type} (n m : nat) (l : list A) :
  firstn (n + m) l = firstn n l ++ firstn m (skipn n l).
Proof.
  revert l. induction n as [| n IH]; intros l; [reflexivity |].
  destruct l as [| x l]; simpl.
  - rewrite firstn_nil. reflexivity.
  - rewrite IH. reflexivity.
Qed.

Lemma skipn_plus {A : Type} (n m : nat) (l : list A) :
  skipn (n + m) l = skipn m (skipn n l).
Proof.
  revert l. induction n as [| n IH]; intros l; [reflexivity |].
  destruct l as [| x l]; simpl.
  - rewrite skipn_nil. reflexivity.
  - apply IH.
Qed.

(** Two slices that meet make one slice. *)
Lemma slice_join {A : Type} (l : list A) (a b c : Z) :
  (0 <= a <= b)%Z -> (b <= c)%Z -> (c <= Z.of_nat (length l))%Z ->
  slice l a b ++ slice l b c = slice l a c.
Proof.
  intros Hab Hbc Hc.
  rewrite !slice_in_range by lia.
  replace (Z.to_nat (c - a)) with (Z.to_nat (b - a) + Z.to_nat (c - b))%nat by lia.
  rewrite firstn_plus. f_equal. f_equal.
  rewrite <- skipn_plus. f_equal. lia.
Qed.

Lemma ceil_div_none (b : Z) : (0 < b)%Z -> ceil_div 0 b = 0%Z.
Proof.
  intros Hb. unfold ceil_div. apply Z.div_small. lia.
Qed.

Lemma ceil_div_one (a b : Z) : (0 < a <= b)%Z -> ceil_div a b = 1%Z.
Proof.
  intros Hab. unfold ceil_div. symmetry.
  apply (Z.div_unique (a + b - 1) b 1 (a - 1)); lia.
Qed.

Lemma ceil_div_step (a b : Z) :
  (0 < b)%Z -> ceil_div (a + b) b = (1 + ceil_div a b)%Z.
Proof.
  intros Hb. unfold ceil_div.
  replace (a + b + b - 1)%Z with ((a + b - 1) + 1 * b)%Z by lia.
  rewrite Z.div_add by lia. lia.
Qed.

Section Shape.
Variable len max_tokens overlap : Z.
Hypothesis config : (0 <= overlap < max_tokens)%Z.

(** With enough fuel the loop returns a chain of windows from [start]. *)
Lemma token_windows_loop_chain :
  forall fuel start windows,
    (0 <= start < len)%Z ->
    (1 <= fuel)%nat ->
    (len <= (Z.of_nat fuel - 1) * (max_tokens - overlap) + start + max_tokens)%Z ->
    exists more,
      token_windows_loop fuel len max_tokens overlap start windows
      = Ok (windows ++ more) /\
      window_chain len max_tokens overlap start more.
Proof.
  induction fuel as [| fuel IH]; intros start windows Hstart Hone Hfuel.
  - lia.
  - simpl. destruct (Z.ltb_spec start len) as [_ | Hge]; [| lia].
    destruct (Z.eqb_spec (Z.min (start + max_tokens) len) len) as [Heq | Hne].
    + exists [(start, len)]. rewrite Heq.
      split; [reflexivity |]. apply chain_last; lia.
    + assert (Hlt : (start + max_tokens < len)%Z) by lia.
      rewrite Z.min_l by lia. rewrite Z.max_r by lia.
      destruct (IH (start + max_tokens - overlap)%Z
                   (windows ++ [(start, (start + max_tokens)%Z)]))
        as [more [Hrun Hchain]]; [lia | nia | nia |].
      exists ((start, (start + max_tokens)%Z) :: more).
      rewrite Hrun, <- app_assoc. split; [reflexivity |].
      apply chain_next; assumption.
Qed.

Lemma chain_bounds (start : Z) (ws : list (Z * Z)) :
  (0 <= start)%Z ->
  window_chain len max_tokens overlap start ws ->
  Forall (fun w => (start <= fst w < snd w)%Z /\ (snd w <= len)%Z /\
                   (snd w - fst w <= max_tokens)%Z) ws.
Proof.
  intros H0 Hchain. induction Hchain as [start Hs Hl | start rest Hs Hrest IH].
  - constructor; [simpl; lia | constructor].
  - constructor; [simpl; lia |].
    eapply Forall_impl; [| apply IH; lia].
    intros w Hw. cbv beta in Hw. lia.
Qed.

Lemma chain_count (start : Z) (ws : list (Z * Z)) :
  window_chain len max_tokens overlap start ws ->
  Z.of_nat (length ws)
  = (1 + ceil_div (Z.max 0 (len - start - max_tokens)) (max_tokens - overlap))%Z.
Proof.
  intros Hchain. induction Hchain as [start Hs Hl | start rest Hs Hrest IH].
  - rewrite Z.max_l by lia. rewrite ceil_div_none by lia. reflexivity.
  - cbn [length]. rewrite Nat2Z.inj_succ, IH.
    rewrite (Z.max_r 0 (len - start - max_tokens)) by lia.
    destruct (Z.le_ge_cases (len - (start + max_tokens - overlap) - max_tokens) 0)
      as [Hle | Hge].
    + rewrite Z.max_l by lia. rewrite ceil_div_none by lia.
      rewrite ceil_div_one by lia. reflexivity.
    + rewrite Z.max_r by lia.
      replace (len - start - max_tokens)%Z
        with ((len - (start + max_tokens - overlap) - max_tokens)
              + (max_tokens - overlap))%Z by lia.
      rewrite ceil_div_step by lia. lia.
Qed.

Lemma chain_head (start : Z) (w : Z * Z) (rest : list (Z * Z)) :
  window_chain len max_tokens overlap start (w :: rest) ->
  fst w = start /\ (start + max_tokens <= snd w \/ snd w = len)%Z.
Proof.
  intros Hchain. inversion Hchain; subst; simpl; split; try reflexivity; lia.
Qed.

Lemma chain_nonempty (start : Z) (ws : list (Z * Z)) :
  window_chain len max_tokens overlap start ws -> ws <> [].
Proof.
  intros Hchain. inversion Hchain; discriminate.
Qed.

(** After the first window, the fresh tokens of the others are what is left
    of the sequence. *)
Lemma chain_fresh {Tok : Type} (toks : list Tok) (start : Z) (ws : list (Z * Z)) :
  len = Z.of_nat (length toks) ->
  (0 <= start)%Z ->
  window_chain len max_tokens overlap start ws ->
  forall w rest,
    ws = w :: rest ->
    flat_map (fresh_tokens toks overlap) rest = slice toks (snd w) len.
Proof.
  intros Hlen H0 Hchain.
  induction Hchain as [start Hs Hl | start ws Hs Hrest IH];
    intros w rest Hws; inversion Hws; subst w rest; clear Hws.
  - simpl. rewrite slice_in_range by lia.
    rewrite Z.sub_diag. reflexivity.
  - destruct ws as [| w' rest']; [exfalso; eapply chain_nonempty; eauto |].
    destruct (chain_head Hrest) as [Hfst Hsnd].
    assert (H0' : (0 <= start + max_tokens - overlap)%Z) by lia.
    pose proof (chain_bounds H0' Hrest) as Hb.
    inversion Hb as [| ? ? [Hw1 [Hw2 Hw3]] _]; subst.
    cbn [flat_map]. rewrite (IH H0' w' rest' eq_refl).
    unfold fresh_tokens. rewrite Hfst. cbn [snd].
    replace (start + max_tokens - overlap + overlap)%Z
      with (start + max_tokens)%Z by lia.
    apply slice_join; lia.
Qed.

End Shape.

Section ChunkerRuns.
Variable Tok : Type.
Variable encode : string -> list Tok.
Variable decode : list Tok -> string.

(** What a run on a non-empty token sequence looks like. *)
Lemma token_chunk_run (text : string) (max_tokens overlap : Z) :
  (0 <= overlap < max_tokens)%Z ->
  encode text <> [] ->
  exists windows,
    (forall fuel,
        (Z.to_nat (ceil_div (Z.of_nat (length (encode text)))
                            (max_tokens - overlap)) <= fuel)%nat ->
        token_windows encode fuel text max_tokens overlap = Ok windows /\
        token_chunk encode decode fuel text max_tokens overlap
        = Ok (map (chunk_of decode (encode text)) windows)) /\
    window_chain (Z.of_nat (length (encode text))) max_tokens overlap 0 windows.
Proof.
  intros Hcfg Hne.
  set (len := Z.of_nat (length (encode text))).
  set (bound := Z.to_nat (ceil_div len (max_tokens - overlap))).
  assert (Hlen : (0 < len)%Z).
  { subst len. destruct (encode text); [congruence | simpl; lia]. }
  assert (Hstep : (0 < max_tokens - overlap)%Z) by lia.
  pose proof (ceil_div_covers len Hstep) as Hcov.
  pose proof (ceil_div_pos Hstep Hlen) as Hone.
  destruct (@token_windows_loop_chain len max_tokens overlap Hcfg bound 0 [])
    as [windows [Hrun Hchain]].
  - lia.
  - subst bound. lia.
  - subst bound. rewrite Z2Nat.id by lia. nia.
  - simpl in Hrun. exists windows. split; [| exact Hchain].
    intros fuel Hfuel.
    assert (Hw : token_windows encode fuel text max_tokens overlap = Ok windows).
    { unfold token_windows. fold len.
      apply token_windows_loop_more_fuel with (fuel := bound); assumption. }
    split; [exact Hw |].
    rewrite token_chunk_windows, Hw. reflexivity.
Qed.

(** X1.  For [0 <= overlap < max_tokens] and a non-empty token sequence the
    emitted windows form a chain from 0: each window but the last holds
    exactly [max_tokens] tokens and the next starts [overlap] tokens before
    its end; the last one stops at the end of the sequence. *)
Theorem token_chunk_window_chain (text : string) (max_tokens overlap : Z) :
  (0 <= overlap < max_tokens)%Z ->
  encode text <> [] ->
  exists windows,
    token_chunk encode decode
                (Z.to_nat (ceil_div (Z.of_nat (length (encode text)))
                                    (max_tokens - overlap)))
                text max_tokens overlap
    = Ok (map (chunk_of decode (encode text)) windows) /\
    window_chain (Z.of_nat (length (encode text))) max_tokens overlap 0 windows.
Proof.
  intros Hcfg Hne.
  destruct (@token_chunk_run text max_tokens overlap Hcfg Hne) as [windows [Hrun Hchain]].
  exists windows. split; [apply Hrun; lia | exact Hchain].
Qed.

(** X2.  No chunk is empty and none holds more than [max_tokens] tokens. *)
Theorem token_chunk_sizes (text : string) (max_tokens overlap : Z) :
  (0 <= overlap < max_tokens)%Z ->
  encode text <> [] ->
  exists windows,
    token_chunk encode decode
                (Z.to_nat (ceil_div (Z.of_nat (length (encode text)))
                                    (max_tokens - overlap)))
                text max_tokens overlap
    = Ok (map (fun w => decode (slice (encode text) (fst w) (snd w))) windows) /\
    Forall (fun w =>
              (1 <= Z.of_nat (length (slice (encode text) (fst w) (snd w)))
               <= max_tokens)%Z)
           windows.
Proof.
  intros Hcfg Hne.
  destruct (@token_chunk_run text max_tokens overlap Hcfg Hne) as [windows [Hrun Hchain]].
  exists windows. split; [apply Hrun; lia |].
  eapply Forall_impl; [| apply (chain_bounds Hcfg (Z.le_refl 0) Hchain)].
  intros w [Hw1 [Hw2 Hw3]]. rewrite slice_length by lia. lia.
Qed.

(** X3.  The number of chunks: none for an empty token sequence, otherwise
    one plus [ceil((len - max_tokens) / (max_tokens - overlap))] when the
    sequence is longer than a window. *)
Theorem token_chunk_count (text : string) (max_tokens overlap : Z) :
  (0 <= overlap < max_tokens)%Z ->
  exists chunks,
    (forall fuel,
        (Z.to_nat (ceil_div (Z.of_nat (length (encode text)))
                            (max_tokens - overlap)) <= fuel)%nat ->
        token_chunk encode decode fuel text max_tokens overlap = Ok chunks) /\
    Z.of_nat (length chunks)
    = match encode text with
      | [] => 0%Z
      | _ :: _ =>
          (1 + ceil_div (Z.max 0 (Z.of_nat (length (encode text)) - max_tokens))
                        (max_tokens - overlap))%Z
      end.
Proof.
  intros Hcfg.
  destruct (encode text) as [| t toks'] eqn:E.
  - exists []. split; [| reflexivity].
    intros fuel _. unfold token_chunk. rewrite E.
    destruct fuel; reflexivity.
  - assert (Hne : encode text <> []) by (rewrite E; discriminate).
    destruct (@token_chunk_run text max_tokens overlap Hcfg Hne) as [windows [Hrun Hchain]].
    rewrite E in Hrun, Hchain.
    exists (map (chunk_of decode (t :: toks')) windows). split.
    + intros fuel Hfuel. apply Hrun. exact Hfuel.
    + rewrite length_map, (chain_count Hcfg Hchain).
      rewrite Z.sub_0_r. reflexivity.
Qed.

(** X4.  Nothing is lost between the windows: the tokens of the first
    window, followed by those of every later window without its first
    [overlap] tokens, are the token sequence. *)
Theorem token_chunk_reconstructs (text : string) (max_tokens overlap : Z) :
  (0 <= overlap < max_tokens)%Z ->
  encode text <> [] ->
  exists first rest,
    token_chunk encode decode
                (Z.to_nat (ceil_div (Z.of_nat (length (encode text)))
                                    (max_tokens - overlap)))
                text max_tokens overlap
    = Ok (map (chunk_of decode (encode text)) (first :: rest)) /\
    slice (encode text) (fst first) (snd first)
    ++ flat_map (fresh_tokens (encode text) overlap) rest
    = encode text.
Proof.
  intros Hcfg Hne.
  destruct (@token_chunk_run text max_tokens overlap Hcfg Hne) as [windows [Hrun Hchain]].
  destruct windows as [| first rest]; [exfalso; eapply chain_nonempty; eauto |].
  exists first, rest. split; [apply Hrun; lia |].
  destruct (chain_head Hchain) as [Hfst _].
  pose proof (chain_bounds Hcfg (Z.le_refl 0) Hchain) as Hb.
  inversion Hb as [| ? ? [Hw1 [Hw2 _]] _]; subst.
  rewrite (chain_fresh Hcfg (encode text) eq_refl (Z.le_refl 0) Hchain eq_refl).
  rewrite Hfst, slice_join by lia. apply slice_all.
Qed.

(** X5.  With [overlap >= max_tokens] and more tokens than one window
    takes, the chunker neither returns nor raises: the second window starts
    at 0 again, and so does every window after it. *)
Theorem token_chunk_never_returns (text : string) (max_tokens overlap : Z) :
  (max_tokens <= overlap)%Z ->
  (max_tokens < Z.of_nat (length (encode text)))%Z ->
  encode text <> [] ->
  forall fuel,
    token_chunk encode decode fuel text max_tokens overlap = OutOfFuel.
Proof.
  intros Hcfg Hlong Hne fuel. unfold token_chunk.
  apply token_chunk_loop_stuck; assumption.
Qed.

End ChunkerRuns.

Lemma token_chunk_window_chain_witness :
  (0 <= 1 < 3)%Z /\
  Stub.char_encode "abcdefg" <> [] /\
  exists windows,
    token_chunk Stub.char_encode Stub.char_decode
                (Z.to_nat (ceil_div (Z.of_nat (length (Stub.char_encode "abcdefg")))
                                    (3 - 1)))
                "abcdefg" 3 1
    = Ok (map (chunk_of Stub.char_decode (Stub.char_encode "abcdefg")) windows) /\
    window_chain (Z.of_nat (length (Stub.char_encode "abcdefg"))) 3 1 0 windows.
Proof.
  split; [lia |]. split; [discriminate |].
  apply (@token_chunk_window_chain Ascii.ascii Stub.char_encode Stub.char_decode
                                   "abcdefg" 3 1); [lia | discriminate].
Defined.

Lemma token_chunk_sizes_witness :
  (0 <= 1 < 3)%Z /\
  Stub.char_encode "abcdefg" <> [] /\
  exists windows,
    token_chunk Stub.char_encode Stub.char_decode
                (Z.to_nat (ceil_div (Z.of_nat (length (Stub.char_encode "abcdefg")))
                                    (3 - 1)))
                "abcdefg" 3 1
    = Ok (map (fun w => Stub.char_decode
                          (slice (Stub.char_encode "abcdefg") (fst w) (snd w)))
              windows) /\
    Forall (fun w =>
              (1 <= Z.of_nat (length (slice (Stub.char_encode "abcdefg")
                                            (fst w) (snd w)))
               <= 3)%Z)
           windows.
Proof.
  split; [lia |]. split; [discriminate |].
  apply (@token_chunk_sizes Ascii.ascii Stub.char_encode Stub.char_decode
                            "abcdefg" 3 1); [lia | discriminate].
Defined.

Lemma token_chunk_count_witness :
  (0 <= 1 < 3)%Z /\
  exists chunks,
    (forall fuel,
        (Z.to_nat (ceil_div (Z.of_nat (length (Stub.char_encode "abcdefg")))
                            (3 - 1)) <= fuel)%nat ->
        token_chunk Stub.char_encode Stub.char_decode fuel "abcdefg" 3 1
        = Ok chunks) /\
    Z.of_nat (length chunks)
    = match Stub.char_encode "abcdefg" with
      | [] => 0%Z
      | _ :: _ =>
          (1 + ceil_div (Z.max 0 (Z.of_nat (length (Stub.char_encode "abcdefg")) - 3))
                        (3 - 1))%Z
      end.
Proof.
  split; [lia |].
  apply (@token_chunk_count Ascii.ascii Stub.char_encode Stub.char_decode
                            "abcdefg" 3 1); lia.
Defined.

Lemma token_chunk_reconstructs_witness :
  (0 <= 1 < 3)%Z /\
  Stub.char_encode "abcdefg" <> [] /\
  exists first rest,
    token_chunk Stub.char_encode Stub.char_decode
                (Z.to_nat (ceil_div (Z.of_nat (length (Stub.char_encode "abcdefg")))
                                    (3 - 1)))
                "abcdefg" 3 1
    = Ok (map (chunk_of Stub.char_decode (Stub.char_encode "abcdefg"))
              (first :: rest)) /\
    slice (Stub.char_encode "abcdefg") (fst first) (snd first)
    ++ flat_map (fresh_tokens (Stub.char_encode "abcdefg") 1) rest
    = Stub.char_encode "abcdefg".
Proof.
  split; [lia |]. split; [discriminate |].
  apply (@token_chunk_reconstructs Ascii.ascii Stub.char_encode Stub.char_decode
                                   "abcdefg" 3 1); [lia | discriminate].
Defined.

Lemma token_chunk_never_returns_witness :
  (2 <= 2)%Z /\
  (2 < Z.of_nat (length (Stub.char_encode "abcde")))%Z /\
  Stub.char_encode "abcde" <> [] /\
  forall fuel,
    token_chunk Stub.char_encode Stub.char_decode fuel "abcde" 2 2 = OutOfFuel.
Proof.
  split; [lia |]. split; [simpl; lia |]. split; [discriminate |].
  apply (@token_chunk_never_returns Ascii.ascii Stub.char_encode Stub.char_decode
                                    "abcde" 2 2); [lia | simpl; lia | discriminate].
Defined.

End ChunkerShape.

(* ===================================================================== *)
(** ** More on [retrieve]: size of the result, failures *)
(* ===================================================================== *)

Module RetrieveMore.
Import Py PyFacts Rag RetrieveFacts.

Lemma Forall2_same_length {A B : Type} (P : A -> B -> Prop) (l : list A) (m : list B) :
  Forall2 P l m -> length l = length m.
Proof.
  induction 1; simpl; congruence.
Qed.

(** What the MMR branch returns, for any [k]. *)
Lemma mmr_branch_size (np : Np.Numpy) (items : list Hit) (emb_chunks : list Vec) (k : Z) :
  length emb_chunks = length items ->
  exists selected out,
    mmr_select np items emb_chunks k = Ok selected /\
    mapM (item_at items) selected = Ok out /\
    Forall2 (fun i h => nth_error items i = Some h) selected out /\
    NoDup selected /\
    incl selected (seq 0 (length items)) /\
    Z.of_nat (length selected) = Z.max 0 (Z.min k (Z.of_nat (length items))).
Proof.
  intros Hrows.
  assert (Hrange : Forall (fun i => (i < length items)%nat) (set_range (length items))).
  { rewrite Forall_forall. intros i Hi. apply in_seq in Hi. lia. }
  destruct (@MmrFacts.mmr_loop_spec np items emb_chunks k Hrows (length items) []
                                    (set_range (length items)))
    as [selected [Hrun [Hnd [Hincl Hcount]]]].
  - apply seq_NoDup.
  - constructor.
  - exact Hrange.
  - constructor.
  - intros i [].
  - unfold set_range. rewrite length_seq. lia.
  - simpl in Hrun, Hnd.
    assert (Hsel : Forall (fun i => (i < length items)%nat) selected).
    { rewrite Forall_forall in Hrange |- *. intros i Hi. apply Hrange, Hincl, Hi. }
    destruct (MmrFacts.mapM_item_at_Forall2 items Hsel) as [out [Hout Hall]].
    exists selected, out.
    repeat split; try assumption.
    unfold set_range in Hcount. rewrite length_seq in Hcount.
    simpl in Hcount. rewrite Z.sub_0_r in Hcount. exact Hcount.
Qed.

(** The number of hits [retrieve] returns. *)
Lemma retrieve_count
      (W : World) (query : string) (k : Z) (mmr : bool)
      (embedder : Embedder) (q_emb : Vec) (res : QueryResult) (items : list Hit) :
  (0 <= k)%Z ->
  stage0 W query k mmr embedder q_emb res ->
  one_row_per_text embedder ->
  items_of res = Ok items ->
  exists out,
    snd (run (retrieve W query k mmr)) = Ok out /\
    Z.of_nat (length out) = Z.min k (Z.of_nat (length items)).
Proof.
  intros Hk Hs Hrows Hitems. destruct mmr.
  - destruct (Hrows (map doc items)) as [emb [Hemb Hlen]].
    rewrite length_map in Hlen.
    destruct (@mmr_branch_size (numpy W) items emb k Hlen)
      as [selected [out [Hsel [Hmap [Hall [_ [_ Hcount]]]]]]].
    exists out. rewrite (retrieve_mmr Hs Hitems Hemb).
    simpl. rewrite Hsel. simpl. split; [exact Hmap |].
    rewrite <- (Forall2_same_length Hall). lia.
  - exists (take k (sorted dist items)).
    rewrite (retrieve_plain Hs Hitems). simpl.
    split; [reflexivity |].
    rewrite (take_nonneg _ Hk), length_firstn.
    rewrite (Permutation_length (sorted_perm dist items)). lia.
Qed.

(** What [retrieve] returns, for any [k]. *)
Lemma retrieve_candidates
      (W : World) (query : string) (k : Z) (mmr : bool)
      (embedder : Embedder) (q_emb : Vec) (res : QueryResult) (items : list Hit) :
  stage0 W query k mmr embedder q_emb res ->
  one_row_per_text embedder ->
  items_of res = Ok items ->
  exists out,
    snd (run (retrieve W query k mmr)) = Ok out /\
    incl out items /\
    (mmr = false -> out = take k (sorted dist items)) /\
    ((0 <= k)%Z -> Z.of_nat (length out) = Z.min k (Z.of_nat (length items))).
Proof.
  intros Hs Hrows Hitems. destruct mmr.
  - destruct (Hrows (map doc items)) as [emb [Hemb Hlen]].
    rewrite length_map in Hlen.
    destruct (@mmr_branch_size (numpy W) items emb k Hlen)
      as [selected [out [Hsel [Hmap [Hall [_ [_ Hcount]]]]]]].
    exists out. rewrite (retrieve_mmr Hs Hitems Hemb).
    simpl. rewrite Hsel. simpl. split; [exact Hmap |]. split.
    + eapply DistanceFacts.Forall2_nth_error_incl; exact Hall.
    + split; [discriminate |]. intros Hk.
      rewrite <- (Forall2_same_length Hall). lia.
  - exists (take k (sorted dist items)).
    rewrite (retrieve_plain Hs Hitems). simpl.
    split; [reflexivity |]. split.
    + intros h Hh. apply DistanceFacts.take_incl in Hh.
      apply (Permutation_in _ (sorted_perm dist items)). exact Hh.
    + split; [reflexivity |]. intros Hk.
      rewrite (take_nonneg _ Hk), length_firstn.
      rewrite (Permutation_length (sorted_perm dist items)). lia.
Qed.

(** X6.  For a count [k >= 0], answered Stage-0 calls and one embedding row
    per text, [retrieve] returns exactly [min(k, number of candidates)]
    hits, with or without MMR, and each of them is a candidate. *)
Theorem retrieve_result_size
        (W : World) (query : string) (k : Z) (mmr : bool)
        (embedder : Embedder) (q_emb : Vec) (res : QueryResult) (items : list Hit) :
  (0 <= k)%Z ->
  stage0 W query k mmr embedder q_emb res ->
  one_row_per_text embedder ->
  items_of res = Ok items ->
  exists out,
    snd (run (retrieve W query k mmr)) = Ok out /\
    Z.of_nat (length out) = Z.min k (Z.of_nat (length items)) /\
    incl out items.
Proof.
  intros Hk Hs Hrows Hitems. destruct mmr.
  - destruct (Hrows (map doc items)) as [emb [Hemb Hlen]].
    rewrite length_map in Hlen.
    destruct (@mmr_branch_size (numpy W) items emb k Hlen)
      as [selected [out [Hsel [Hmap [Hall [_ [_ Hcount]]]]]]].
    exists out. rewrite (retrieve_mmr Hs Hitems Hemb).
    simpl. rewrite Hsel. simpl. split; [exact Hmap |]. split.
    + rewrite <- (Forall2_same_length Hall). lia.
    + eapply DistanceFacts.Forall2_nth_error_incl; exact Hall.
  - exists (take k (sorted dist items)).
    rewrite (retrieve_plain Hs Hitems). simpl.
    split; [reflexivity |]. split.
    + rewrite (take_nonneg _ Hk), length_firstn.
      rewrite (Permutation_length (sorted_perm dist items)). lia.
    + intros h Hh. apply DistanceFacts.take_incl in Hh.
      apply (Permutation_in _ (sorted_perm dist items)). exact Hh.
Qed.

(** X7.  When [k] is at least the number of candidates, [retrieve] returns
    all of them, each once: a reordering of the candidates, nothing padded
    and nothing lost, with or without MMR. *)
Theorem retrieve_returns_all
        (W : World) (query : string) (k : Z) (mmr : bool)
        (embedder : Embedder) (q_emb : Vec) (res : QueryResult) (items : list Hit) :
  (Z.of_nat (length items) <= k)%Z ->
  stage0 W query k mmr embedder q_emb res ->
  one_row_per_text embedder ->
  items_of res = Ok items ->
  exists out,
    snd (run (retrieve W query k mmr)) = Ok out /\
    Permutation out items.
Proof.
  intros Hk Hs Hrows Hitems. destruct mmr.
  - destruct (Hrows (map doc items)) as [emb [Hemb Hlen]].
    rewrite length_map in Hlen.
    destruct (@mmr_branch_size (numpy W) items emb k Hlen)
      as [selected [out [Hsel [Hmap [Hall [Hnd [Hincl Hcount]]]]]]].
    exists out. rewrite (retrieve_mmr Hs Hitems Hemb).
    simpl. rewrite Hsel. simpl. split; [exact Hmap |].
    apply (@StageFacts.pick_permutation Hit items selected out); [| exact Hall].
    apply NoDup_Permutation_bis; [exact Hnd | | exact Hincl].
    rewrite length_seq. lia.
  - exists (take k (sorted dist items)).
    rewrite (retrieve_plain Hs Hitems). simpl.
    split; [reflexivity |].
    rewrite take_nonneg by lia.
    rewrite firstn_all2
      by (rewrite (Permutation_length (sorted_perm dist items)); lia).
    apply sorted_perm.
Qed.

(** X8.  The index is queried only once the query is embedded, and hits
    come only out of an index answer: if the collection, the embedder or
    the embedding of the query is not there, [retrieve] makes no index
    query and returns no hits. *)
Theorem retrieve_no_query_without_embedding
        (W : World) (query : string) (k : Z) (mmr : bool) :
  (forall col embedder q_emb rest,
      get_collection W = Ok col ->
      get_embedder W = Ok embedder ->
      encode embedder [query] <> Ok (q_emb :: rest)) ->
  filter is_call_query (fst (run (retrieve W query k mmr))) = [] /\
  forall out, snd (run (retrieve W query k mmr)) <> Ok out.
Proof.
  intros Hfail.
  unfold run, retrieve, bind, perform, lift, ret.
  destruct (get_collection W) as [col | e |]; simpl;
    try (split; [reflexivity | discriminate]).
  destruct (get_embedder W) as [embedder | e |]; simpl;
    try (split; [reflexivity | discriminate]).
  specialize (Hfail col embedder).
  destruct (encode embedder [query]) as [[| q_emb rest] | e |]; simpl;
    try (split; [reflexivity | discriminate]).
  exfalso. exact (Hfail q_emb rest eq_refl eq_refl eq_refl).
Qed.

Lemma zip_hits_length (docs : list string) :
  forall (metas : list Meta) (dists : list Q),
    length (zip_hits docs metas dists)
    = Nat.min (length docs) (Nat.min (length metas) (length dists)).
Proof.
  induction docs as [| d docs IH]; intros metas dists; [reflexivity |].
  destruct metas as [| m metas]; [reflexivity |].
  destruct dists as [| x dists]; [simpl; lia |].
  simpl. rewrite IH. reflexivity.
Qed.

Lemma zip_hits_docs (docs : list string) :
  forall (metas : list Meta) (dists : list Q),
    map doc (zip_hits docs metas dists)
    = firstn (length (zip_hits docs metas dists)) docs.
Proof.
  induction docs as [| d docs IH]; intros metas dists; [reflexivity |].
  destruct metas as [| m metas]; [reflexivity |].
  destruct dists as [| x dists]; [reflexivity |].
  simpl. rewrite IH. reflexivity.
Qed.

(** X23.  The candidates are built with [zip]: when the answer of the index
    has lists of different lengths, there are as many candidates as the
    shortest list has entries, and the documents beyond are left out
    without an error. *)
Theorem items_of_cut_to_shortest
        (res : QueryResult) (docs : list string) (metas : list Meta) (dists : list Q)
        (more_docs : list (list string)) (more_metas : list (list Meta))
        (more_dists : list (list Q)) :
  documents res = docs :: more_docs ->
  metadatas res = metas :: more_metas ->
  distances res = Some (dists :: more_dists) ->
  exists items,
    items_of res = Ok items /\
    length items = Nat.min (length docs) (Nat.min (length metas) (length dists)) /\
    map doc items = firstn (length items) docs.
Proof.
  intros Hdocs Hmetas Hdists.
  exists (zip_hits docs metas dists).
  split; [unfold items_of; rewrite Hdocs, Hmetas, Hdists; reflexivity |].
  split; [apply zip_hits_length | apply zip_hits_docs].
Qed.

(** X24.  When Stage 0 is answered and the embedder returns one row per
    text, [retrieve] queries the index once; it calls the embedder once
    without MMR and twice with MMR, the second time with the texts of all
    the candidates in one batch. *)
Theorem retrieve_call_counts
        (W : World) (query : string) (k : Z) (mmr : bool)
        (embedder : Embedder) (q_emb : Vec) (res : QueryResult) (items : list Hit) :
  stage0 W query k mmr embedder q_emb res ->
  one_row_per_text embedder ->
  items_of res = Ok items ->
  length (filter is_call_query (fst (run (retrieve W query k mmr)))) = 1%nat /\
  length (filter is_call_encode (fst (run (retrieve W query k mmr))))
  = (if mmr then 2%nat else 1%nat) /\
  (mmr = true ->
   fst (run (retrieve W query k mmr))
   = stage0_calls query q_emb (candidate_count k mmr) ++ [CallEncode (map doc items)]).
Proof.
  intros Hs Hrows Hitems. destruct mmr.
  - destruct (Hrows (map doc items)) as [emb [Hemb _]].
    rewrite (retrieve_mmr Hs Hitems Hemb). cbn [fst].
    repeat split; reflexivity.
  - rewrite (retrieve_plain Hs Hitems). cbn [fst].
    repeat split; try reflexivity. discriminate.
Qed.

End RetrieveMore.

(* ===================================================================== *)
(** ** An answer without distances *)
(* ===================================================================== *)

Module MissingDistances.
Import Py PyFacts Rag.

(** C9.  When the answer of the index has no [distances], [retrieve]
    builds one hit per document and metadata pair, each with distance 0.0,
    and returns hits of distance 0.0 only: all it returns, with or without
    MMR; for a count [k >= 0] these are [min(k, number of pairs)] hits, and
    without MMR they are the first ones in the order of the answer.  To the
    MMR score each has query similarity [1 - 0.0 = 1], and to the BM25 mix
    normalized similarity 1, whatever the largest distance: the greatest
    similarity a hit of non-negative distance can have. *)
Theorem retrieve_missing_distances
        (W : World) (query : string) (k : Z) (mmr : bool)
        (embedder : Embedder) (q_emb : Vec) (res : QueryResult)
        (docs : list string) (metas : list Meta)
        (more_docs : list (list string)) (more_metas : list (list Meta)) :
  stage0 W query k mmr embedder q_emb res ->
  one_row_per_text embedder ->
  distances res = None ->
  documents res = docs :: more_docs ->
  metadatas res = metas :: more_metas ->
  items_of res = Ok (hits_at_zero docs metas) /\
  length (hits_at_zero docs metas) = Nat.min (length docs) (length metas) /\
  exists out,
    snd (run (retrieve W query k mmr)) = Ok out /\
    incl out (hits_at_zero docs metas) /\
    Forall (fun h => dist h = 0) out /\
    Forall (fun h => Fl.sub 1 (dist h) = 1 /\ forall dmax, sim_of dmax (dist h) = 1)
           out /\
    ((0 <= k)%Z ->
     Z.of_nat (length out)
     = Z.min k (Z.of_nat (Nat.min (length docs) (length metas))) /\
     (mmr = false -> out = firstn (Z.to_nat k) (hits_at_zero docs metas))).
Proof.
  intros Hs Hrows Hnone Hdocs Hmetas.
  set (items := hits_at_zero docs metas).
  assert (Hitems : items_of res = Ok items).
  { unfold items_of. rewrite Hdocs, Hmetas, Hnone. cbn [item_at nth_error rbind].
    rewrite DistanceFacts.zip_hits_zero. reflexivity. }
  assert (Hzero : Forall (fun h => dist h = 0) items)
    by apply DistanceFacts.hits_at_zero_dist.
  assert (Hlen : length items = Nat.min (length docs) (length metas)).
  { unfold items, hits_at_zero. rewrite length_map, length_combine. reflexivity. }
  split; [exact Hitems |]. split; [exact Hlen |].
  destruct (RetrieveMore.retrieve_candidates Hs Hrows Hitems)
    as [out [Hrun [Hincl [Hplain Hcount]]]].
  exists out. split; [exact Hrun |]. split; [exact Hincl |].
  assert (Hz : Forall (fun h => dist h = 0) out).
  { rewrite Forall_forall in Hzero |- *. intros h Hh. apply Hzero, Hincl, Hh. }
  split; [exact Hz |]. split.
  - eapply Forall_impl; [| exact Hz].
    intros h Hh. rewrite Hh. split; [exact FlFacts.sub_1_0 |].
    intros dmax. unfold sim_of. rewrite FlFacts.div_0_l. exact FlFacts.sub_1_0.
  - intros Hk. split.
    + rewrite <- Hlen. apply Hcount. exact Hk.
    + intros Hm. rewrite (Hplain Hm).
      rewrite (@DistanceFacts.sorted_same_key Hit dist 0 items Hzero).
      apply (take_nonneg _ Hk).
Qed.

Lemma retrieve_missing_distances_witness :
  stage0 (Stub.world false Stub.corpus3) "q" 2 true Stub.embedder [1]
         (Stub.answer false Stub.corpus3 6) /\
  one_row_per_text Stub.embedder /\
  distances (Stub.answer false Stub.corpus3 6) = None /\
  (items_of (Stub.answer false Stub.corpus3 6)
   = Ok (hits_at_zero ["alpha"; "beta"; "gamma"]%string (map meta Stub.corpus3)) /\
   length (hits_at_zero ["alpha"; "beta"; "gamma"]%string (map meta Stub.corpus3))
   = Nat.min (length ["alpha"; "beta"; "gamma"]%string)
             (length (map meta Stub.corpus3)) /\
   exists out,
     snd (run (retrieve (Stub.world false Stub.corpus3) "q" 2 true)) = Ok out /\
     incl out (hits_at_zero ["alpha"; "beta"; "gamma"]%string
                            (map meta Stub.corpus3)) /\
     Forall (fun h => dist h = 0) out /\
     Forall (fun h => Fl.sub 1 (dist h) = 1 /\ forall dmax, sim_of dmax (dist h) = 1)
            out /\
     ((0 <= 2)%Z ->
      Z.of_nat (length out)
      = Z.min 2 (Z.of_nat (Nat.min (length ["alpha"; "beta"; "gamma"]%string)
                                   (length (map meta Stub.corpus3)))) /\
      (true = false ->
       out = firstn (Z.to_nat 2)
                    (hits_at_zero ["alpha"; "beta"; "gamma"]%string
                                  (map meta Stub.corpus3))))).
Proof.
  assert (H : stage0 (Stub.world false Stub.corpus3) "q" 2 true Stub.embedder [1]
                     (Stub.answer false Stub.corpus3 6)).
  { exists (Stub.collection false Stub.corpus3), [].
    repeat split; reflexivity. }
  split; [exact H |]. split; [exact DistanceFacts.stub_embedder_one_row |].
  split; [reflexivity |].
  apply (@retrieve_missing_distances
           (Stub.world false Stub.corpus3) "q" 2 true Stub.embedder [1]
           (Stub.answer false Stub.corpus3 6)
           ["alpha"; "beta"; "gamma"]%string (map meta Stub.corpus3) [] []
           H DistanceFacts.stub_embedder_one_row);
    reflexivity.
Defined.

End MissingDistances.

(* ===================================================================== *)
(** ** More on MMR: every pick is greedy *)
(* ===================================================================== *)

Module MmrGreedy.
Import Py PyFacts Rag MmrFacts.

Lemma increasing_NoDup (l : list nat) : StronglySorted lt l -> NoDup l.
Proof.
  induction 1 as [| x l _ IH Hx]; constructor; [| exact IH].
  intros Hin. rewrite Forall_forall in Hx. specialize (Hx x Hin). lia.
Qed.

Lemma increasing_remove (x : nat) (l : list nat) :
  StronglySorted lt l -> StronglySorted lt (set_remove x l).
Proof.
  unfold set_remove. induction 1 as [| a l _ IH Ha]; simpl.
  - constructor.
  - destruct (Nat.eq_dec x a); [exact IH |].
    constructor; [exact IH |].
    rewrite Forall_forall in Ha |- *. intros y Hy.
    apply in_remove in Hy. apply Ha. apply Hy.
Qed.

Lemma increasing_after (l1 l2 : list nat) (b : nat) :
  StronglySorted lt (l1 ++ b :: l2) -> Forall (lt b) l2.
Proof.
  induction l1 as [| a l1 IH]; simpl; intros Hs; inversion Hs; subst.
  - assumption.
  - apply IH. assumption.
Qed.

(** In an increasing list cut around [b], what is smaller than [b] comes
    before it. *)
Lemma increasing_before (l1 l2 : list nat) (b j : nat) :
  StronglySorted lt (l1 ++ b :: l2) ->
  In j (l1 ++ b :: l2) -> (j < b)%nat -> In j l1.
Proof.
  intros Hs Hin Hlt.
  apply in_app_or in Hin. destruct Hin as [Hin | [-> | Hin]];
    [exact Hin | lia |].
  pose proof (increasing_after _ _ _ Hs) as Hafter.
  rewrite Forall_forall in Hafter. specialize (Hafter j Hin). lia.
Qed.

Section Greedy.
Variable np : Np.Numpy.
Variable items : list Hit.
Variable emb_chunks : list Vec.
Variable k : Z.
Hypothesis rows : length emb_chunks = length items.

(** One pass of the loop once something is selected: the pick is [max]'s. *)
Lemma mmr_loop_pick (fuel : nat) (selected cand : list nat) :
  cand <> [] ->
  (Z.of_nat (length selected) < k)%Z ->
  Forall (fun i => (i < length items)%nat) cand ->
  Forall (fun i => (i < length items)%nat) selected ->
  exists best,
    In best cand /\
    mmr_loop np (S fuel) items emb_chunks k selected cand
    = mmr_loop np fuel items emb_chunks k (selected ++ [best]) (set_remove best cand) /\
    (selected <> [] ->
     max_key (mmr_score np items emb_chunks selected) cand = Ok best).
Proof.
  intros Hne Hlt Hcand Hsel.
  destruct selected as [| s0 selected'].
  - destruct (@mmr_loop_step np items emb_chunks k rows fuel [] cand Hne Hlt Hcand Hsel)
      as [best [Hin [Hstep _]]].
    exists best. split; [exact Hin |]. split; [exact Hstep | congruence].
  - cbn [mmr_loop].
    replace (negb (length cand =? 0)%nat) with true
      by (destruct cand; [congruence | reflexivity]).
    replace (Z.of_nat (length (s0 :: selected')) <? k)%Z with true
      by (symmetry; apply Z.ltb_lt; exact Hlt).
    cbn [andb].
    destruct (@max_key_in nat (mmr_score np items emb_chunks (s0 :: selected')) cand Hne)
      as [best [Hbest Hin]].
    + rewrite Forall_forall in Hcand |- *. intros i Hi.
      apply (@mmr_score_ok np items emb_chunks rows);
        [apply Hcand; exact Hi | discriminate | exact Hsel].
    + exists best. rewrite Hbest. simpl.
      split; [exact Hin |]. split; [reflexivity | intros _; reflexivity].
Qed.

(** What [max] guarantees for a pick among increasing candidates. *)
Lemma max_pick_greedy (selected cand : list nat) (best : nat) :
  selected <> [] ->
  Forall (fun i => (i < length items)%nat) selected ->
  Forall (fun i => (i < length items)%nat) cand ->
  StronglySorted lt cand ->
  max_key (mmr_score np items emb_chunks selected) cand = Ok best ->
  exists qbest,
    mmr_score np items emb_chunks selected best = Ok qbest /\
    forall j,
      In j cand ->
      exists qj,
        mmr_score np items emb_chunks selected j = Ok qj /\
        qj <= qbest /\ ((j < best)%nat -> qj < qbest).
Proof.
  intros Hne Hsel Hcand Hinc Hmax.
  set (f := fun j => match mmr_score np items emb_chunks selected j with
                     | Ok q => q
                     | _ => 0
                     end).
  assert (Hkey : Forall (fun j => mmr_score np items emb_chunks selected j = Ok (f j)) cand).
  { rewrite Forall_forall in Hcand |- *. intros j Hj.
    destruct (@mmr_score_ok np items emb_chunks rows selected j (Hcand j Hj) Hne Hsel)
      as [q Hq].
    unfold f. rewrite Hq. reflexivity. }
  assert (Hcne : cand <> []).
  { intros ->. discriminate. }
  destruct (@max_key_first nat (mmr_score np items emb_chunks selected) f cand Hcne Hkey)
    as [b [l1 [l2 [Hb [Hsplit [H1 H2]]]]]].
  rewrite Hmax in Hb. inversion Hb; subst b.
  rewrite Forall_forall in Hkey, H1, H2.
  assert (Hbin : In best cand) by (rewrite Hsplit; apply in_elt).
  exists (f best). split; [apply Hkey; exact Hbin |].
  intros j Hj. exists (f j). split; [apply Hkey; exact Hj |].
  split.
  - rewrite Hsplit in Hj. apply in_app_or in Hj.
    destruct Hj as [Hj | [<- | Hj]].
    + apply Qlt_le_weak. apply H1. exact Hj.
    + apply Qle_refl.
    + apply H2. exact Hj.
  - intros Hlt. apply H1.
    rewrite Hsplit in Hinc, Hj.
    exact (increasing_before _ _ Hinc Hj Hlt).
Qed.

Lemma mmr_loop_greedy :
  forall fuel selected cand,
    StronglySorted lt cand ->
    (forall j, In j cand <-> (j < length items)%nat /\ ~ In j selected) ->
    Forall (fun i => (i < length items)%nat) selected ->
    (length cand <= fuel)%nat ->
    exists more,
      mmr_loop np fuel items emb_chunks k selected cand = Ok (selected ++ more) /\
      forall pre best post,
        more = pre ++ best :: post ->
        selected ++ pre <> [] ->
        exists qbest,
          mmr_score np items emb_chunks (selected ++ pre) best = Ok qbest /\
          forall j,
            (j < length items)%nat ->
            ~ In j (selected ++ pre) ->
            exists qj,
              mmr_score np items emb_chunks (selected ++ pre) j = Ok qj /\
              qj <= qbest /\ ((j < best)%nat -> qj < qbest).
Proof.
  induction fuel as [| fuel IH]; intros selected cand Hinc Hcand Hsel Hfuel.
  - destruct cand; [| simpl in Hfuel; lia].
    exists []. simpl. rewrite app_nil_r. split; [reflexivity |].
    intros pre best post Hsplit. destruct pre; discriminate.
  - assert (Hrange : Forall (fun i => (i < length items)%nat) cand).
    { rewrite Forall_forall. intros j Hj. apply Hcand in Hj. apply Hj. }
    assert (Hstop : mmr_loop np (S fuel) items emb_chunks k selected cand = Ok selected ->
                    exists more,
                      mmr_loop np (S fuel) items emb_chunks k selected cand
                      = Ok (selected ++ more) /\
                      forall pre best post,
                        more = pre ++ best :: post ->
                        selected ++ pre <> [] ->
                        exists qbest,
                          mmr_score np items emb_chunks (selected ++ pre) best = Ok qbest /\
                          forall j,
                            (j < length items)%nat ->
                            ~ In j (selected ++ pre) ->
                            exists qj,
                              mmr_score np items emb_chunks (selected ++ pre) j = Ok qj /\
                              qj <= qbest /\ ((j < best)%nat -> qj < qbest)).
    { intros Hrun. exists []. rewrite app_nil_r. split; [exact Hrun |].
      intros pre best post Hsplit. destruct pre; discriminate. }
    destruct cand as [| c cand'] eqn:Ec; [apply Hstop; reflexivity |].
    rewrite <- Ec in *.
    assert (Hne : cand <> []) by (rewrite Ec; discriminate).
    destruct (Z.ltb_spec (Z.of_nat (length selected)) k) as [Hlt | Hge].
    2:{ apply Hstop. cbn [mmr_loop].
        replace (Z.of_nat (length selected) <? k)%Z with false
          by (symmetry; apply Z.ltb_ge; exact Hge).
        rewrite andb_false_r. reflexivity. }
    clear Hstop.
    destruct (@mmr_loop_pick fuel selected cand Hne Hlt Hrange Hsel)
      as [best [Hin [Hstep Hmax]]].
    rewrite Hstep.
    pose proof (@set_remove_length best cand (increasing_NoDup Hinc) Hin) as Hlen.
    destruct (IH (selected ++ [best]) (set_remove best cand))
      as [more [Hrun Hgreedy]].
    + apply increasing_remove. exact Hinc.
    + intros j. rewrite set_remove_in, Hcand, in_app_iff. simpl.
      split.
      * intros [[Hj Hns] Hnb]. split; [exact Hj |].
        intros [Hjs | [Hjb | []]]; [exact (Hns Hjs) | congruence].
      * intros [Hj Hn]. split; [split; [exact Hj |] |].
        -- intros Hjs. apply Hn. left. exact Hjs.
        -- intros ->. apply Hn. right. left. reflexivity.
    + apply Forall_app. split; [exact Hsel |].
      constructor; [| constructor].
      rewrite Forall_forall in Hrange. apply Hrange. exact Hin.
    + lia.
    + exists (best :: more).
      rewrite <- app_assoc in Hrun. simpl in Hrun.
      split; [exact Hrun |].
      intros pre b post Hsplit Hnonempty.
      destruct pre as [| p pre'].
      * simpl in Hsplit. inversion Hsplit; subst b post.
        rewrite app_nil_r in *.
        destruct (@max_pick_greedy selected cand best Hnonempty Hsel Hrange Hinc
                                   (Hmax Hnonempty))
          as [qbest [Hq Hall]].
        exists qbest. split; [exact Hq |].
        intros j Hj Hnj. apply Hall. apply Hcand. split; assumption.
      * simpl in Hsplit. inversion Hsplit; subst p.
        replace (selected ++ best :: pre') with ((selected ++ [best]) ++ pre')
          by (rewrite <- app_assoc; reflexivity).
        apply (Hgreedy pre' b post); [assumption |].
        intros Hnil. apply app_eq_nil in Hnil. destruct Hnil as [Hnil _].
        apply app_eq_nil in Hnil. destruct Hnil as [_ Hnil]. discriminate.
Qed.

End Greedy.

(** X9.  Every pick of the MMR branch after the first is greedy: among the
    candidates not selected before it, it has the highest [mmr_score]
    against those selected before it, and every such candidate at an earlier
    position scores strictly less.  The scores are the rounded ones the
    code compares, whatever the numpy. *)
Theorem mmr_select_greedy (np : Np.Numpy) (items : list Hit) (emb_chunks : list Vec) (k : Z) :
  length emb_chunks = length items ->
  exists selected,
    mmr_select np items emb_chunks k = Ok selected /\
    forall pre best post,
      selected = pre ++ best :: post ->
      pre <> [] ->
      exists qbest,
        mmr_score np items emb_chunks pre best = Ok qbest /\
        forall j,
          (j < length items)%nat ->
          ~ In j pre ->
          exists qj,
            mmr_score np items emb_chunks pre j = Ok qj /\
            qj <= qbest /\ ((j < best)%nat -> qj < qbest).
Proof.
  intros Hrows.
  destruct (@mmr_loop_greedy np items emb_chunks k Hrows (length items) []
                             (set_range (length items)))
    as [selected [Hrun Hgreedy]].
  - unfold set_range. clear. generalize 0%nat.
    induction (length items) as [| n IH]; intros start; simpl; constructor.
    + apply IH.
    + rewrite Forall_forall. intros j Hj. apply in_seq in Hj. lia.
  - intros j. unfold set_range. rewrite in_seq. simpl. intuition lia.
  - constructor.
  - unfold set_range. rewrite length_seq. lia.
  - exists selected. split; [exact Hrun |].
    intros pre best post Hsplit Hpre.
    apply (Hgreedy pre best post Hsplit). exact Hpre.
Qed.

End MmrGreedy.

(* ===================================================================== *)
(** ** MMR and plain ranking agree on the top hit *)
(* ===================================================================== *)

Module TopHit.
Import Py PyFacts Rag MmrFacts.

(** A stable ascending sort starts with the first of the least elements. *)
Lemma sorted_starts_with_first_min {A : Type} (key : A -> Q) (l1 l2 : list A) (b : A) :
  Forall (fun x => key b < key x) l1 ->
  Forall (fun x => key b <= key x) l2 ->
  exists rest, sorted key (l1 ++ b :: l2) = b :: rest.
Proof.
  intros H1 H2. induction H1 as [| x l1 Hx _ [rest IH]].
  - simpl. unfold sorted. simpl.
    assert (Hall : Forall (fun x => key b <= key x)
                          (sort_by (fun a c => Qle_bool (key a) (key c)) l2)).
    { rewrite Forall_forall in H2 |- *. intros x Hx. apply H2.
      apply (Permutation_in _ (sorted_perm key l2)). exact Hx. }
    destruct (sort_by (fun a c => Qle_bool (key a) (key c)) l2) as [| y s].
    + exists []. reflexivity.
    + inversion Hall as [| ? ? Hy _]; subst.
      exists (y :: s). simpl.
      apply Qle_bool_iff in Hy. rewrite Hy. reflexivity.
  - unfold sorted in *. simpl. rewrite IH. simpl.
    replace (Qle_bool (key x) (key b)) with false.
    + eexists. reflexivity.
    + symmetry. apply negb_true_iff. apply Qlt_bool_iff. exact Hx.
Qed.

(** X10.  For [k >= 1], some candidate and one embedding row per candidate,
    the MMR branch and the plain branch of [retrieve] start with the same
    hit: the first of the candidates at the least distance. *)
Theorem mmr_keeps_top_hit (np : Np.Numpy) (items : list Hit) (emb_chunks : list Vec) (k : Z) :
  length emb_chunks = length items ->
  (1 <= k)%Z ->
  items <> [] ->
  exists top selected others rest,
    mmr_select np items emb_chunks k = Ok selected /\
    mapM (item_at items) selected = Ok (top :: others) /\
    take k (sorted dist items) = top :: rest /\
    Forall (fun h => dist top <= dist h) items.
Proof.
  intros Hrows Hk Hne.
  destruct (@mmr_branch_returns np items emb_chunks k Hrows)
    as [selected [out [Hsel [Hmap Hall]]]].
  assert (Hrange : Forall (fun i => (i < length items)%nat) (set_range (length items))).
  { rewrite Forall_forall. intros i Hi. apply in_seq in Hi. lia. }
  assert (Hex : exists n', length items = S n').
  { destruct items; [congruence | eexists; reflexivity]. }
  destruct Hex as [n' En].
  assert (Hcne : set_range (length items) <> []) by (rewrite En; discriminate).
  assert (Hk1 : (Z.of_nat (@length nat []) < k)%Z) by (simpl; lia).
  destruct (@mmr_loop_step np items emb_chunks k Hrows n' []
                           (set_range (length items)) Hcne Hk1 Hrange)
    as [best [Hin [Hstep Hmin]]]; [constructor |].
  specialize (Hmin eq_refl).
  assert (Hrun : mmr_loop np (S n') items emb_chunks k [] (set_range (length items))
                 = Ok selected)
    by (rewrite <- En; exact Hsel).
  rewrite Hstep in Hrun.
  apply mmr_loop_prefix in Hrun. destruct Hrun as [more Hmore].
  simpl in Hmore. subst selected.
  inversion Hall as [| ? top ? others Htop Hothers]; subst.
  destruct (@min_key_first nat
              (fun i => rbind (item_at items i) (fun it => Ok (dist it)))
              (dist_at items) (set_range (length items)) Hcne)
    as [b [l1 [l2 [Hb [Hsplit [H1 H2]]]]]].
  { eapply Forall_impl; [| exact Hrange]. intros i Hi.
    apply dist_key_ok. exact Hi. }
  rewrite Hmin in Hb. inversion Hb; subst b.
  assert (Etop : dist_at items best = dist top)
    by (unfold dist_at; rewrite Htop; reflexivity).
  (* the same cut, on the hits themselves *)
  assert (Hitems : items = map (fun i => nth i items top) l1
                           ++ top :: map (fun i => nth i items top) l2).
  { rewrite <- (StageFacts.map_nth_range top items) at 1.
    unfold set_range in Hsplit. rewrite Hsplit, map_app. simpl.
    rewrite (nth_error_nth _ _ top Htop). reflexivity. }
  assert (Hval : forall i, In i (set_range (length items)) ->
                           dist_at items i = dist (nth i items top)).
  { intros i Hi. apply in_seq in Hi.
    destruct (@item_at_lt _ items i) as [h [_ Hh]]; [lia |].
    unfold dist_at. rewrite Hh, (nth_error_nth _ _ top Hh). reflexivity. }
  assert (Hl1 : Forall (fun h => dist top < dist h)
                       (map (fun i => nth i items top) l1)).
  { rewrite Forall_forall in H1 |- *. intros h Hh.
    apply in_map_iff in Hh. destruct Hh as [i [<- Hi]].
    rewrite <- Etop, <- Hval; [apply H1; exact Hi |].
    rewrite Hsplit. apply in_or_app. left. exact Hi. }
  assert (Hl2 : Forall (fun h => dist top <= dist h)
                       (map (fun i => nth i items top) l2)).
  { rewrite Forall_forall in H2 |- *. intros h Hh.
    apply in_map_iff in Hh. destruct Hh as [i [<- Hi]].
    rewrite <- Etop, <- Hval; [apply H2; exact Hi |].
    rewrite Hsplit. apply in_or_app. right. right. exact Hi. }
  destruct (@sorted_starts_with_first_min Hit dist _ _ top Hl1 Hl2) as [rest Hsorted].
  rewrite <- Hitems in Hsorted.
  exists top, (best :: more), others, (firstn (Z.to_nat (k - 1)) rest).
  split; [exact Hsel |]. split; [exact Hmap |]. split.
  - rewrite take_nonneg by lia. rewrite Hsorted.
    replace (Z.to_nat k) with (S (Z.to_nat (k - 1))) by lia. reflexivity.
  - rewrite Hitems. apply Forall_app. split.
    + eapply Forall_impl; [| exact Hl1]. intros h. apply Qlt_le_weak.
    + constructor; [apply Qle_refl | exact Hl2].
Qed.

End TopHit.

(* ===================================================================== *)
(** ** More on the optional stages *)
(* ===================================================================== *)

Module StageMore.
Import Py PyFacts Rag StageFacts.

(** X11.  On an empty hit list [bm25_mix] never returns hits: whatever the
    BM25 scorer does, [dist.max()] of no distances raises. *)
Theorem bm25_mix_empty_never_returns
        (np : Np.Numpy)
        (bm25_get_scores : list string -> string -> result (list Q))
        (query : string) (alpha : Q) (out : list Hit) :
  bm25_mix np bm25_get_scores query [] alpha <> Ok out.
Proof.
  unfold bm25_mix, mixed_scores. cbn [map].
  destruct (bm25_get_scores [] query); cbn; discriminate.
Qed.

Lemma StronglySorted_Forall2 {A B : Type} (R : A -> A -> Prop) (R' : B -> B -> Prop)
      (P : A -> B -> Prop) (l : list A) (m : list B) :
  (forall i j a b, P i a -> P j b -> R i j -> R' a b) ->
  Forall2 P l m -> StronglySorted R l -> StronglySorted R' m.
Proof.
  intros Htrans Hall. induction Hall as [| i a l m Hia Hall IH]; intros Hs.
  - constructor.
  - inversion Hs as [| ? ? Hs' Hi]; subst.
    constructor; [apply IH; exact Hs' |].
    clear IH Hs Hs'. induction Hall as [| j b l m Hjb _ IH];
      constructor; inversion Hi; subst.
    + eapply Htrans; eassumption.
    + apply IH. assumption.
Qed.

Lemma nth_mixed (f : Q * Hit -> Q) (hits : list Hit) :
  forall (scores : list Q) (i : nat) (h : Hit),
    length scores = length hits ->
    nth_error hits i = Some h ->
    exists s,
      nth_error scores i = Some s /\
      nth i (map f (combine scores hits)) 0 = f (s, h).
Proof.
  induction hits as [| h0 hits IH]; intros scores i h Hlen Hi.
  - destruct i; discriminate.
  - destruct scores as [| s0 scores]; [discriminate |].
    destruct i as [| i]; simpl in Hi |- *.
    + inversion Hi; subst. exists s0. split; reflexivity.
    + apply IH; [simpl in Hlen; lia | exact Hi].
Qed.

(** X12.  With [alpha = 1], non-negative distances and BM25 scores that
    are floats, the distances play no part: [bm25_mix] returns the hits by
    descending BM25 score. *)
Theorem bm25_mix_alpha_one
        (np : Np.Numpy)
        (bm25_get_scores : list string -> string -> result (list Q))
        (query : string) (hits : list Hit) (scores : list Q) :
  Np.sorts (Np.argsort np) ->
  hits <> [] ->
  bm25_get_scores (map doc hits) query = Ok scores ->
  length scores = length hits ->
  Forall Fl.is_float scores ->
  Forall (fun h => 0 <= dist h) hits ->
  exists order out,
    bm25_mix np bm25_get_scores query hits 1 = Ok out /\
    Permutation order (seq 0 (length hits)) /\
    Forall2 (fun i h => nth_error hits i = Some h) order out /\
    StronglySorted (fun i j => nth j scores 0 <= nth i scores 0) order.
Proof.
  intros Hnp Hne Hscores Hlen Hfloat _.
  destruct (@bm25_mix_returns np bm25_get_scores query hits 1 scores
                              Hnp Hne Hscores Hlen)
    as [dmax [mixed [order [out [_ [_ [_ [Hmixed [Hrun [_ [Hperm [Hall Hs]]]]]]]]]]]].
  exists order, out. split; [exact Hrun |]. split; [exact Hperm |].
  split; [exact Hall |].
  assert (Hval : forall i, In i order -> nth i mixed 0 == nth i scores 0).
  { intros i Hi.
    apply (Permutation_in _ Hperm) in Hi. apply in_seq in Hi.
    destruct (@item_at_lt _ hits i) as [h [_ Hh]]; [lia |].
    destruct (nth_mixed (mixed_at 1 dmax) hits scores i Hlen Hh) as [s [Hs' Hn]].
    rewrite Hmixed, Hn. rewrite (nth_error_nth _ _ 0 Hs').
    assert (Hfs : Fl.is_float s).
    { rewrite Forall_forall in Hfloat. apply Hfloat.
      eapply nth_error_In. exact Hs'. }
    unfold mixed_at. cbn [fst snd].
    rewrite FlFacts.sub_1_1, FlFacts.mul_0_l.
    apply FlFacts.add_0_r; [exact Hfs | apply FlFacts.mul_1_l; exact Hfs]. }
  eapply StronglySorted_impl; [| exact Hs].
  intros i j Hi Hj Hle. cbv beta in Hle |- *.
  rewrite <- (Hval i Hi), <- (Hval j Hj). exact Hle.
Qed.

Lemma map_fst_combine_firstn {A B : Type} (a : list A) :
  forall b : list B, map fst (combine a b) = firstn (length b) a.
Proof.
  induction a as [| x a IH]; intros b.
  - rewrite firstn_nil. reflexivity.
  - destruct b as [| y b]; [reflexivity |].
    simpl. rewrite IH. reflexivity.
Qed.

(** X13.  [rerank_cross_encoder] pairs hits with scores by [zip]: when the
    scorer returns fewer scores than hits, the hits beyond the last score
    are dropped without an error; what is returned reorders the others. *)
Theorem rerank_cuts_to_scores
        (ce_predict : string -> list (string * string) -> result (list Q))
        (query : string) (hits : list Hit) (model_name : string)
        (scores : list Q) :
  ce_predict model_name (map (fun h => (query, doc h)) hits) = Ok scores ->
  exists out,
    rerank_cross_encoder ce_predict query hits model_name = Ok out /\
    Permutation out (firstn (length scores) hits) /\
    length out = Nat.min (length scores) (length hits).
Proof.
  intros Hscores.
  exists (map fst (sorted_reverse snd (combine hits scores))).
  assert (Hp : Permutation (map fst (sorted_reverse snd (combine hits scores)))
                           (firstn (length scores) hits)).
  { rewrite <- map_fst_combine_firstn.
    apply Permutation_map. apply sorted_reverse_perm. }
  split; [unfold rerank_cross_encoder; rewrite Hscores; reflexivity |].
  split; [exact Hp |].
  rewrite (Permutation_length Hp). apply length_firstn.
Qed.

(** Sorting commutes with tagging the elements. *)
Lemma sort_by_map {A B : Type} (leb : B -> B -> bool) (f : A -> B) (l : list A) :
  sort_by leb (map f l) = map f (sort_by (fun a b => leb (f a) (f b)) l).
Proof.
  induction l as [| x l IH]; [reflexivity |].
  simpl. rewrite IH.
  generalize (sort_by (fun a b => leb (f a) (f b)) l). intros s.
  induction s as [| y s IHs]; [reflexivity |].
  simpl. destruct (leb (f x) (f y)); [reflexivity |].
  simpl. rewrite IHs. reflexivity.
Qed.

(** Sorting what is sorted changes nothing. *)
Lemma sort_by_sorted_id {A : Type} (leb : A -> A -> bool) (l : list A) :
  StronglySorted (fun a b => leb a b = true) l -> sort_by leb l = l.
Proof.
  induction 1 as [| x l _ IH Hx]; [reflexivity |].
  simpl. rewrite IH. destruct l as [| y l]; [reflexivity |].
  inversion Hx as [| ? ? Hxy _]; subst. simpl. rewrite Hxy. reflexivity.
Qed.

Lemma combine_map_self {A B : Type} (g : A -> B) (l : list A) :
  combine l (map g l) = map (fun a => (a, g a)) l.
Proof.
  induction l as [| x l IH]; [reflexivity |]. simpl. rewrite IH. reflexivity.
Qed.

(** X14.  With a scorer that scores each pair by itself, reranking is a
    stable descending sort on the pair's score, and reranking its own
    output changes nothing. *)
Theorem rerank_idempotent
        (ce_predict : string -> list (string * string) -> result (list Q))
        (score : string * string -> Q)
        (query : string) (hits : list Hit) (model_name : string) :
  (forall pairs, ce_predict model_name pairs = Ok (map score pairs)) ->
  exists out,
    rerank_cross_encoder ce_predict query hits model_name = Ok out /\
    out = sorted_reverse (fun h => score (query, doc h)) hits /\
    rerank_cross_encoder ce_predict query out model_name = Ok out.
Proof.
  intros Hpoint.
  assert (Hform : forall l,
             rerank_cross_encoder ce_predict query l model_name
             = Ok (sorted_reverse (fun h => score (query, doc h)) l)).
  { intros l. unfold rerank_cross_encoder. rewrite Hpoint. simpl.
    rewrite map_map. rewrite (combine_map_self (fun h => score (query, doc h)) l).
    unfold sorted_reverse. rewrite sort_by_map, map_map. simpl.
    rewrite map_id. reflexivity. }
  exists (sorted_reverse (fun h => score (query, doc h)) hits).
  split; [apply Hform |]. split; [reflexivity |].
  rewrite Hform. f_equal. unfold sorted_reverse at 1.
  apply sort_by_sorted_id. apply sort_by_sorted.
  - intros a b. apply (Qleb_total (fun h => score (query, doc h)) b a).
  - intros a b c H1 H2.
    apply (Qleb_trans (fun h => score (query, doc h)) c b a); assumption.
Qed.

End StageMore.

(* ===================================================================== *)
(** ** Ingestion: what [main] of ingest.py puts into the index *)
(* ===================================================================== *)

Module IngestMainFacts.
Import Py PyFacts Rag PyText IngestMain.

Lemma enumerate_cons {A : Type} (x : A) (l : list A) (start : Z) :
  enumerate (x :: l) start = (start, x) :: enumerate l (start + 1).
Proof.
  unfold enumerate. simpl. rewrite Z.add_0_r. f_equal.
  rewrite <- seq_shift, map_map. f_equal.
  apply map_ext. intros i. lia.
Qed.

Lemma enumerate_length {A : Type} (l : list A) (start : Z) :
  length (enumerate l start) = length l.
Proof.
  unfold enumerate. rewrite length_combine, length_map, length_seq. lia.
Qed.

Lemma map_snd_enumerate {A : Type} (l : list A) (start : Z) :
  map snd (enumerate l start) = l.
Proof.
  revert start. induction l as [| x l IH]; intros start; [reflexivity |].
  rewrite enumerate_cons. simpl. rewrite IH. reflexivity.
Qed.

Section Batches.
Variable Tok : Type.
Variable encode_tokens : string -> list Tok.
Variable decode_tokens : list Tok -> string.
Variable uuid4 : nat -> string.

(** With the default configuration the chunker always returns. *)
Lemma token_chunk_default_returns (full_text : string) :
  exists chunks,
    token_chunk_default encode_tokens decode_tokens full_text = Ok chunks.
Proof.
  unfold token_chunk_default.
  destruct (encode_tokens full_text) as [| t toks] eqn:E.
  - exists []. unfold Ingest.token_chunk. rewrite E. reflexivity.
  - assert (Hne : encode_tokens full_text <> []) by (rewrite E; discriminate).
    assert (Hcfg : (0 <= Ingest.CHUNK_OVERLAP < Ingest.CHUNK_TOKENS)%Z)
      by (unfold Ingest.CHUNK_OVERLAP, Ingest.CHUNK_TOKENS; lia).
    destruct (@ChunkerShape.token_chunk_run Tok encode_tokens decode_tokens
                full_text Ingest.CHUNK_TOKENS Ingest.CHUNK_OVERLAP Hcfg Hne)
      as [windows [Hrun _]].
    eexists. rewrite <- E. apply Hrun. lia.
Qed.

Lemma add_chunks_spec (path : string) (chunks : list string) :
  forall start b,
    add_chunks uuid4 path (enumerate chunks start) b
    = {| ids := ids b ++ map uuid4 (seq (length (ids b)) (length chunks));
         texts := texts b ++ chunks;
         metadatas :=
           metadatas b
           ++ map (fun i => {| source := path; chunk_idx := (start + Z.of_nat i)%Z |})
                  (seq 0 (length chunks)) |}.
Proof.
  induction chunks as [| ch chunks IH]; intros start b.
  - simpl. rewrite !app_nil_r. destruct b; reflexivity.
  - rewrite enumerate_cons. cbn [add_chunks]. rewrite IH. cbn [ids texts metadatas].
    rewrite length_app. simpl length.
    rewrite <- !app_assoc. simpl.
    rewrite Nat.add_1_r, Z.add_0_r.
    replace (seq 1 (length chunks)) with (map S (seq 0 (length chunks)))
      by apply seq_shift.
    rewrite map_map.
    f_equal. f_equal. f_equal.
    apply map_ext. intros i. f_equal. lia.
Qed.

Lemma add_docs_spec (docs : list (string * string)) :
  forall b,
    exists chunkss,
      Forall2 (fun d chunks =>
                 token_chunk_default encode_tokens decode_tokens (snd d) = Ok chunks)
              docs chunkss /\
      add_docs encode_tokens decode_tokens uuid4 docs b
      = Ok {| ids := ids b ++ map uuid4 (seq (length (ids b))
                                             (length (concat chunkss)));
              texts := texts b ++ concat chunkss;
              metadatas :=
                metadatas b
                ++ flat_map (fun p => doc_metas (fst (fst p)) (length (snd p)))
                            (combine docs chunkss) |}.
Proof.
  induction docs as [| [path full_text] docs IH]; intros b.
  - exists []. split; [constructor |]. simpl. rewrite !app_nil_r.
    destruct b; reflexivity.
  - destruct (token_chunk_default_returns full_text) as [chunks Hchunks].
    destruct (IH (add_chunks uuid4 path (enumerate chunks 0) b))
      as [chunkss [Hall Hrun]].
    exists (chunks :: chunkss). split; [constructor; assumption |].
    cbn [add_docs]. rewrite Hchunks. cbn [rbind]. rewrite Hrun.
    rewrite add_chunks_spec. cbn [ids texts metadatas].
    rewrite length_app, length_map, length_seq.
    cbn [concat combine flat_map fst snd].
    rewrite (length_app chunks), seq_app, map_app, <- !app_assoc.
    reflexivity.
Qed.

Lemma doc_metas_length (docs : list (string * string)) (chunkss : list (list string)) :
  length docs = length chunkss ->
  length (flat_map (fun p : string * string * list string =>
                      doc_metas (fst (fst p)) (length (snd p)))
                   (combine docs chunkss))
  = length (concat chunkss).
Proof.
  revert chunkss. induction docs as [| d docs IH]; intros [| cs chunkss] Hlen;
    try discriminate; [reflexivity |].
  simpl. rewrite !length_app, IH by (simpl in Hlen; lia).
  unfold doc_metas. rewrite length_map, length_seq. reflexivity.
Qed.

(** X15.  The ingestion loops always return (the default chunking
    configuration cannot hang), and they fill the three lists in step: the
    texts are the chunks of the documents in order, the metadata of a chunk
    names its document and its position among that document's chunks,
    counted from 0, and the identifiers are as many fresh draws. *)
Theorem add_docs_batch (docs : list (string * string)) :
  exists chunkss b,
    Forall2 (fun d chunks =>
               token_chunk_default encode_tokens decode_tokens (snd d) = Ok chunks)
            docs chunkss /\
    add_docs encode_tokens decode_tokens uuid4 docs empty_batch = Ok b /\
    texts b = concat chunkss /\
    metadatas b
    = flat_map (fun p => doc_metas (fst (fst p)) (length (snd p)))
               (combine docs chunkss) /\
    ids b = map uuid4 (seq 0 (length (texts b))) /\
    length (metadatas b) = length (texts b).
Proof.
  destruct (add_docs_spec docs empty_batch) as [chunkss [Hall Hrun]].
  eexists chunkss, _. split; [exact Hall |]. split; [exact Hrun |].
  cbn [ids texts metadatas empty_batch app length].
  repeat split.
  apply doc_metas_length.
  exact (RetrieveMore.Forall2_same_length Hall).
Qed.

Lemma doc_metas_NoDup (path : string) (n : nat) : NoDup (doc_metas path n).
Proof.
  unfold doc_metas. apply Finite.Injective_map_NoDup; [| apply seq_NoDup].
  intros i j Hij. inversion Hij. lia.
Qed.

Lemma doc_metas_source (path : string) (n : nat) (m : Meta) :
  In m (doc_metas path n) -> source m = path.
Proof.
  unfold doc_metas. intros Hin. apply in_map_iff in Hin.
  destruct Hin as [i [<- _]]. reflexivity.
Qed.

(** X16.  When no two documents share a path, no two chunks share their
    metadata: a source and a chunk index name one chunk of the batch. *)
Theorem add_docs_metadata_unique (docs : list (string * string)) (b : Batch) :
  NoDup (map fst docs) ->
  add_docs encode_tokens decode_tokens uuid4 docs empty_batch = Ok b ->
  NoDup (metadatas b).
Proof.
  intros Hnd Hrun.
  destruct (add_docs_spec docs empty_batch) as [chunkss [Hall Hspec]].
  rewrite Hspec in Hrun. inversion Hrun; subst b. cbn [metadatas empty_batch app].
  clear Hrun Hspec.
  induction Hall as [| d cs docs chunkss _ Hall IH]; simpl.
  - constructor.
  - inversion Hnd as [| ? ? Hfresh Hnd']; subst.
    apply NoDup_app; [apply doc_metas_NoDup | apply IH; exact Hnd' |].
    intros m Hm Hm'. apply doc_metas_source in Hm.
    apply in_flat_map in Hm'. destruct Hm' as [[[p t] cs'] [Hin Hm']].
    apply doc_metas_source in Hm'. simpl in Hm'.
    apply Hfresh. apply in_combine_l in Hin.
    apply in_map_iff. exists (p, t). split; [simpl; congruence | exact Hin].
Qed.

End Batches.

Section MainRuns.
Variable Tok : Type.
Variable encode_tokens : string -> list Tok.
Variable decode_tokens : list Tok -> string.
Variable EMBEDDING_MODEL : string.
Variable makedirs : result unit.
Variable open_client : result unit.
Variable list_collections : result (list string).
Variable get_collection : result unit.
Variable create_collection : result unit.
Variable get_embedder : result Embedder.
Variable load_documents : result (list (string * string)).
Variable uuid4 : nat -> string.
Variable upsert : list string -> list Vec -> list Meta -> list string -> result unit.

(** X17.  Nothing is embedded and nothing is written to the index unless
    [load_documents] has returned at least one document. *)
Theorem main_nothing_without_documents :
  (forall d ds, load_documents <> Ok (d :: ds)) ->
  filter is_encode (fst (Trace.run (main encode_tokens decode_tokens EMBEDDING_MODEL makedirs open_client
                  list_collections get_collection create_collection get_embedder
                  load_documents uuid4 upsert))) = [] /\
  filter is_upsert (fst (Trace.run (main encode_tokens decode_tokens EMBEDDING_MODEL makedirs open_client
                  list_collections get_collection create_collection get_embedder
                  load_documents uuid4 upsert))) = [].
Proof.
  intros Hnone. unfold main, Trace.run, Trace.bind, Trace.event, print.
  destruct makedirs; cbv beta iota; try (split; reflexivity).
  destruct open_client; cbv beta iota; try (split; reflexivity).
  destruct list_collections as [colls | |]; cbv beta iota; try (split; reflexivity).
  destruct (existsb (String.eqb COLLECTION_NAME) colls); cbv beta iota.
  - destruct get_collection; cbv beta iota; try (split; reflexivity).
    destruct get_embedder; cbv beta iota; try (split; reflexivity).
    destruct load_documents as [[| d ds] | |]; cbv beta iota;
      try (split; reflexivity).
    exfalso. exact (Hnone d ds eq_refl).
  - destruct create_collection; cbv beta iota; try (split; reflexivity).
    destruct get_embedder; cbv beta iota; try (split; reflexivity).
    destruct load_documents as [[| d ds] | |]; cbv beta iota;
      try (split; reflexivity).
    exfalso. exact (Hnone d ds eq_refl).
Qed.

(** X18.  When every capability answers and the embedder returns one row
    per text, a run on at least one document embeds the texts of the batch
    once and then writes the batch to the index once, with as many
    identifiers, embeddings and metadata as texts. *)
Theorem main_upserts_batch
        (colls : list string) (embedder : Embedder)
        (d : string * string) (ds : list (string * string)) :
  makedirs = Ok tt ->
  open_client = Ok tt ->
  list_collections = Ok colls ->
  (if existsb (String.eqb COLLECTION_NAME) colls
   then get_collection else create_collection) = Ok tt ->
  get_embedder = Ok embedder ->
  one_row_per_text embedder ->
  load_documents = Ok (d :: ds) ->
  (forall i e m t, upsert i e m t = Ok tt) ->
  exists b embs line1 line2 line3,
    Trace.run (main encode_tokens decode_tokens EMBEDDING_MODEL makedirs open_client
                  list_collections get_collection create_collection get_embedder
                  load_documents uuid4 upsert)
    = ([MakeDirs DB_DIR; OpenClient DB_DIR; ListCollections;
        if existsb (String.eqb COLLECTION_NAME) colls
        then GetCollection COLLECTION_NAME
        else CreateCollection COLLECTION_NAME "cosine";
        GetEmbedder; LoadDocuments DATA_DIR;
        Print line1; Encode (texts b); Print line2;
        Upsert (ids b) embs (metadatas b) (texts b); Print line3],
       Ok tt) /\
    add_docs encode_tokens decode_tokens uuid4 (d :: ds) empty_batch = Ok b /\
    length (ids b) = length (texts b) /\
    length embs = length (texts b) /\
    length (metadatas b) = length (texts b).
Proof.
  intros Hmk Hcl Hls Hcoll Hemb Hrows Hdocs Hup.
  destruct (add_docs_spec encode_tokens decode_tokens uuid4 (d :: ds) empty_batch)
    as [chunkss [Hall Hrun]].
  remember {| ids := ids empty_batch ++ map uuid4 (seq (length (ids empty_batch))
                                                   (length (concat chunkss)));
              texts := texts empty_batch ++ concat chunkss;
              metadatas :=
                metadatas empty_batch
                ++ flat_map (fun p : string * string * list string =>
                               doc_metas (fst (fst p)) (length (snd p)))
                            (combine (d :: ds) chunkss) |} as b eqn:Eb.
  destruct (Hrows (texts b)) as [embs [Hembs Hlen]].
  assert (Hids : length (ids b) = length (texts b)).
  { subst b. cbn [ids texts empty_batch app length].
    rewrite length_map, length_seq. reflexivity. }
  assert (Hmetas : length (metadatas b) = length (texts b)).
  { subst b. cbn [metadatas texts empty_batch app].
    apply doc_metas_length. exact (RetrieveMore.Forall2_same_length Hall). }
  clear Eb.
  exists b, embs.
  unfold main, Trace.run, Trace.bind, Trace.event, Trace.lift, print.
  rewrite Hmk, Hcl, Hls. cbv beta iota.
  destruct (existsb (String.eqb COLLECTION_NAME) colls);
    rewrite Hcoll, Hemb, Hdocs; cbv beta iota; rewrite Hrun; cbv beta iota;
    rewrite Hembs; cbv beta iota; rewrite Hup; cbv beta iota;
    cbn [app];
    do 3 eexists;
    (split; [reflexivity |]);
    repeat split; assumption.
Qed.

End MainRuns.

End IngestMainFacts.

(* ===================================================================== *)
(** ** Question answering: what [main] of rag.py sends and prints *)
(* ===================================================================== *)

Module RagMainFacts.
Import Py PyFacts Rag PyText RagMain.

Lemma for_each_print {A : Type} (f : A -> string) (l : list A) :
  forall log,
    Trace.for_each l (fun p => print (f p)) log
    = (log ++ map (fun p => Print (f p)) l, Ok tt).
Proof.
  induction l as [| x l IH]; intros log; simpl.
  - unfold Trace.ret. rewrite app_nil_r. reflexivity.
  - unfold Trace.bind, print, Trace.event. rewrite IH, <- app_assoc. reflexivity.
Qed.

Lemma filter_map_none {A B : Type} (p : B -> bool) (f : A -> B) (l : list A) :
  (forall x, p (f x) = false) -> filter p (map f l) = [].
Proof.
  intros Hp. induction l as [| x l IH]; simpl; [reflexivity |].
  rewrite Hp. exact IH.
Qed.

Section MainRuns.
Variable USE_MMR USE_RERANK : bool.
Variable OPENAI_MODEL : string.
Variable W : World.
Variable bm25_get_scores : list string -> string -> result (list Q).
Variable ce_predict : string -> list (string * string) -> result (list Q).
Variable chat_completion : string -> list Message -> Q -> result string.
Variable str_strip : string -> string.

(** A run of [main], case by case. *)
Lemma main_run (q : string) (k : Z) (lexical rerank : bool) :
  Trace.run (main USE_MMR USE_RERANK OPENAI_MODEL W bm25_get_scores ce_predict
                  chat_completion str_strip q k lexical rerank)
  = let calls := map Capability (fst (run (retrieve W q k USE_MMR))) in
    match staged_hits USE_MMR USE_RERANK W bm25_get_scores ce_predict
                      q k lexical rerank with
    | Ok hits =>
        let request := Chat OPENAI_MODEL (build_prompt q (take k hits)) (2 # 10) in
        match chat_completion OPENAI_MODEL (build_prompt q (take k hits)) (2 # 10) with
        | Ok answer =>
            (calls ++ [request;
                       Print (nl ++ "=== ANSWER ===" ++ nl);
                       Print (str_strip answer);
                       Print (nl ++ "=== SOURCES ===")]
                   ++ map (fun p => Print (source_line p)) (enumerate (take k hits) 1),
             Ok tt)
        | Raise e => (calls ++ [request], Raise e)
        | OutOfFuel => (calls ++ [request], OutOfFuel)
        end
    | Raise e => (calls, Raise e)
    | OutOfFuel => (calls, OutOfFuel)
    end.
Proof.
  unfold main, staged_hits, Trace.run, Trace.bind, retrieve_traced,
    generate_answer, Trace.lift, Trace.ret, Trace.event.
  destruct (run (retrieve W q k USE_MMR)) as [calls [hits0 | e |]];
    cbn [fst snd app rbind]; try reflexivity.
  destruct lexical.
  - destruct (bm25_mix (numpy W) bm25_get_scores q hits0 default_alpha) as [hits1 | e |];
      cbn [rbind]; try reflexivity.
    destruct (rerank || USE_RERANK).
    + destruct (rerank_cross_encoder ce_predict q hits1 default_model_name)
        as [hits2 | e |]; try reflexivity.
      destruct (chat_completion OPENAI_MODEL (build_prompt q (take k hits2)) (2 # 10));
        try reflexivity.
      unfold print at 1 2 3. unfold Trace.event.
      rewrite for_each_print. rewrite <- !app_assoc. reflexivity.
    + destruct (chat_completion OPENAI_MODEL (build_prompt q (take k hits1)) (2 # 10));
        try reflexivity.
      unfold print at 1 2 3. unfold Trace.event.
      rewrite for_each_print. rewrite <- !app_assoc. reflexivity.
  - cbn [rbind].
    destruct (rerank || USE_RERANK).
    + destruct (rerank_cross_encoder ce_predict q hits0 default_model_name)
        as [hits2 | e |]; try reflexivity.
      destruct (chat_completion OPENAI_MODEL (build_prompt q (take k hits2)) (2 # 10));
        try reflexivity.
      unfold print at 1 2 3. unfold Trace.event.
      rewrite for_each_print. rewrite <- !app_assoc. reflexivity.
    + destruct (chat_completion OPENAI_MODEL (build_prompt q (take k hits0)) (2 # 10));
        try reflexivity.
      unfold print at 1 2 3. unfold Trace.event.
      rewrite for_each_print. rewrite <- !app_assoc. reflexivity.
Qed.

Lemma main_trace_filters (calls : list call) (rest : list event) (p : event -> bool) :
  (forall c, p (Capability c) = false) ->
  filter p (map Capability calls ++ rest) = filter p rest.
Proof.
  intros Hp. rewrite filter_app, filter_map_none by exact Hp. reflexivity.
Qed.

(** X19.  When [retrieve] and the requested stages return hits and the chat
    model answers, [main] makes one chat request, after the calls of
    [retrieve], with the prompt built from the first [k] hits; the sources
    it prints afterwards are those of the same hits, numbered from 1 in the
    same order. *)
Theorem main_answers_from_contexts
        (q : string) (k : Z) (lexical rerank : bool)
        (hits : list Hit) (answer : string) :
  staged_hits USE_MMR USE_RERANK W bm25_get_scores ce_predict q k lexical rerank
  = Ok hits ->
  chat_completion OPENAI_MODEL (build_prompt q (take k hits)) (2 # 10) = Ok answer ->
  Trace.run (main USE_MMR USE_RERANK OPENAI_MODEL W bm25_get_scores ce_predict
                  chat_completion str_strip q k lexical rerank)
  = (map Capability (fst (run (retrieve W q k USE_MMR)))
         ++ [Chat OPENAI_MODEL (build_prompt q (take k hits)) (2 # 10);
             Print (nl ++ "=== ANSWER ===" ++ nl);
             Print (str_strip answer);
             Print (nl ++ "=== SOURCES ===")]
         ++ map (fun p => Print (source_line p)) (enumerate (take k hits) 1),
     Ok tt) /\
  length (filter is_chat
                 (fst (Trace.run (main USE_MMR USE_RERANK OPENAI_MODEL W
                                       bm25_get_scores ce_predict
                                       chat_completion str_strip
                                       q k lexical rerank)))) = 1%nat /\
  ((0 <= k)%Z -> (Z.of_nat (length (take k hits)) <= k)%Z).
Proof.
  intros Hhits Hchat. rewrite main_run, Hhits. cbv zeta. rewrite Hchat.
  split; [reflexivity |]. split.
  - cbn [fst].
    rewrite main_trace_filters by reflexivity.
    rewrite filter_app. cbn [filter is_chat app length].
    rewrite filter_map_none by reflexivity. reflexivity.
  - intros Hk. rewrite (take_nonneg _ Hk), length_firstn. lia.
Qed.

(** X20.  When [retrieve] or a requested stage does not return hits, [main]
    asks the chat model nothing and prints nothing; the run ends with the
    error. *)
Theorem main_no_answer_without_hits (q : string) (k : Z) (lexical rerank : bool) :
  (forall hits,
      staged_hits USE_MMR USE_RERANK W bm25_get_scores ce_predict q k lexical rerank
      <> Ok hits) ->
  filter is_chat
         (fst (Trace.run (main USE_MMR USE_RERANK OPENAI_MODEL W bm25_get_scores
                               ce_predict chat_completion str_strip
                               q k lexical rerank))) = [] /\
  filter is_print
         (fst (Trace.run (main USE_MMR USE_RERANK OPENAI_MODEL W bm25_get_scores
                               ce_predict chat_completion str_strip
                               q k lexical rerank))) = [] /\
  snd (Trace.run (main USE_MMR USE_RERANK OPENAI_MODEL W bm25_get_scores
                       ce_predict chat_completion str_strip
                       q k lexical rerank)) <> Ok tt.
Proof.
  intros Hnone. rewrite main_run. cbv zeta.
  destruct (staged_hits USE_MMR USE_RERANK W bm25_get_scores ce_predict
                        q k lexical rerank) as [hits | e |].
  - exfalso. exact (Hnone hits eq_refl).
  - cbn [fst snd]. repeat split; try discriminate;
      apply filter_map_none; reflexivity.
  - cbn [fst snd]. repeat split; try discriminate;
      apply filter_map_none; reflexivity.
Qed.

(** X21.  With [--lexical], a retrieval that returns no hit ends the run in
    an error before the chat model is asked: [bm25_mix] cannot take the
    maximum of no distances. *)
Theorem main_lexical_on_no_hits (q : string) (k : Z) (rerank : bool) :
  snd (run (retrieve W q k USE_MMR)) = Ok [] ->
  filter is_chat
         (fst (Trace.run (main USE_MMR USE_RERANK OPENAI_MODEL W bm25_get_scores
                               ce_predict chat_completion str_strip
                               q k true rerank))) = [] /\
  snd (Trace.run (main USE_MMR USE_RERANK OPENAI_MODEL W bm25_get_scores
                       ce_predict chat_completion str_strip
                       q k true rerank)) <> Ok tt.
Proof.
  intros Hempty. rewrite main_run. cbv zeta.
  unfold staged_hits. rewrite Hempty. cbn [rbind].
  unfold bm25_mix, mixed_scores. cbn [map].
  destruct (bm25_get_scores [] q) as [scores | e |]; cbn [rbind fst snd max_of];
    (split; [apply filter_map_none; reflexivity | discriminate]).
Qed.

(** X22.  For a count [k >= 0], with a numpy whose [argsort] sorts, with
    capabilities that answer one row or one score per input (and, with
    [--lexical], at least one hit to mix),
    the stages only reorder what [retrieve] returned and the cut to [k] in
    [main] removes nothing: the contexts sent to the chat model are all the
    hits [retrieve] returned. *)
Theorem main_sends_all_hits
        (q : string) (k : Z) (lexical rerank : bool)
        (embedder : Embedder) (q_emb : Vec) (res : QueryResult) (items : list Hit) :
  (0 <= k)%Z ->
  Np.sorts (Np.argsort (numpy W)) ->
  stage0 W q k USE_MMR embedder q_emb res ->
  one_row_per_text embedder ->
  items_of res = Ok items ->
  (lexical = true -> (1 <= k)%Z /\ items <> []) ->
  (forall corpus, exists scores,
        bm25_get_scores corpus q = Ok scores /\ length scores = length corpus) ->
  (forall pairs, exists scores,
        ce_predict default_model_name pairs = Ok scores /\
        length scores = length pairs) ->
  exists hits0 hits,
    snd (run (retrieve W q k USE_MMR)) = Ok hits0 /\
    staged_hits USE_MMR USE_RERANK W bm25_get_scores ce_predict q k lexical rerank
    = Ok hits /\
    Permutation hits hits0 /\
    take k hits = hits.
Proof.
  intros Hk Hnp Hs Hrows Hitems Hlex Hbm Hce.
  destruct (@RetrieveMore.retrieve_count W q k USE_MMR embedder q_emb res items
                                         Hk Hs Hrows Hitems)
    as [hits0 [Hret Hcount]].
  assert (Hmix : exists hits1,
             (if lexical
              then bm25_mix (numpy W) bm25_get_scores q hits0 default_alpha
              else Ok hits0) = Ok hits1 /\ Permutation hits1 hits0).
  { destruct lexical; [| exists hits0; split; [reflexivity | apply Permutation_refl]].
    destruct (Hlex eq_refl) as [Hk1 Hne].
    assert (Hne0 : hits0 <> []).
    { intros ->. simpl in Hcount. destruct items; [congruence | simpl in Hcount; lia]. }
    destruct (Hbm (map doc hits0)) as [scores [Hscores Hlen]].
    rewrite length_map in Hlen.
    destruct (@StageFacts.bm25_mix_returns (numpy W) bm25_get_scores q hits0
                                           default_alpha scores Hnp Hne0 Hscores Hlen)
      as [dmax [mixed [order [out [_ [_ [_ [_ [Hrun [_ [Hperm [Hall _]]]]]]]]]]]].
    exists out. split; [exact Hrun |].
    exact (@StageFacts.pick_permutation Hit hits0 order out Hperm Hall). }
  destruct Hmix as [hits1 [Hmix Hp1]].
  assert (Hrank : exists hits2,
             (if rerank || USE_RERANK
              then rerank_cross_encoder ce_predict q hits1 default_model_name
              else Ok hits1) = Ok hits2 /\ Permutation hits2 hits1).
  { destruct (rerank || USE_RERANK);
      [| exists hits1; split; [reflexivity | apply Permutation_refl]].
    destruct (Hce (map (fun h => (q, doc h)) hits1)) as [scores [Hscores Hlen]].
    rewrite length_map in Hlen.
    exists (map fst (sorted_reverse snd (combine hits1 scores))).
    split; [unfold rerank_cross_encoder; rewrite Hscores; reflexivity |].
    rewrite <- (StageFacts.map_fst_combine hits1 scores Hlen) at 2.
    apply Permutation_map. apply sorted_reverse_perm. }
  destruct Hrank as [hits2 [Hrank Hp2]].
  exists hits0, hits2. split; [exact Hret |]. split.
  - unfold staged_hits. rewrite Hret. cbn [rbind]. rewrite Hmix. cbn [rbind].
    exact Hrank.
  - split; [apply perm_trans with hits1; assumption |].
    rewrite take_nonneg by exact Hk. apply firstn_all2.
    rewrite (Permutation_length Hp2), (Permutation_length Hp1). lia.
Qed.

End MainRuns.

End RagMainFacts.

(* ===================================================================== *)
(** ** The theorems above at concrete inputs *)
(* ===================================================================== *)

Module Witnesses.
Import Py Rag.

Lemma stage0_corpus3 (k : Z) (mmr : bool) :
  (0 < candidate_count k mmr)%Z ->
  stage0 (Stub.world true Stub.corpus3) "q" k mmr Stub.embedder [1]
         (Stub.answer true Stub.corpus3 (candidate_count k mmr)).
Proof.
  intros Hpos. exists (Stub.collection true Stub.corpus3), [].
  repeat split; try reflexivity.
  simpl. destruct (Z.leb_spec (candidate_count k mmr) 0); [lia | reflexivity].
Defined.

Lemma retrieve_result_size_witness :
  exists out,
    snd (run (retrieve (Stub.world true Stub.corpus3) "q" 2 true)) = Ok out /\
    Z.of_nat (length out) = Z.min 2 (Z.of_nat (length Stub.corpus3)) /\
    incl out Stub.corpus3.
Proof.
  apply (@RetrieveMore.retrieve_result_size
           (Stub.world true Stub.corpus3) "q" 2 true Stub.embedder [1]
           (Stub.answer true Stub.corpus3 (candidate_count 2 true)) Stub.corpus3).
  - lia.
  - apply stage0_corpus3. reflexivity.
  - exact DistanceFacts.stub_embedder_one_row.
  - reflexivity.
Defined.

Lemma retrieve_returns_all_witness :
  exists out,
    snd (run (retrieve (Stub.world true Stub.corpus3) "q" 5 false)) = Ok out /\
    Permutation out Stub.corpus3.
Proof.
  apply (@RetrieveMore.retrieve_returns_all
           (Stub.world true Stub.corpus3) "q" 5 false Stub.embedder [1]
           (Stub.answer true Stub.corpus3 (candidate_count 5 false)) Stub.corpus3).
  - simpl. lia.
  - apply stage0_corpus3. reflexivity.
  - exact DistanceFacts.stub_embedder_one_row.
  - reflexivity.
Defined.

Lemma retrieve_no_query_without_embedding_witness :
  filter is_call_query (fst (run (retrieve Fixture.no_embedder_world "q" 2 true))) = [] /\
  forall out, snd (run (retrieve Fixture.no_embedder_world "q" 2 true)) <> Ok out.
Proof.
  apply (@RetrieveMore.retrieve_no_query_without_embedding
           Fixture.no_embedder_world "q" 2 true).
  intros col embedder q_emb rest _ Hemb. discriminate Hemb.
Defined.

Lemma mmr_select_greedy_witness :
  length Fixture.spread_rows = length Fixture.spread /\
  exists selected,
    mmr_select Stub.numpy Fixture.spread Fixture.spread_rows 2 = Ok selected /\
    forall pre best post,
      selected = pre ++ best :: post ->
      pre <> [] ->
      exists qbest,
        mmr_score Stub.numpy Fixture.spread Fixture.spread_rows pre best = Ok qbest /\
        forall j,
          (j < length Fixture.spread)%nat ->
          ~ In j pre ->
          exists qj,
            mmr_score Stub.numpy Fixture.spread Fixture.spread_rows pre j = Ok qj /\
            qj <= qbest /\ ((j < best)%nat -> qj < qbest).
Proof.
  split; [reflexivity |].
  apply (@MmrGreedy.mmr_select_greedy Stub.numpy Fixture.spread Fixture.spread_rows 2).
  reflexivity.
Defined.

Lemma mmr_keeps_top_hit_witness :
  length Fixture.spread_rows = length Fixture.spread /\
  (1 <= 2)%Z /\
  Fixture.spread <> [] /\
  exists top selected others rest,
    mmr_select Stub.numpy Fixture.spread Fixture.spread_rows 2 = Ok selected /\
    mapM (item_at Fixture.spread) selected = Ok (top :: others) /\
    take 2 (sorted dist Fixture.spread) = top :: rest /\
    Forall (fun h => dist top <= dist h) Fixture.spread.
Proof.
  split; [reflexivity |]. split; [lia |]. split; [discriminate |].
  apply (@TopHit.mmr_keeps_top_hit Stub.numpy Fixture.spread Fixture.spread_rows 2);
    [reflexivity | lia | discriminate].
Defined.

Lemma corpus3_nonnegative : Forall (fun h => 0 <= dist h) Stub.corpus3.
Proof.
  repeat constructor; vm_compute; discriminate.
Defined.

Lemma floats_zero3 : Forall Fl.is_float [0; 0; 0].
Proof.
  repeat constructor; vm_compute; reflexivity.
Defined.

Lemma bm25_mix_alpha_one_witness :
  Np.sorts (Np.argsort Stub.numpy) /\
  Stub.corpus3 <> [] /\
  Stub.bm25_no_match (map doc Stub.corpus3) "q" = Ok [0; 0; 0] /\
  length [0; 0; 0] = length Stub.corpus3 /\
  Forall Fl.is_float [0; 0; 0] /\
  Forall (fun h => 0 <= dist h) Stub.corpus3 /\
  exists order out,
    bm25_mix Stub.numpy Stub.bm25_no_match "q" Stub.corpus3 1 = Ok out /\
    Permutation order (seq 0 (length Stub.corpus3)) /\
    Forall2 (fun i h => nth_error Stub.corpus3 i = Some h) order out /\
    StronglySorted (fun i j => nth j [0; 0; 0] 0 <= nth i [0; 0; 0] 0) order.
Proof.
  split; [exact NpFacts.argsort_ties_up_sorts |].
  split; [discriminate |]. split; [reflexivity |]. split; [reflexivity |].
  split; [exact floats_zero3 |].
  split; [exact corpus3_nonnegative |].
  apply (@StageMore.bm25_mix_alpha_one Stub.numpy Stub.bm25_no_match "q"
                                       Stub.corpus3 [0; 0; 0]);
    [exact NpFacts.argsort_ties_up_sorts | discriminate | reflexivity | reflexivity
     | exact floats_zero3 | exact corpus3_nonnegative].
Defined.

Lemma rerank_cuts_to_scores_witness :
  Fixture.ce_one_score default_model_name
                       (map (fun h => ("q"%string, doc h)) Stub.corpus3) = Ok [1] /\
  exists out,
    rerank_cross_encoder Fixture.ce_one_score "q" Stub.corpus3 default_model_name
    = Ok out /\
    Permutation out (firstn (length [1]) Stub.corpus3) /\
    length out = Nat.min (length [1]) (length Stub.corpus3).
Proof.
  split; [reflexivity |].
  apply (@StageMore.rerank_cuts_to_scores Fixture.ce_one_score "q" Stub.corpus3
                                          default_model_name [1]).
  reflexivity.
Defined.

Lemma rerank_idempotent_witness :
  (forall pairs,
      Stub.ce_length default_model_name pairs = Ok (map Fixture.length_score pairs)) /\
  exists out,
    rerank_cross_encoder Stub.ce_length "q" Stub.corpus3 default_model_name = Ok out /\
    out = sorted_reverse (fun h => Fixture.length_score ("q"%string, doc h))
                         Stub.corpus3 /\
    rerank_cross_encoder Stub.ce_length "q" out default_model_name = Ok out.
Proof.
  split; [intros pairs; reflexivity |].
  apply (@StageMore.rerank_idempotent Stub.ce_length Fixture.length_score "q"
                                      Stub.corpus3 default_model_name).
  intros pairs. reflexivity.
Defined.

Lemma add_docs_metadata_unique_witness :
  NoDup (map fst Fixture.two_docs) /\
  NoDup (IngestMain.metadatas
           {| IngestMain.ids := ["id-0"; "id-1"]%string;
              IngestMain.texts := ["abcdefg"; "xyz"]%string;
              IngestMain.metadatas :=
                [{| source := "data/a.txt"; chunk_idx := 0 |};
                 {| source := "data/b.md"; chunk_idx := 0 |}] |}).
Proof.
  assert (Hnd : NoDup (map fst Fixture.two_docs)).
  { repeat constructor; simpl; intuition discriminate. }
  split; [exact Hnd |].
  apply (@IngestMainFacts.add_docs_metadata_unique
           Ascii.ascii Stub.char_encode Stub.char_decode Fixture.uuid_numbered
           Fixture.two_docs _ Hnd).
  reflexivity.
Defined.

Lemma main_nothing_without_documents_witness :
  filter IngestMain.is_encode
         (fst (Trace.run
                 (IngestMain.main Stub.char_encode Stub.char_decode "BAAI/bge-m3"
                                  (Ok tt) (Ok tt) (Ok []) (Ok tt) (Ok tt)
                                  (Ok Stub.embedder) (Ok [])
                                  Fixture.uuid_numbered Fixture.upsert_ok))) = [] /\
  filter IngestMain.is_upsert
         (fst (Trace.run
                 (IngestMain.main Stub.char_encode Stub.char_decode "BAAI/bge-m3"
                                  (Ok tt) (Ok tt) (Ok []) (Ok tt) (Ok tt)
                                  (Ok Stub.embedder) (Ok [])
                                  Fixture.uuid_numbered Fixture.upsert_ok))) = [].
Proof.
  apply (@IngestMainFacts.main_nothing_without_documents
           Ascii.ascii Stub.char_encode Stub.char_decode "BAAI/bge-m3"
           (Ok tt) (Ok tt) (Ok []) (Ok tt) (Ok tt) (Ok Stub.embedder) (Ok [])
           Fixture.uuid_numbered Fixture.upsert_ok).
  intros d ds. discriminate.
Defined.

Lemma main_upserts_batch_witness :
  exists b embs line1 line2 line3,
    Trace.run
      (IngestMain.main Stub.char_encode Stub.char_decode "BAAI/bge-m3"
                       (Ok tt) (Ok tt) (Ok ["other"%string]) (Ok tt) (Ok tt)
                       (Ok Stub.embedder) (Ok Fixture.two_docs)
                       Fixture.uuid_numbered Fixture.upsert_ok)
    = ([IngestMain.MakeDirs IngestMain.DB_DIR;
        IngestMain.OpenClient IngestMain.DB_DIR;
        IngestMain.ListCollections;
        if existsb (String.eqb IngestMain.COLLECTION_NAME) ["other"%string]
        then IngestMain.GetCollection IngestMain.COLLECTION_NAME
        else IngestMain.CreateCollection IngestMain.COLLECTION_NAME "cosine";
        IngestMain.GetEmbedder; IngestMain.LoadDocuments IngestMain.DATA_DIR;
        IngestMain.Print line1; IngestMain.Encode (IngestMain.texts b);
        IngestMain.Print line2;
        IngestMain.Upsert (IngestMain.ids b) embs (IngestMain.metadatas b)
                          (IngestMain.texts b);
        IngestMain.Print line3],
       Ok tt) /\
    IngestMain.add_docs Stub.char_encode Stub.char_decode Fixture.uuid_numbered
                        Fixture.two_docs IngestMain.empty_batch = Ok b /\
    length (IngestMain.ids b) = length (IngestMain.texts b) /\
    length embs = length (IngestMain.texts b) /\
    length (IngestMain.metadatas b) = length (IngestMain.texts b).
Proof.
  apply (@IngestMainFacts.main_upserts_batch
           Ascii.ascii Stub.char_encode Stub.char_decode "BAAI/bge-m3"
           (Ok tt) (Ok tt) (Ok ["other"%string]) (Ok tt) (Ok tt)
           (Ok Stub.embedder) (Ok Fixture.two_docs)
           Fixture.uuid_numbered Fixture.upsert_ok
           ["other"%string] Stub.embedder
           ("data/a.txt", "abcdefg")%string [("data/b.md", "xyz")%string]);
    try reflexivity.
  exact DistanceFacts.stub_embedder_one_row.
Defined.

Lemma main_answers_from_contexts_witness :
  Trace.run (RagMain.main false false "gpt-4o-mini" (Stub.world true Stub.corpus3)
                          Stub.bm25_no_match Stub.ce_length
                          Fixture.chat_fixed Fixture.strip_id "q" 2 false false)
  = (map RagMain.Capability
         (fst (run (retrieve (Stub.world true Stub.corpus3) "q" 2 false)))
         ++ [RagMain.Chat "gpt-4o-mini"
                          (RagMain.build_prompt
                             "q" (take 2 [Stub.hit "alpha" 0 (1 # 10);
                                          Stub.hit "beta" 1 (2 # 10)]))
                          (2 # 10);
             RagMain.Print (PyText.nl ++ "=== ANSWER ===" ++ PyText.nl);
             RagMain.Print (Fixture.strip_id " The answer [1]. ");
             RagMain.Print (PyText.nl ++ "=== SOURCES ===")]
         ++ map (fun p => RagMain.Print (RagMain.source_line p))
                (PyText.enumerate (take 2 [Stub.hit "alpha" 0 (1 # 10);
                                           Stub.hit "beta" 1 (2 # 10)]) 1),
     Ok tt) /\
  length (filter RagMain.is_chat
                 (fst (Trace.run
                         (RagMain.main false false "gpt-4o-mini"
                                       (Stub.world true Stub.corpus3)
                                       Stub.bm25_no_match Stub.ce_length
                                       Fixture.chat_fixed Fixture.strip_id
                                       "q" 2 false false)))) = 1%nat /\
  ((0 <= 2)%Z ->
   (Z.of_nat (length (take 2 [Stub.hit "alpha" 0 (1 # 10);
                              Stub.hit "beta" 1 (2 # 10)])) <= 2)%Z).
Proof.
  apply (@RagMainFacts.main_answers_from_contexts
           false false "gpt-4o-mini" (Stub.world true Stub.corpus3)
           Stub.bm25_no_match Stub.ce_length Fixture.chat_fixed Fixture.strip_id
           "q" 2 false false
           [Stub.hit "alpha" 0 (1 # 10); Stub.hit "beta" 1 (2 # 10)]
           " The answer [1]. "); reflexivity.
Defined.

Lemma main_no_answer_without_hits_witness :
  filter RagMain.is_chat
         (fst (Trace.run
                 (RagMain.main false false "gpt-4o-mini" Fixture.no_embedder_world
                               Stub.bm25_no_match Stub.ce_length
                               Fixture.chat_fixed Fixture.strip_id
                               "q" 2 false false))) = [] /\
  filter RagMain.is_print
         (fst (Trace.run
                 (RagMain.main false false "gpt-4o-mini" Fixture.no_embedder_world
                               Stub.bm25_no_match Stub.ce_length
                               Fixture.chat_fixed Fixture.strip_id
                               "q" 2 false false))) = [] /\
  snd (Trace.run
         (RagMain.main false false "gpt-4o-mini" Fixture.no_embedder_world
                       Stub.bm25_no_match Stub.ce_length
                       Fixture.chat_fixed Fixture.strip_id
                       "q" 2 false false)) <> Ok tt.
Proof.
  apply (@RagMainFacts.main_no_answer_without_hits
           false false "gpt-4o-mini" Fixture.no_embedder_world
           Stub.bm25_no_match Stub.ce_length Fixture.chat_fixed Fixture.strip_id
           "q" 2 false false).
  intros hits. discriminate.
Defined.

Lemma main_lexical_on_no_hits_witness :
  snd (run (retrieve (Stub.world true []) "q" 2 false)) = Ok [] /\
  filter RagMain.is_chat
         (fst (Trace.run
                 (RagMain.main false false "gpt-4o-mini" (Stub.world true [])
                               Stub.bm25_no_match Stub.ce_length
                               Fixture.chat_fixed Fixture.strip_id
                               "q" 2 true false))) = [] /\
  snd (Trace.run
         (RagMain.main false false "gpt-4o-mini" (Stub.world true [])
                       Stub.bm25_no_match Stub.ce_length
                       Fixture.chat_fixed Fixture.strip_id
                       "q" 2 true false)) <> Ok tt.
Proof.
  split; [reflexivity |].
  apply (@RagMainFacts.main_lexical_on_no_hits
           false false "gpt-4o-mini" (Stub.world true [])
           Stub.bm25_no_match Stub.ce_length Fixture.chat_fixed Fixture.strip_id
           "q" 2 false).
  reflexivity.
Defined.

Lemma main_sends_all_hits_witness :
  exists hits0 hits,
    snd (run (retrieve (Stub.world true Stub.corpus3) "q" 2 false)) = Ok hits0 /\
    RagMain.staged_hits false false (Stub.world true Stub.corpus3)
                        Stub.bm25_no_match Stub.ce_length "q" 2 true true
    = Ok hits /\
    Permutation hits hits0 /\
    take 2 hits = hits.
Proof.
  apply (@RagMainFacts.main_sends_all_hits
           false false (Stub.world true Stub.corpus3)
           Stub.bm25_no_match Stub.ce_length "q" 2 true true
           Stub.embedder [1]
           (Stub.answer true Stub.corpus3 (candidate_count 2 false))
           [Stub.hit "alpha" 0 (1 # 10); Stub.hit "beta" 1 (2 # 10)]).
  - lia.
  - exact NpFacts.argsort_ties_up_sorts.
  - apply stage0_corpus3. reflexivity.
  - exact DistanceFacts.stub_embedder_one_row.
  - reflexivity.
  - intros _. split; [lia | discriminate].
  - intros corpus. exists (map (fun _ => 0) corpus).
    split; [reflexivity | apply length_map].
  - intros pairs. eexists. split; [reflexivity | apply length_map].
Defined.

Lemma items_of_cut_to_shortest_witness :
  exists items,
    items_of Fixture.ragged_answer = Ok items /\
    length items
    = Nat.min (length ["alpha"; "beta"; "gamma"]%string)
              (Nat.min (length (map meta Stub.corpus3)) (length [1 # 10; 2 # 10])) /\
    map doc items = firstn (length items) ["alpha"; "beta"; "gamma"]%string.
Proof.
  apply (@RetrieveMore.items_of_cut_to_shortest
           Fixture.ragged_answer ["alpha"; "beta"; "gamma"]%string
           (map meta Stub.corpus3) [1 # 10; 2 # 10] [] [] []); reflexivity.
Defined.

Lemma retrieve_call_counts_witness :
  length (filter is_call_query
                 (fst (run (retrieve (Stub.world true Stub.corpus3) "q" 2 true))))
  = 1%nat /\
  length (filter is_call_encode
                 (fst (run (retrieve (Stub.world true Stub.corpus3) "q" 2 true))))
  = 2%nat /\
  (true = true ->
   fst (run (retrieve (Stub.world true Stub.corpus3) "q" 2 true))
   = stage0_calls "q" [1] (candidate_count 2 true)
     ++ [CallEncode (map doc Stub.corpus3)]).
Proof.
  apply (@RetrieveMore.retrieve_call_counts
           (Stub.world true Stub.corpus3) "q" 2 true Stub.embedder [1]
           (Stub.answer true Stub.corpus3 (candidate_count 2 true)) Stub.corpus3).
  - apply stage0_corpus3. reflexivity.
  - exact DistanceFacts.stub_embedder_one_row.
  - reflexivity.
Defined.

End Witnesses.
